(** * bigcsv: streaming CSV dispatch engine (bigcsv.go) and source adapters (stream.go)

    A shallow embedding of the Go package.  The engine [Parser.Run] is a
    single reader goroutine plus one goroutine per row, coordinated by a
    buffered channel used as a counting semaphore, a [sync.WaitGroup] and a
    [context.Context].  It is embedded as an executable transition function
    over an explicit state; a schedule (a list of [action]s) resolves every
    choice the Go runtime makes: which goroutine runs next, which ready case
    a [select] takes, and when the context gets cancelled. *)

From Stdlib Require Import ZArith List String Ascii Bool Lia.
From stdpp Require Import list.
Import ListNotations.

Set Implicit Arguments.

(** ** Errors *)

(** Go [error] values, as far as the package builds or inspects them. *)
Inductive error : Type :=
| EOF                                          (* io.EOF *)
| ErrOnRow                                     (* errors.New("OnRow error") *)
| ErrParse                                     (* errors.New("Parse error") *)
| ErrOnData                                    (* errors.New("OnData error") *)
| ErrOther (msg : string)                      (* any other leaf error *)
| ErrWrap (msg : string) (inner : error)       (* any error whose Unwrap gives [inner] *)
| ErrLine (tag : error) (ix : Z) (cause : error)
                                               (* fmt.Errorf("%w: line %d: %w", tag, ix, cause) *)
| ErrReadLine (ix : Z) (cause : error)         (* fmt.Errorf("could not read line #%d: %w", ix, cause) *)
| ErrOnDataWithoutParse                        (* fmt.Errorf("cannot call OnData without Parse") *)
| ErrInvalidWorkers (n : Z)                    (* fmt.Errorf("invalid number of workers: %d", n) *)
| ErrCouldNotOpenStream (cause : error)        (* fmt.Errorf("could not open stream: %w", cause) *)
| ErrCouldOpenFile (path : string) (cause : error)
                                               (* fmt.Errorf("could open file '%s': %w", fs, cause) *)
| ErrGzipFailed (path : string) (cause : error).
                                               (* fmt.Errorf("gzip failed for '%s': %w", fs, cause) *)

(** [errors.Is(e, io.EOF)]: io.EOF itself or anything that unwraps to it. *)
Fixpoint errors_Is_EOF (e : error) : bool :=
  match e with
  | EOF => true
  | ErrWrap _ inner => errors_Is_EOF inner
  | ErrLine tag _ cause => errors_Is_EOF tag || errors_Is_EOF cause
  | ErrReadLine _ cause => errors_Is_EOF cause
  | ErrCouldNotOpenStream cause => errors_Is_EOF cause
  | ErrCouldOpenFile _ cause => errors_Is_EOF cause
  | ErrGzipFailed _ cause => errors_Is_EOF cause
  | _ => false
  end.

(** ** Machine integers *)

(** Go's [int] on a 64-bit target; [ixRow++] wraps around. *)
Definition int_bits : Z := 64.
Definition max_int : Z := 2 ^ (int_bits - 1) - 1.
Definition wrap_int (z : Z) : Z :=
  ((z + 2 ^ (int_bits - 1)) mod 2 ^ int_bits - 2 ^ (int_bits - 1))%Z.
Definition incr (ix : Z) : Z := wrap_int (ix + 1).

(** ** Byte streams, files and the source adapters (stream.go) *)

(** The dynamic values behind an [io.Reader] handed to [ReadStream]:
    nil, or a caller's value whose type has a Close method or not. *)
Inductive io_Reader : Type :=
| nilReader
| UserReader (id : nat) (has_Close : bool).

(** The values of type [io.ReadCloser] the package produces. *)
Inductive io_ReadCloser : Type :=
| nilReadCloser
| Same (r : io_Reader)               (* r itself, seen at type io.ReadCloser *)
| NopCloser (r : io_Reader)          (* io.NopCloser(r) *)
| File (fd : nat) (name : string)    (* the *os.File returned by os.Open *)
| Gzip (under : io_ReadCloser).      (* the *gzip.Reader of gzip.NewReader(under) *)

(** The operating system as the package sees it: which paths can be
    opened and with what bytes, and which descriptors are open. *)
Record world : Type := mkWorld {
  files : string -> option string;
  open_fds : list nat;
  next_fd : nat
}.

(** [os.Open] *)
Definition os_Open (name : string) (w : world) : (io_ReadCloser * option error) * world :=
  match files w name with
  | None => ((nilReadCloser, Some (ErrOther "open")), w)
  | Some _ =>
      ((File (next_fd w) name, None),
       mkWorld (files w) (next_fd w :: open_fds w) (S (next_fd w)))
  end.

Fixpoint remove_fd (fd : nat) (l : list nat) : list nat :=
  match l with
  | [] => []
  | x :: rest => if Nat.eqb x fd then remove_fd fd rest else x :: remove_fd fd rest
  end.

(** [Close()] on each kind of stream: closing a file releases its
    descriptor; [gzip.Reader.Close] leaves the underlying reader open;
    NopCloser does nothing; a caller's Close is the caller's business. *)
Definition Close (rc : io_ReadCloser) (w : world) : world :=
  match rc with
  | File fd _ => mkWorld (files w) (remove_fd fd (open_fds w)) (next_fd w)
  | _ => w
  end.

(** [os.IsPathSeparator] on a Unix target. *)
Definition IsPathSeparator (c : ascii) : bool := Ascii.eqb c "/".

(** The loop of [filepath.Ext], walking the path from its last byte:
    [acc] holds the bytes already passed. *)
Fixpoint ext_scan (rpath : list ascii) (acc : list ascii) : list ascii :=
  match rpath with
  | [] => []
  | c :: rest =>
      if IsPathSeparator c then []
      else if Ascii.eqb c "." then c :: acc
      else ext_scan rest (c :: acc)
  end.

(** [filepath.Ext]: the suffix starting at the last dot of the last path
    element, empty when there is none. *)
Definition filepath_Ext (path : string) : string :=
  string_of_list_ascii (ext_scan (rev (list_ascii_of_string path)) []).

Definition lower_byte (c : ascii) : ascii :=
  let n := nat_of_ascii c in
  if (65 <=? n)%nat && (n <=? 90)%nat then ascii_of_nat (n + 32) else c.

(** [strings.ToLower] on ASCII; other bytes are kept (Go maps non-ASCII
    letters as well, none of them to '.', 'g' or 'z'). *)
Fixpoint ToLower (s : string) : string :=
  match s with
  | EmptyString => EmptyString
  | String c rest => String (lower_byte c) (ToLower rest)
  end.

(** [type Stream interface { Open() (io.ReadCloser, error) }] *)
Class Stream (S : Type) : Type :=
  Open : S -> world -> (io_ReadCloser * option error) * world.

(** [type FileStream string] *)
Inductive FileStream : Type := mkFileStream (path : string).

(** [type readerAdapter struct { io.Reader }] *)
Inductive readerAdapter : Type := mkReaderAdapter (r : io_Reader).

(** [func ReadStream(r io.Reader) Stream] *)
Definition ReadStream (r : io_Reader) : readerAdapter := mkReaderAdapter r.

(** [func (ra readerAdapter) Open()] : the type assertion
    [ra.Reader.(io.ReadCloser)] holds exactly for a non-nil value whose
    type has Close. *)
Definition readerAdapter_Open (ra : readerAdapter) (w : world)
  : (io_ReadCloser * option error) * world :=
  let 'mkReaderAdapter r := ra in
  match r with
  | UserReader _ true => ((Same r, None), w)
  | _ => ((NopCloser r, None), w)
  end.

#[global] Instance readerAdapter_Stream : Stream readerAdapter := readerAdapter_Open.

Section Externals.
(** Whether [gzip.NewReader] accepts the header found in these bytes. *)
Variable gzip_header_ok : string -> bool.

(** [gzip.NewReader(r)] on a freshly opened file. *)
Definition gzip_NewReader (r : io_ReadCloser) (w : world) : io_ReadCloser * option error :=
  match r with
  | File _ name =>
      match files w name with
      | Some bytes =>
          if gzip_header_ok bytes then (Gzip r, None)
          else (nilReadCloser, Some (ErrOther "gzip: invalid header"))
      | None => (nilReadCloser, Some (ErrOther "read"))
      end
  | _ => (nilReadCloser, Some (ErrOther "read"))
  end.

(** [func (fs FileStream) Open()] *)
Definition FileStream_Open (fs : FileStream) (w : world)
  : (io_ReadCloser * option error) * world :=
  let 'mkFileStream path := fs in
  let ext := ToLower (filepath_Ext path) in
  match os_Open path w with
  | ((_, Some e), w1) => ((nilReadCloser, Some (ErrCouldOpenFile path e)), w1)
  | ((r, None), w1) =>
      if String.eqb ext ".gz"
      then
        match gzip_NewReader r w1 with
        | (_, Some e) => ((nilReadCloser, Some (ErrGzipFailed path e)), Close r w1)
        | (gz, None) => ((gz, None), w1)
        end
      else ((r, None), w1)
  end.

#[global] Instance FileStream_Stream : Stream FileStream := FileStream_Open.
End Externals.

(** ** The tokenizer (encoding/csv.Reader) *)

Definition row : Type := list string.

(** A record handed to a worker is a slice: either it owns its backing
    array, or (ReuseRecord) it aliases the reader's [lastRecord]. *)
Inductive row_ref : Type :=
| Owned (r : row)
| Shared.

(** [input] is what the successive calls of [Read] will return before
    end of stream: a record and an error, as in Go. *)
Record csv_Reader : Type := mkReader {
  input : list (row * option error);
  ReuseRecord : bool;
  lastRecord : row
}.

(** [csv.Reader.Read]: at end of stream it returns (nil, io.EOF); with
    ReuseRecord the returned slice is [lastRecord], overwritten in place. *)
Definition Read (rd : csv_Reader) : (row_ref * option error) * csv_Reader :=
  match input rd with
  | [] => ((Owned [], Some EOF), rd)
  | (r, e) :: rest =>
      if ReuseRecord rd
      then ((Shared, e), mkReader rest true r)
      else ((Owned r, e), mkReader rest false (lastRecord rd))
  end.

(** The fields a slice shows when read, given the tokenizer's buffer. *)
Definition deref (ref : row_ref) (rd : csv_Reader) : row :=
  match ref with
  | Owned r => r
  | Shared => lastRecord rd
  end.

Definition set_ReuseRecord (b : bool) (rd : csv_Reader) : csv_Reader :=
  mkReader (input rd) b (lastRecord rd).

(** ** The parser and its observable events *)

(** [Parser[T]].  [None] is a nil func.  [OnError] returns nothing, so
    only its presence is kept: its calls are recorded in the trace.
    [Reader] is the tokenizer as it stands when Run is called; while Run
    executes, the tokenizer lives in [state]. *)
Record Parser (T : Type) : Type := mkParser {
  closer : io_ReadCloser;
  Reader : csv_Reader;
  OnRow : option (row -> option error);
  Parse : option (row -> T * option error);
  OnData : option (T -> option error);
  OnError : bool
}.

Section Construction.
Context {T : Type}.
(** The records encoding/csv will find in a stream. *)
Variable tokenize : io_ReadCloser -> list (row * option error).

(** [csv.NewReader(r)] *)
Definition csv_NewReader (r : io_ReadCloser) : csv_Reader :=
  mkReader (tokenize r) false [].

(** [func New[T any](stream Stream)], returning the parser and an error *)
Definition New {S : Type} `{Stream S} (stream : S) (w : world)
  : (option (Parser T) * option error) * world :=
  match Open stream w with
  | ((_, Some e), w') => ((None, Some (ErrCouldNotOpenStream e)), w')
  | ((r, None), w') =>
      ((Some (mkParser r (csv_NewReader r) None None None false), None), w')
  end.
End Construction.

Inductive event (T : Type) : Type :=
| Acquire (ix : Z)                                  (* sem <- struct{}{} taken by the select *)
| ReadCall (ix : Z) (r : row) (e : option error)    (* p.Reader.Read() returned (r, e) *)
| Spawn (ix : Z)                                    (* go p.processRow(wg, sem, ix, row) *)
| CallOnRow (ix : Z) (seen : row)                   (* p.OnRow(row), with the fields it saw *)
| CallParse (ix : Z) (seen : row)                   (* p.Parse(row) *)
| CallOnData (ix : Z) (data : T)                    (* p.OnData(data) *)
| CallOnError (e : error)                           (* p.OnError(e) *)
| Release (ix : Z)                                  (* a worker's deferred <-sem *)
| CloseCall (c : io_ReadCloser).                    (* p.closer.Close() *)

Arguments Acquire {T}.
Arguments ReadCall {T}.
Arguments Spawn {T}.
Arguments CallOnRow {T}.
Arguments CallParse {T}.
Arguments CallOnError {T}.
Arguments Release {T}.
Arguments CloseCall {T}.

(** Where a worker goroutine stands inside [processRow]. *)
Inductive stage (T : Type) : Type :=
| AtOnRow                 (* entry: the OnRow hook *)
| AtParse                 (* the [p.Parse == nil] test and the Parse call *)
| AtOnData (data : T)     (* the [p.OnData == nil] test and the OnData call *)
| AtDefer                 (* body left; deferred [<-sem] pending *)
| AtWgDone.               (* slot released; deferred [wg.Done()] pending *)

Arguments AtOnRow {T}.
Arguments AtParse {T}.
Arguments AtDefer {T}.
Arguments AtWgDone {T}.

Record goroutine (T : Type) : Type := mkGo {
  g_ix : Z;
  g_row : row_ref;
  g_at : stage T
}.

(** Program counter of the goroutine executing [Run]. *)
Inductive main_pc : Type :=
| AtEntry                       (* Run called, nothing executed yet *)
| AtSelect                      (* loop condition passed, at the select *)
| AtRead                        (* slot acquired, about to call Read *)
| AtWait                        (* loop left, at wg.Wait() *)
| Returned (e : option error).  (* deferred Close done, Run returned e *)

Record state (T : Type) : Type := mkState {
  pc : main_pc;
  ixRow : Z;
  reader : csv_Reader;
  sem : nat;                    (* elements buffered in the channel *)
  wg : nat;                     (* WaitGroup counter *)
  pool : list (goroutine T);    (* live processRow goroutines *)
  ctx_done : bool;              (* ctx.Done() is closed *)
  closes : nat;                 (* calls of p.closer.Close() so far *)
  trace : list (event T)        (* oldest first *)
}.

(** What the runtime decides. *)
Inductive action : Type :=
| AMain (take_done : bool)   (* Run advances; at the select, [true] takes <-ctx.Done() *)
| AWorker (i : nat)          (* the i-th live processRow goroutine advances *)
| ACancel.                   (* the context is cancelled (caller or a callback) *)

Section Model.
Context {T : Type}.
Variable p : Parser T.
Variable workers : Z.

(** [if p.OnError != nil { p.OnError(e) }] *)
Definition report (e : error) : list (event T) :=
  if OnError p then [CallOnError e] else [].

(** The body of [processRow] on a row whose fields read as [r]: the
    calls it makes, in order. *)
Definition processRow (ix : Z) (r : row) : list (event T) :=
  let hook :=
    match OnRow p with
    | Some f => ([CallOnRow ix r], f r)
    | None => ([], None)
    end in
  match hook with
  | (evs, Some e) => evs ++ report (ErrLine ErrOnRow ix e)
  | (evs, None) =>
      match Parse p with
      | None => evs
      | Some parse =>
          match parse r with
          | (_, Some e) => evs ++ CallParse ix r :: report (ErrLine ErrParse ix e)
          | (data, None) =>
              match OnData p with
              | None => evs ++ [CallParse ix r]
              | Some handle =>
                  evs ++ CallParse ix r :: CallOnData ix data ::
                  match handle data with
                  | Some e => report (ErrLine ErrOnData ix e)
                  | None => []
                  end
              end
          end
      end
  end.

(** The same body cut at its callback calls, so that other goroutines
    can be interleaved: one call of [advance] runs one stage. *)
Definition advance (ix : Z) (seen : row) (s : stage T) : list (event T) * stage T :=
  match s with
  | AtOnRow =>
      match OnRow p with
      | None => ([], AtParse)
      | Some f =>
          match f seen with
          | Some e => (CallOnRow ix seen :: report (ErrLine ErrOnRow ix e), AtDefer)
          | None => ([CallOnRow ix seen], AtParse)
          end
      end
  | AtParse =>
      match Parse p with
      | None => ([], AtDefer)
      | Some parse =>
          match parse seen with
          | (_, Some e) => (CallParse ix seen :: report (ErrLine ErrParse ix e), AtDefer)
          | (data, None) => ([CallParse ix seen], AtOnData data)
          end
      end
  | AtOnData data =>
      match OnData p with
      | None => ([], AtDefer)
      | Some handle =>
          match handle data with
          | Some e => (CallOnData ix data :: report (ErrLine ErrOnData ix e), AtDefer)
          | None => ([CallOnData ix data], AtDefer)
          end
      end
  | AtDefer => ([], AtDefer)
  | AtWgDone => ([], AtWgDone)
  end.

(** The fields a goroutine sees when it reads its row now. *)
Definition view (st : state T) (g : goroutine T) : row :=
  deref (g_row g) (reader st).

(** [p.OnData != nil && p.Parse == nil] *)
Definition OnData_without_Parse : bool :=
  match OnData p, Parse p with
  | Some _, None => true
  | _, _ => false
  end.

(** [return e], running the deferred [p.closer.Close()]. *)
Definition do_return (st : state T) (e : option error) : state T :=
  mkState (Returned e) (ixRow st) (reader st) (sem st) (wg st) (pool st)
          (ctx_done st) (S (closes st)) (trace st ++ [CloseCall (closer p)]).

(** [ixRow++] followed by the loop condition [ixRow > 0]. *)
Definition loop_head (ix : Z) : main_pc :=
  if (0 <? ix)%Z then AtSelect else AtWait.

Definition step_main (take_done : bool) (st : state T) : option (state T) :=
  match pc st with
  | AtEntry =>
      if OnData_without_Parse then Some (do_return st (Some ErrOnDataWithoutParse))
      else if (workers <? 1)%Z then Some (do_return st (Some (ErrInvalidWorkers workers)))
      else Some (mkState (loop_head 1) 1 (set_ReuseRecord (workers =? 1)%Z (reader st))
                         0 0 [] (ctx_done st) (closes st) (trace st))
  | AtSelect =>
      if take_done
      then (* case <-ctx.Done(): break LoopOverRows *)
        if ctx_done st
        then Some (mkState AtWait (ixRow st) (reader st) (sem st) (wg st) (pool st)
                           (ctx_done st) (closes st) (trace st))
        else None
      else (* case sem <- struct{}{}: *)
        if (Z.of_nat (sem st) <? workers)%Z
        then Some (mkState AtRead (ixRow st) (reader st) (S (sem st)) (wg st) (pool st)
                           (ctx_done st) (closes st) (trace st ++ [Acquire (ixRow st)]))
        else None
  | AtRead =>
      let '((ref, e), rd) := Read (reader st) in
      let tr := trace st ++ [ReadCall (ixRow st) (deref ref rd) e] in
      match e with
      | Some err =>
          if errors_Is_EOF err
          then (* break LoopOverRows *)
            Some (mkState AtWait (ixRow st) rd (sem st) (wg st) (pool st)
                          (ctx_done st) (closes st) tr)
          else (* OnError, <-sem, continue LoopOverRows *)
            match sem st with
            | O => None
            | S n =>
                Some (mkState (loop_head (incr (ixRow st))) (incr (ixRow st)) rd n (wg st)
                              (pool st) (ctx_done st) (closes st)
                              (tr ++ report (ErrReadLine (ixRow st) err)))
            end
      | None => (* wg.Add(1); go p.processRow(wg, sem, ixRow, row) *)
          Some (mkState (loop_head (incr (ixRow st))) (incr (ixRow st)) rd (sem st)
                        (S (wg st)) (pool st ++ [mkGo (ixRow st) ref AtOnRow])
                        (ctx_done st) (closes st) (tr ++ [Spawn (ixRow st)]))
      end
  | AtWait =>
      match wg st with
      | O => Some (do_return st None)
      | S _ => None
      end
  | Returned _ => None
  end.

Definition step_worker (i : nat) (st : state T) : option (state T) :=
  match pool st !! i with
  | None => None
  | Some g =>
      match g_at g with
      | AtDefer => (* <-sem *)
          match sem st with
          | O => None
          | S n =>
              Some (mkState (pc st) (ixRow st) (reader st) n (wg st)
                            (<[i := mkGo (g_ix g) (g_row g) AtWgDone]> (pool st))
                            (ctx_done st) (closes st) (trace st ++ [Release (g_ix g)]))
          end
      | AtWgDone => (* wg.Done(); the goroutine ends *)
          match wg st with
          | O => None
          | S n =>
              Some (mkState (pc st) (ixRow st) (reader st) (sem st) n
                            (delete i (pool st))
                            (ctx_done st) (closes st) (trace st))
          end
      | s =>
          let '(evs, s') := advance (g_ix g) (view st g) s in
          Some (mkState (pc st) (ixRow st) (reader st) (sem st) (wg st)
                        (<[i := mkGo (g_ix g) (g_row g) s']> (pool st))
                        (ctx_done st) (closes st) (trace st ++ evs))
      end
  end.

Definition step_cancel (st : state T) : option (state T) :=
  if ctx_done st then None
  else Some (mkState (pc st) (ixRow st) (reader st) (sem st) (wg st) (pool st)
                     true (closes st) (trace st)).

Definition step (a : action) (st : state T) : option (state T) :=
  match a with
  | AMain take_done => step_main take_done st
  | AWorker i => step_worker i st
  | ACancel => step_cancel st
  end.

(** Run a schedule; [None] when it asks for a step that is blocked. *)
Fixpoint exec (acts : list action) (st : state T) : option (state T) :=
  match acts with
  | [] => Some st
  | a :: rest =>
      match step a st with
      | Some st' => exec rest st'
      | None => None
      end
  end.

(** The moment [p.Run(ctx, workers)] is called; [cancelled] tells
    whether ctx is already done. *)
Definition init (cancelled : bool) : state T :=
  mkState AtEntry 0 (Reader p) 0 0 [] cancelled 0 [].

Definition reachable (cancelled : bool) (st : state T) : Prop :=
  exists acts, exec acts (init cancelled) = Some st.

(** The transitions of [step], one constructor per path through the
    code, whoever schedules them (see [step_Step] and [Step_step]). *)
Inductive Step (st : state T) : state T -> Prop :=
| Step_config_error (e : error) :
    pc st = AtEntry ->
    (OnData_without_Parse = true /\ e = ErrOnDataWithoutParse) \/
    (OnData_without_Parse = false /\ (workers < 1)%Z /\ e = ErrInvalidWorkers workers) ->
    Step st (do_return st (Some e))
| Step_enter :
    pc st = AtEntry -> OnData_without_Parse = false -> (1 <= workers)%Z ->
    Step st (mkState (loop_head 1) 1 (set_ReuseRecord (workers =? 1)%Z (reader st))
                     0 0 [] (ctx_done st) (closes st) (trace st))
| Step_done :
    pc st = AtSelect -> ctx_done st = true ->
    Step st (mkState AtWait (ixRow st) (reader st) (sem st) (wg st) (pool st)
                     (ctx_done st) (closes st) (trace st))
| Step_acquire :
    pc st = AtSelect -> (Z.of_nat (sem st) < workers)%Z ->
    Step st (mkState AtRead (ixRow st) (reader st) (S (sem st)) (wg st) (pool st)
                     (ctx_done st) (closes st) (trace st ++ [Acquire (ixRow st)]))
| Step_read_eof (ref : row_ref) (e : error) (rd : csv_Reader) :
    pc st = AtRead -> Read (reader st) = ((ref, Some e), rd) -> errors_Is_EOF e = true ->
    Step st (mkState AtWait (ixRow st) rd (sem st) (wg st) (pool st)
                     (ctx_done st) (closes st)
                     (trace st ++ [ReadCall (ixRow st) (deref ref rd) (Some e)]))
| Step_read_error (ref : row_ref) (e : error) (rd : csv_Reader) (n : nat) :
    pc st = AtRead -> Read (reader st) = ((ref, Some e), rd) -> errors_Is_EOF e = false ->
    sem st = S n ->
    Step st (mkState (loop_head (incr (ixRow st))) (incr (ixRow st)) rd n (wg st)
                     (pool st) (ctx_done st) (closes st)
                     ((trace st ++ [ReadCall (ixRow st) (deref ref rd) (Some e)])
                      ++ report (ErrReadLine (ixRow st) e)))
| Step_read_row (ref : row_ref) (rd : csv_Reader) :
    pc st = AtRead -> Read (reader st) = ((ref, None), rd) ->
    Step st (mkState (loop_head (incr (ixRow st))) (incr (ixRow st)) rd (sem st)
                     (S (wg st)) (pool st ++ [mkGo (ixRow st) ref AtOnRow])
                     (ctx_done st) (closes st)
                     ((trace st ++ [ReadCall (ixRow st) (deref ref rd) None])
                      ++ [Spawn (ixRow st)]))
| Step_wait :
    pc st = AtWait -> wg st = 0 ->
    Step st (do_return st None)
| Step_stage (i : nat) (g : goroutine T) (evs : list (event T)) (s' : stage T) :
    pool st !! i = Some g -> g_at g <> AtDefer -> g_at g <> AtWgDone ->
    advance (g_ix g) (view st g) (g_at g) = (evs, s') ->
    Step st (mkState (pc st) (ixRow st) (reader st) (sem st) (wg st)
                     (<[i := mkGo (g_ix g) (g_row g) s']> (pool st))
                     (ctx_done st) (closes st) (trace st ++ evs))
| Step_release (i : nat) (g : goroutine T) (n : nat) :
    pool st !! i = Some g -> g_at g = AtDefer -> sem st = S n ->
    Step st (mkState (pc st) (ixRow st) (reader st) n (wg st)
                     (<[i := mkGo (g_ix g) (g_row g) AtWgDone]> (pool st))
                     (ctx_done st) (closes st) (trace st ++ [Release (g_ix g)]))
| Step_exit (i : nat) (g : goroutine T) (n : nat) :
    pool st !! i = Some g -> g_at g = AtWgDone -> wg st = S n ->
    Step st (mkState (pc st) (ixRow st) (reader st) (sem st) n
                     (delete i (pool st))
                     (ctx_done st) (closes st) (trace st))
| Step_cancel :
    ctx_done st = false ->
    Step st (mkState (pc st) (ixRow st) (reader st) (sem st) (wg st) (pool st)
                     true (closes st) (trace st)).

(** ** Observations on states and traces *)

(** Both preconditions checked at the top of [Run] hold. *)
Definition preconditions : bool :=
  negb OnData_without_Parse && (1 <=? workers)%Z.

Definition has_returned (st : state T) : bool :=
  match pc st with
  | Returned _ => true
  | _ => false
  end.

(** A processRow goroutine that has not yet run its deferred [<-sem]:
    its row is inside worker processing and it occupies a slot. *)
Definition holding (g : goroutine T) : bool :=
  match g_at g with
  | AtWgDone => false
  | _ => true
  end.

Fixpoint total {A : Type} (f : A -> nat) (l : list A) : nat :=
  match l with
  | [] => 0
  | x :: rest => f x + total f rest
  end.

Definition in_flight (l : list (goroutine T)) : nat :=
  total (fun g => if holding g then 1 else 0) l.

Fixpoint count (f : event T -> bool) (tr : list (event T)) : nat :=
  match tr with
  | [] => 0
  | e :: rest => (if f e then 1 else 0) + count f rest
  end.

Definition is_Spawn (e : event T) : bool :=
  match e with Spawn _ => true | _ => false end.
Definition is_Release (e : event T) : bool :=
  match e with Release _ => true | _ => false end.
Definition is_Acquire (e : event T) : bool :=
  match e with Acquire _ => true | _ => false end.
Definition is_ReadCall (e : event T) : bool :=
  match e with ReadCall _ _ _ => true | _ => false end.
Definition is_CloseCall (e : event T) : bool :=
  match e with CloseCall _ => true | _ => false end.

(** The errors handed to [OnError], in order. *)
Fixpoint reports (tr : list (event T)) : list error :=
  match tr with
  | [] => []
  | CallOnError e :: rest => e :: reports rest
  | _ :: rest => reports rest
  end.

(** [errors.Is(err, io.EOF)] on a possibly nil error. *)
Definition at_eof (e : option error) : bool :=
  match e with
  | Some err => errors_Is_EOF err
  | None => false
  end.

(** A read that met the end of the stream: the loop is left by [break]
    with the slot taken for that read still in the channel. *)
Definition is_eof_read (e : event T) : bool :=
  match e with
  | ReadCall _ _ err => at_eof err
  | _ => false
  end.

(** The tokenizer reads that met a row (a record or a read error, not
    the end of the stream), each with the ordinal [ixRow] it ran under. *)
Fixpoint row_reads (tr : list (event T)) : list (Z * (row * option error)) :=
  match tr with
  | [] => []
  | ReadCall ix r e :: rest =>
      if at_eof e then row_reads rest else (ix, (r, e)) :: row_reads rest
  | _ :: rest => row_reads rest
  end.

(** A stream of rows: none of its reads reports the end of the stream
    (that is left to the read after the last row). *)
Definition rows_only (l : list (row * option error)) : Prop :=
  Forall (fun item => at_eof (snd item) = false) l.

(** The ordinals 1, 2, ..., n. *)
Definition ordinals (n : nat) : list Z := map Z.of_nat (seq 1 n).

(** A worker run on its own, its row reading as [r] throughout: the
    stages of [advance] one after the other. *)
Fixpoint run_stages (fuel : nat) (ix : Z) (r : row) (s : stage T) : list (event T) :=
  match fuel with
  | O => []
  | S fuel' =>
      match s with
      | AtDefer | AtWgDone => []
      | _ => let '(evs, s') := advance ix r s in evs ++ run_stages fuel' ix r s'
      end
  end.

(** A variant for termination: every step of every goroutine, and the
    cancellation, makes it smaller. *)
Definition stage_weight (s : stage T) : nat :=
  match s with
  | AtOnRow => 5
  | AtParse => 4
  | AtOnData _ => 3
  | AtDefer => 2
  | AtWgDone => 1
  end.

Definition main_weight (st : state T) : nat :=
  match pc st with
  | AtEntry => 7 * length (input (reader st)) + 5
  | AtSelect => 7 * length (input (reader st)) + 4
  | AtRead => 7 * length (input (reader st)) + 3
  | AtWait => 1
  | Returned _ => 0
  end.

Definition measure (st : state T) : nat :=
  main_weight st + total (fun g => stage_weight (g_at g)) (pool st)
  + (if ctx_done st then 0 else 1).

(** ** The worker pipeline in the words of the specification (4.4) *)

(** The result of the pre-parse hook, nil when there is none. *)
Definition hook_result (r : row) : option error :=
  match OnRow p with
  | Some f => f r
  | None => None
  end.

(** The first step that fails, with the tag its error is reported
    under: steps 1, 3 and 5 of the specification, each reached only when
    the steps before it did not fail or stop. *)
Definition first_failure (r : row) : option (error * error) :=
  match hook_result r with
  | Some e => Some (ErrOnRow, e)
  | None =>
      match Parse p with
      | None => None
      | Some parse =>
          match parse r with
          | (_, Some e) => Some (ErrParse, e)
          | (data, None) =>
              match OnData p with
              | None => None
              | Some handle =>
                  match handle data with
                  | Some e => Some (ErrOnData, e)
                  | None => None
                  end
              end
          end
      end
  end.

(** ** Invariants of the transitions *)

(** The channel holds one element per goroutine that has not released
    its slot, plus the one the reader took before [Read]; after the loop
    the slot taken for the read that met EOF stays in the channel. *)
Definition slots_inv (st : state T) : Prop :=
  wg st = length (pool st) /\
  match pc st with
  | AtEntry => pool st = [] /\ sem st = 0
  | AtSelect =>
      preconditions = true /\
      sem st = in_flight (pool st) /\ (Z.of_nat (sem st) <= workers)%Z
  | AtRead =>
      preconditions = true /\
      sem st = S (in_flight (pool st)) /\ (Z.of_nat (sem st) <= workers)%Z
  | AtWait =>
      preconditions = true /\
      in_flight (pool st) <= sem st /\ (Z.of_nat (sem st) <= workers)%Z
  | Returned None =>
      preconditions = true /\
      pool st = [] /\ (Z.of_nat (sem st) <= workers)%Z
  | Returned (Some _) =>
      preconditions = false /\ pool st = [] /\ sem st = 0
  end.

(** The calls of the four callbacks: all a worker's body ever does. *)
Definition is_callback (e : event T) : bool :=
  match e with
  | CallOnRow _ _ | CallParse _ _ | CallOnData _ _ | CallOnError _ => true
  | _ => false
  end.

(** The events that account for slots, reads and the stream. *)
Definition bookkeeping (f : event T -> bool) : Prop :=
  forall ev, is_callback ev = true -> f ev = false.

(** Slots in the trace: a slot is acquired before every read, a row is
    dispatched only after a read, and every dispatched row either still
    holds its slot or has released it. *)
Definition accounting_inv (st : state T) : Prop :=
  count is_Acquire (trace st)
  = count is_ReadCall (trace st) + (match pc st with AtRead => 1 | _ => 0 end) /\
  count is_Spawn (trace st) <= count is_ReadCall (trace st) /\
  count is_Spawn (trace st) = count is_Release (trace st) + in_flight (pool st).

(** The channel, exactly: one element per row inside worker
    processing, one more while the reader stands between its acquisition
    and the outcome of its read, and the one left behind by a read that met
    the end of the stream. *)
Definition tally_inv (st : state T) : Prop :=
  sem st = in_flight (pool st) + (match pc st with AtRead => 1 | _ => 0 end)
           + count is_eof_read (trace st).

(** The slot for ordinal [ix] is taken before row [ix] is dispatched: in
    the trace, [Acquire ix] stands before [Spawn ix]. *)
Definition acquired_before (tr : list (event T)) (ix : Z) : Prop :=
  exists t1 t2, tr = t1 ++ Spawn ix :: t2 /\ In (Acquire ix) t1.

Definition acquire_inv (st : state T) : Prop :=
  (pc st = AtRead -> In (Acquire (ixRow st)) (trace st)) /\
  (forall ix, In (Spawn ix) (trace st) -> acquired_before (trace st) ix).

(** Before the preconditions pass nothing has happened; after they
    fail, nothing but the deferred Close.  Close is called on
    [p.closer], once, at the return. *)
Definition return_inv (st : state T) : Prop :=
  closes st = (if has_returned st then 1 else 0) /\
  count is_CloseCall (trace st) = closes st /\
  Forall (fun ev => is_CloseCall ev = true -> ev = CloseCall (closer p)) (trace st) /\
  match pc st with
  | AtEntry => trace st = [] /\ reader st = Reader p
  | Returned (Some e) =>
      trace st = [CloseCall (closer p)] /\ reader st = Reader p /\
      (e = ErrOnDataWithoutParse \/ e = ErrInvalidWorkers workers)
  | _ => True
  end.

(** Once the preconditions have passed, ReuseRecord is [workers == 1],
    and a goroutine holds an alias of the tokenizer's buffer only then. *)
Definition reuse_inv (st : state T) : Prop :=
  match pc st with
  | AtEntry | Returned (Some _) => True
  | _ => ReuseRecord (reader st) = (workers =? 1)%Z
  end /\
  Forall (fun g => g_row g = Shared -> workers = 1%Z) (pool st).

(** Goroutine [g] still at work finds in its row the record that the
    trace [tr] shows the tokenizer returned for its ordinal. *)
Definition sees (rd : csv_Reader) (tr : list (event T)) (g : goroutine T) : Prop :=
  holding g = true -> In (ReadCall (g_ix g) (deref (g_row g) rd) None) tr.

(** Every callback was handed the record read for its ordinal. *)
Definition calls_ok (tr : list (event T)) : Prop :=
  forall ix seen,
    In (CallOnRow ix seen) tr \/ In (CallParse ix seen) tr ->
    In (ReadCall ix seen None) tr.

Definition view_inv (st : state T) : Prop :=
  Forall (sees (reader st) (trace st)) (pool st) /\ calls_ok (trace st).

(** The reads that met a row are the first rows of the input, in order,
    numbered 1, 2, ...; the loop is left only on cancellation, at the end
    of the stream, or when [ixRow] overflows. *)
Definition order_inv (st : state T) : Prop :=
  map snd (row_reads (trace st)) ++ input (reader st) = input (Reader p) /\
  map fst (row_reads (trace st)) = ordinals (length (row_reads (trace st))) /\
  match pc st with
  | AtEntry => row_reads (trace st) = []
  | AtSelect | AtRead =>
      ixRow st = Z.of_nat (S (length (row_reads (trace st)))) /\
      (ixRow st <= max_int)%Z
  | AtWait | Returned None =>
      ctx_done st = true \/ input (reader st) = [] \/
      Z.of_nat (length (row_reads (trace st))) = max_int
  | Returned (Some _) => True
  end.

Definition all_inv (st : state T) : Prop :=
  slots_inv st /\ accounting_inv st /\ return_inv st /\ reuse_inv st /\ view_inv st.

End Model.

(** ** Notions for the statements on stream.go *)

(** The type assertion [r.(io.ReadCloser)] succeeds. *)
Definition supports_Close (r : io_Reader) : bool :=
  match r with
  | nilReader => false
  | UserReader _ b => b
  end.

(** The path ends in ".gz", whatever the case of its letters. *)
Definition ends_in_gz (path : string) : Prop :=
  exists (pre : string) (g z : ascii),
    path = (pre ++ String "." (String g (String z EmptyString)))%string /\
    (g = "g"%char \/ g = "G"%char) /\ (z = "z"%char \/ z = "Z"%char).

(** * Scenarios *)

(** The input of the package's timing test, "1,one\n2,two\n3,three",
    as the tokenizer delivers it. *)
Definition three_rows : list (row * option error) :=
  [ (["1"; "one"], None); (["2"; "two"], None); (["3"; "three"], None) ]%string.

(** A parse function in the manner of the test's ParseNumber: the first
    two columns, or an error when there are fewer. *)
Definition ParseNumber (r : row) : (string * string) * option error :=
  match r with
  | a :: b :: _ => ((a, b), None)
  | _ => ((EmptyString, EmptyString), Some (ErrOther "need 2 columns at least"))
  end.

(** The parser of the timing test: Parse, OnData and OnError set. *)
Definition number_parser (rows : list (row * option error)) : Parser (string * string) :=
  mkParser (NopCloser (UserReader 0 false)) (mkReader rows false [])
           None (Some ParseNumber) (Some (fun _ => None)) true.

(** One worker running its row from dispatch to exit: Parse, OnData,
    the deferred [<-sem] and [wg.Done()]; OnRow is nil. *)
Definition whole_worker (i : nat) : list action :=
  [AWorker i; AWorker i; AWorker i; AWorker i; AWorker i].

(** Acquire a slot, read, and let the row's worker run to its end. *)
Definition one_row : list action :=
  [AMain false; AMain false] ++ whole_worker 0.

(** Scenario A run to completion with one worker. *)
Definition scenario_A : list action :=
  [AMain false] ++ one_row ++ one_row ++ one_row ++ [AMain false; AMain false; AMain false].

Definition state_or_init {T : Type} (p : Parser T) (o : option (state T)) : state T :=
  match o with
  | Some st => st
  | None => init p false
  end.

Definition scenario_A_final : state (string * string) :=
  Eval vm_compute in
    state_or_init (number_parser three_rows)
                  (exec (number_parser three_rows) 1 scenario_A
                        (init (number_parser three_rows) false)).

(** Scenario A stopped while the worker of row 1 is between Parse and
    OnData and the reader waits at the select for the only slot. *)
Definition scenario_A_midway : list action :=
  [AMain false; AMain false; AMain false; AWorker 0; AWorker 0].

Definition scenario_A_middle : state (string * string) :=
  Eval vm_compute in
    state_or_init (number_parser three_rows)
                  (exec (number_parser three_rows) 1 scenario_A_midway
                        (init (number_parser three_rows) false)).

(** Scenario E on a one-row input: the context is done before Run is
    called, the select takes the send on [sem] all the same. *)
Definition scenario_E : list action :=
  [AMain false; AMain false; AMain false; AMain true] ++ whole_worker 0 ++ [AMain false].

(** A parser whose pre-parse hook fails and whose OnError is nil. *)
Definition silent_parser : Parser unit :=
  mkParser nilReadCloser (mkReader [] false [])
           (Some (fun _ => Some (ErrOther "bad row"))) None None false.

(** A file system holding one file that is not gzip data, and a header
    test that asks for the two magic bytes. *)
Definition gzip_magic (bytes : string) : bool :=
  match bytes with
  | String a (String b _) => Ascii.eqb a "031" && Ascii.eqb b "139"
  | _ => false
  end.

Definition one_file_world : world :=
  mkWorld (fun name => if String.eqb name "rows.csv.GZ" then Some "1,one"%string else None)
          [] 3.

(** * Rows in the trace *)

Section Rows.
Context {T : Type}.

(** The row a worker's event belongs to: the callbacks carry the ordinal
    they were called under, a worker's report carries it inside
    ["%w: line %d: %w"]; the reader's own reports (["could not read line
    #%d"]) belong to no worker. *)
Definition about (ix : Z) (e : event T) : bool :=
  match e with
  | CallOnRow i _ | CallParse i _ | CallOnData i _ => Z.eqb i ix
  | CallOnError (ErrLine _ i _) => Z.eqb i ix
  | _ => false
  end.

Fixpoint events_about (ix : Z) (tr : list (event T)) : list (event T) :=
  match tr with
  | [] => []
  | e :: rest => if about ix e then e :: events_about ix rest else events_about ix rest
  end.

(** The ordinals of all calls of [Read], the one that met the end of the
    stream included. *)
Fixpoint read_ixs (tr : list (event T)) : list Z :=
  match tr with
  | [] => []
  | ReadCall ix _ _ :: rest => ix :: read_ixs rest
  | _ :: rest => read_ixs rest
  end.

(** The reads that returned a record and a nil error. *)
Fixpoint ok_reads (tr : list (event T)) : list (Z * row) :=
  match tr with
  | [] => []
  | ReadCall ix r None :: rest => (ix, r) :: ok_reads rest
  | _ :: rest => ok_reads rest
  end.

(** The reads that returned an error other than the end of the stream. *)
Fixpoint failed_reads (tr : list (event T)) : list (Z * error) :=
  match tr with
  | [] => []
  | ReadCall ix _ (Some e) :: rest =>
      if errors_Is_EOF e then failed_reads rest else (ix, e) :: failed_reads rest
  | _ :: rest => failed_reads rest
  end.

(** The ordinals of the rows handed to a goroutine, in dispatch order. *)
Fixpoint spawned (tr : list (event T)) : list Z :=
  match tr with
  | [] => []
  | Spawn ix :: rest => ix :: spawned rest
  | _ :: rest => spawned rest
  end.

(** The reader's own reports to OnError. *)
Fixpoint read_reports (tr : list (event T)) : list error :=
  match tr with
  | [] => []
  | CallOnError (ErrReadLine ix e) :: rest => ErrReadLine ix e :: read_reports rest
  | _ :: rest => read_reports rest
  end.

(** Events that are about no row at all. *)
Definition rowless (evs : list (event T)) : Prop :=
  (forall ix, events_about ix evs = []) /\ (forall ix r, ~ In (ReadCall ix r None) evs).

Variable p : Parser T.
Variable workers : Z.

(** Every call of [Read] so far ran under the next ordinal, starting at
    1; a read that met the end of the stream is the last one. *)
Definition fresh_inv (st : state T) : Prop :=
  read_ixs (trace st) = ordinals (length (read_ixs (trace st))) /\
  (forall ix r e, In (ReadCall ix r e) (trace st) -> at_eof e = true ->
                  ix = Z.of_nat (length (read_ixs (trace st)))) /\
  match pc st with
  | AtEntry => read_ixs (trace st) = []
  | AtSelect | AtRead =>
      ixRow st = Z.of_nat (S (length (read_ixs (trace st)))) /\
      (ixRow st <= max_int)%Z /\
      (forall ix r e, In (ReadCall ix r e) (trace st) -> at_eof e = false)
  | _ => True
  end.

(** Rows are dispatched exactly when their read succeeds, and the
    reader reports exactly the reads that fail. *)
Definition dispatch_inv (st : state T) : Prop :=
  spawned (trace st) = map fst (ok_reads (trace st)) /\
  read_reports (trace st)
  = (if OnError p
     then map (fun f => ErrReadLine (fst f) (snd f)) (failed_reads (trace st))
     else []).

(** Whatever is handed to OnError is a report of the reader or of a
    worker, and OnError is set. *)
Definition reports_inv (st : state T) : Prop :=
  forall e, In (CallOnError e) (trace st) ->
    OnError p = true /\
    ((exists ix cause r, e = ErrReadLine ix cause /\
                         In (ReadCall ix r (Some cause)) (trace st) /\
                         errors_Is_EOF cause = false) \/
     (exists tag ix cause, e = ErrLine tag ix cause)).

(** The state of goroutine [g] against the body of [processRow]: the
    events about its row so far, followed by what its remaining stages
    will do, are the body run on the record read for its ordinal. *)
Definition on_track (st : state T) (g : goroutine T) : Prop :=
  exists r,
    In (ReadCall (g_ix g) r None) (trace st) /\
    (holding g = true -> view st g = r) /\
    events_about (g_ix g) (trace st) ++ run_stages p 3 (g_ix g) r (g_at g)
    = processRow p (g_ix g) r.

Definition work_inv (st : state T) : Prop :=
  NoDup (map (@g_ix T) (pool st)) /\
  Forall (on_track st) (pool st) /\
  (forall ix r, In (ReadCall ix r None) (trace st) ->
                In ix (map (@g_ix T) (pool st)) \/
                events_about ix (trace st) = processRow p ix r) /\
  (forall ix, (exists r, In (ReadCall ix r None) (trace st)) \/
              events_about ix (trace st) = []).

(** A stream of [n] rows that all read well. *)
Definition good_rows (l : list (row * option error)) : Prop :=
  Forall (fun item => snd item = None) l.

(** The schedule that fills the pool: Run enters, then acquires a slot
    and reads, [n] times, while no worker moves. *)
Fixpoint fill (n : nat) : list action :=
  match n with
  | O => []
  | S n' => fill n' ++ [AMain false; AMain false]
  end.

(** The calls a worker makes for its row: the three callbacks and its
    own report to OnError. *)
Definition row_event (e : event T) : bool :=
  match e with
  | CallOnRow _ _ | CallParse _ _ | CallOnData _ _ => true
  | CallOnError (ErrLine _ _ _) => true
  | _ => false
  end.

Fixpoint row_events (tr : list (event T)) : list (event T) :=
  match tr with
  | [] => []
  | e :: rest => if row_event e then e :: row_events rest else row_events rest
  end.

(** The body of [processRow] on each record read so far, one body after
    the other in read order. *)
Definition bodies (tr : list (event T)) : list (event T) :=
  flat_map (fun f => processRow p (fst f) (snd f)) (ok_reads tr).

(** What the live goroutines have still to call. *)
Definition pending (st : state T) : list (event T) :=
  flat_map (fun g => run_stages p 3 (g_ix g) (view st g) (g_at g)) (pool st).

Definition serial_inv (st : state T) : Prop :=
  row_events (trace st) ++ pending st = bodies (trace st).

End Rows.

(** ** More scenarios *)

(** A stream whose second read fails with an error that wraps io.EOF. *)
Definition truncated_rows : list (row * option error) :=
  [ (["1"; "one"], None); ([], Some (ErrWrap "read" EOF)); (["3"; "three"], None) ]%string.

(** Run on it with one worker: row 1 is read and processed, the second
    read leaves the loop, Run returns. *)
Definition scenario_truncated : list action :=
  [AMain false] ++ one_row ++ [AMain false; AMain false; AMain false].

Definition scenario_truncated_final : state (string * string) :=
  Eval vm_compute in
    state_or_init (number_parser truncated_rows)
                  (exec (number_parser truncated_rows) 1 scenario_truncated
                        (init (number_parser truncated_rows) false)).

(** A stream whose second row cannot be read and whose third row has
    too few columns for [ParseNumber]. *)
Definition malformed_rows : list (row * option error) :=
  [ (["1"; "one"], None); (["2"], Some (ErrOther "wrong number of fields"));
    (["3"], None) ]%string.

(** Run on it with two workers: rows 1 and 3 are in flight together,
    row 3 fails in Parse and finishes first, then the reader meets the end
    of the stream. *)
Definition scenario_malformed : list action :=
  [AMain false; AMain false; AMain false; AMain false; AMain false;
   AMain false; AMain false]
  ++ [AWorker 1; AWorker 1; AWorker 1; AWorker 1] ++ whole_worker 0
  ++ [AMain false; AMain false; AMain false].

Definition scenario_malformed_final : state (string * string) :=
  Eval vm_compute in
    state_or_init (number_parser malformed_rows)
                  (exec (number_parser malformed_rows) 2 scenario_malformed
                        (init (number_parser malformed_rows) false)).

(** Scenario A with the context cancelled while row 1 is in flight: the
    state at the select, before the reader moves on. *)
Definition scenario_A_cancelled : state (string * string) :=
  Eval vm_compute in
    state_or_init (number_parser three_rows)
                  (exec (number_parser three_rows) 2
                        [AMain false; AMain false; AMain false; ACancel]
                        (init (number_parser three_rows) false)).

(** From there the select takes the cancellation, row 1 finishes and
    Run returns. *)
Definition scenario_A_after_cancel : list action :=
  AMain true :: whole_worker 0 ++ [AMain false].

Definition scenario_A_cancelled_final : state (string * string) :=
  Eval vm_compute in
    state_or_init (number_parser three_rows)
                  (exec (number_parser three_rows) 2 scenario_A_after_cancel
                        scenario_A_cancelled).

(** A file system with a plain file and a file carrying the gzip magic
    bytes. *)
Definition two_file_world : world :=
  mkWorld (fun name =>
             if String.eqb name "rows.csv" then Some "1,one"%string
             else if String.eqb name "rows.csv.gz"
                  then Some (String "031" (String "139" "..."))
                  else None)
          [0; 1; 2] 3.

(** * Properties of the engine *)

Unset Implicit Arguments.

Ltac use_pc :=
  repeat match goal with
         | E : pc _ = _ |- _ => rewrite E in *; clear E
         end.

Section SumsAndCounts.
Context {A : Type}.
Variable f : A -> nat.

Lemma total_app (l1 l2 : list A) : total f (l1 ++ l2) = total f l1 + total f l2.
Proof. induction l1 as [|x l1 IH]; simpl; [reflexivity | rewrite IH; lia]. Qed.

Lemma total_insert (l : list A) (i : nat) (x y : A) :
  l !! i = Some x -> total f (<[i := y]> l) + f x = total f l + f y.
Proof.
  revert i. induction l as [|a l IH]; intros [|i] Hi; simpl in *; try discriminate.
  - injection Hi as ->. lia.
  - specialize (IH i Hi). lia.
Qed.

Lemma total_delete (l : list A) (i : nat) (x : A) :
  l !! i = Some x -> total f (delete i l) + f x = total f l.
Proof.
  revert i. induction l as [|a l IH]; intros [|i] Hi; simpl in *; try discriminate.
  - injection Hi as ->. lia.
  - specialize (IH i Hi). lia.
Qed.

Lemma total_pos_lookup (l : list A) :
  0 < total f l -> exists i x, l !! i = Some x /\ 0 < f x.
Proof.
  induction l as [|a l IH]; simpl; [lia |]. intros H.
  destruct (f a) eqn:Ea.
  - destruct IH as (i & x & Hi & Hx); [lia |]. exists (S i), x. auto.
  - exists 0, a. split; [reflexivity | lia].
Qed.
End SumsAndCounts.

Section Properties.
Context {T : Type}.
Variable p : Parser T.
Variable workers : Z.

Local Abbreviation step := (step p workers).
Local Abbreviation exec := (exec p workers).
Local Abbreviation reachable := (reachable p workers).
Local Abbreviation slots_inv := (slots_inv p workers).
Local Abbreviation return_inv := (return_inv p workers).
Local Abbreviation reuse_inv := (reuse_inv workers).
Local Abbreviation order_inv := (order_inv p).
Local Abbreviation all_inv := (all_inv p workers).

Lemma count_app (f : event T -> bool) (l1 l2 : list (event T)) :
  count f (l1 ++ l2) = count f l1 + count f l2.
Proof. induction l1 as [|x l1 IH]; simpl; [reflexivity | rewrite IH; lia]. Qed.

Lemma preconditions_spec :
  preconditions p workers = true <->
  OnData_without_Parse p = false /\ (1 <= workers)%Z.
Proof.
  unfold preconditions. rewrite andb_true_iff, negb_true_iff, Z.leb_le. tauto.
Qed.

(** *** The stages of a worker *)

Lemma advance_holding ix seen s evs s' :
  advance p ix seen s = (evs, s') -> s <> AtWgDone -> s' <> AtWgDone.
Proof.
  intros H Hs. destruct s; simpl in H;
    repeat (match type of H with
            | context [match ?x with _ => _ end] => destruct x
            end); inversion H; subst; congruence.
Qed.

Lemma advance_weight ix seen s evs s' :
  advance p ix seen s = (evs, s') -> s <> AtDefer -> s <> AtWgDone ->
  stage_weight s' < stage_weight s.
Proof.
  intros H H1 H2. destruct s; simpl in H; try congruence;
    repeat (match type of H with
            | context [match ?x with _ => _ end] => destruct x
            end); inversion H; subst; simpl; lia.
Qed.

(** *** Schedules *)

Lemma exec_app acts1 acts2 (st : state T) :
  exec (acts1 ++ acts2) st =
  match exec acts1 st with
  | Some st' => exec acts2 st'
  | None => None
  end.
Proof.
  revert st. induction acts1 as [|a acts1 IH]; intros st; simpl; [reflexivity |].
  destruct (step a st); [apply IH | reflexivity].
Qed.

(** An invariant of the steps holds in every reachable state. *)
Lemma reachable_ind (P : state T -> Prop) cancelled :
  P (init p cancelled) ->
  (forall a st st', P st -> step a st = Some st' -> P st') ->
  forall st, reachable cancelled st -> P st.
Proof.
  intros H0 Hstep st [acts Hacts]. revert st Hacts.
  induction acts as [|a acts IH] using rev_ind; intros st Hacts.
  - simpl in Hacts. injection Hacts as <-. exact H0.
  - rewrite exec_app in Hacts. destruct (exec acts (init p cancelled)) as [st1|] eqn:E1;
      [| discriminate]. simpl in Hacts.
    destruct (step a st1) as [st2|] eqn:E2; [| discriminate].
    injection Hacts as <-. eapply Hstep; [apply IH; reflexivity | exact E2].
Qed.

(** *** The transition relation *)

Lemma step_Step a st st' : step a st = Some st' -> Step p workers st st'.
Proof.
  intros Hs. destruct a as [take_done | i | ]; simpl in Hs.
  - unfold step_main in Hs. destruct (pc st) eqn:Epc.
    + destruct (OnData_without_Parse p) eqn:E1.
      * injection Hs as <-. apply Step_config_error; auto.
      * destruct (workers <? 1)%Z eqn:E2; injection Hs as <-.
        -- apply Step_config_error; auto. right. repeat split; auto. lia.
        -- apply Step_enter; auto. lia.
    + destruct take_done.
      * destruct (ctx_done st) eqn:E; [| discriminate]. injection Hs as <-.
        rewrite <- E. apply Step_done; auto.
      * destruct (Z.of_nat (sem st) <? workers)%Z eqn:E; [| discriminate].
        injection Hs as <-. apply Step_acquire; auto. lia.
    + destruct (Read (reader st)) as [[ref [e|]] rd] eqn:ER.
      * destruct (errors_Is_EOF e) eqn:Ee.
        -- injection Hs as <-. eapply Step_read_eof; eauto.
        -- destruct (sem st) as [|n] eqn:En; [discriminate |]. injection Hs as <-.
           eapply Step_read_error; eauto.
      * injection Hs as <-. eapply Step_read_row; eauto.
    + destruct (wg st) as [|n] eqn:En; [| discriminate]. injection Hs as <-.
      apply Step_wait; auto.
    + discriminate.
  - unfold step_worker in Hs. destruct (pool st !! i) as [g|] eqn:Hg; [| discriminate].
    destruct (g_at g) eqn:Hat.
    4: { destruct (sem st) as [|n] eqn:En; [discriminate |]. injection Hs as <-.
         eapply Step_release; eauto. }
    4: { destruct (wg st) as [|n] eqn:En; [discriminate |]. injection Hs as <-.
         eapply Step_exit; eauto. }
    all: match type of Hs with
         | context [advance ?a ?b ?c ?d] => destruct (advance a b c d) as [evs s'] eqn:Hadv
         end; injection Hs as <-; rewrite <- Hat in Hadv;
      eapply Step_stage; eauto; congruence.
  - unfold step_cancel in Hs. destruct (ctx_done st) eqn:E; [discriminate |].
    injection Hs as <-. apply Step_cancel; auto.
Qed.

Lemma Step_step st st' : Step p workers st st' -> exists a, step a st = Some st'.
Proof.
  intros H. destruct H.
  - exists (AMain false). simpl. unfold step_main. rewrite H.
    destruct H0 as [[-> ->] | (-> & Hw & ->)]; [reflexivity |].
    apply Z.ltb_lt in Hw. rewrite Hw. reflexivity.
  - exists (AMain false). simpl. unfold step_main. rewrite H, H0.
    apply Z.ltb_ge in H1. rewrite H1. reflexivity.
  - exists (AMain true). simpl. unfold step_main. rewrite H.
    destruct (ctx_done st); [reflexivity | discriminate].
  - exists (AMain false). simpl. unfold step_main. rewrite H.
    apply Z.ltb_lt in H0. rewrite H0. reflexivity.
  - exists (AMain false). simpl. unfold step_main. rewrite H, H0, H1. reflexivity.
  - exists (AMain false). simpl. unfold step_main. rewrite H, H0, H1, H2. reflexivity.
  - exists (AMain false). simpl. unfold step_main. rewrite H, H0. reflexivity.
  - exists (AMain false). simpl. unfold step_main. rewrite H, H0.
    unfold do_return. rewrite H0. reflexivity.
  - exists (AWorker i). simpl. unfold step_worker. rewrite H.
    destruct (g_at g) eqn:Hat; try congruence; rewrite H2; reflexivity.
  - exists (AWorker i). simpl. unfold step_worker. rewrite H, H0, H1. reflexivity.
  - exists (AWorker i). simpl. unfold step_worker. rewrite H, H0, H1. reflexivity.
  - exists ACancel. simpl. unfold step_cancel. rewrite H. reflexivity.
Qed.

(** *** Slot accounting *)

Lemma loop_head_cases ix :
  (loop_head ix = AtSelect /\ (0 < ix)%Z) \/ (loop_head ix = AtWait /\ (ix <= 0)%Z).
Proof. unfold loop_head. destruct (0 <? ix)%Z eqn:E; [left | right]; split; auto; lia. Qed.

Lemma in_flight_app (l1 l2 : list (goroutine T)) :
  in_flight (l1 ++ l2) = in_flight l1 + in_flight l2.
Proof. apply total_app. Qed.

Lemma in_flight_insert (l : list (goroutine T)) i g g' :
  l !! i = Some g ->
  in_flight (<[i := g']> l) + (if holding g then 1 else 0)
  = in_flight l + (if holding g' then 1 else 0).
Proof.
  intros H. unfold in_flight.
  exact (total_insert (fun x : goroutine T => if holding x then 1 else 0) l i g g' H).
Qed.

Lemma in_flight_delete (l : list (goroutine T)) i g :
  l !! i = Some g ->
  in_flight (delete i l) + (if holding g then 1 else 0) = in_flight l.
Proof.
  intros H. unfold in_flight.
  exact (total_delete (fun x : goroutine T => if holding x then 1 else 0) l i g H).
Qed.

Lemma holding_stage (g : goroutine T) : holding g = true <-> g_at g <> AtWgDone.
Proof. unfold holding. destruct (g_at g); split; congruence. Qed.

Lemma preconditions_false :
  OnData_without_Parse p = true \/ (workers < 1)%Z -> preconditions p workers = false.
Proof.
  unfold preconditions. intros [-> | H]; [reflexivity |].
  apply andb_false_iff. right. apply Z.leb_gt. lia.
Qed.

Lemma slots_inv_Step st st' :
  slots_inv st -> Step p workers st st' -> slots_inv st'.
Proof.
  intros [Hwg Hpc] Hs. unfold slots_inv.
  destruct Hs; simpl; use_pc.
  - destruct Hpc as [Hp Hsem]. repeat split; auto.
    apply preconditions_false. tauto.
  - split; [reflexivity |]. split; [apply preconditions_spec; auto |].
    simpl. split; [reflexivity | lia].
  - destruct Hpc as (Hp & Hsem & Hle). repeat split; auto; lia.
  - destruct Hpc as (Hp & Hsem & Hle). repeat split; auto; lia.
  - destruct Hpc as (Hp & Hsem & Hle). repeat split; auto; lia.
  - destruct Hpc as (Hp & Hsem & Hle). split; [assumption |].
    destruct (loop_head_cases (incr (ixRow st))) as [[-> _] | [-> _]];
      repeat split; auto; lia.
  - destruct Hpc as (Hp & Hsem & Hle). rewrite length_app, in_flight_app.
    change (in_flight [mkGo (ixRow st) ref AtOnRow]) with 1. simpl.
    split; [lia |].
    destruct (loop_head_cases (incr (ixRow st))) as [[-> _] | [-> _]];
      repeat split; auto; lia.
  - destruct Hpc as (Hp & Hsem & Hle). repeat split; auto.
    destruct (pool st); [reflexivity | simpl in Hwg; lia].
  - rewrite length_insert. split; [assumption |].
    pose proof (in_flight_insert _ _ _ (mkGo (g_ix g) (g_row g) s') H) as Hi.
    assert (Hg : holding g = true) by (apply holding_stage; assumption).
    assert (Hg' : holding (mkGo (g_ix g) (g_row g) s') = true).
    { apply holding_stage. simpl. eapply advance_holding; eauto. }
    rewrite Hg, Hg' in Hi. cbv iota in Hi.
    destruct (pc st) as [| | | | [e|]];
      try (destruct Hpc as (Hp & Hnil & Hsem); rewrite Hnil in H; discriminate);
      try (destruct Hpc as (Hnil & Hsem); rewrite Hnil in H; discriminate);
      destruct Hpc as (Hp & Hsem & Hle); repeat split; auto; lia.
  - rewrite length_insert. split; [assumption |].
    pose proof (in_flight_insert _ _ _ (mkGo (g_ix g) (g_row g) AtWgDone) H) as Hi.
    assert (Hg : holding g = true) by (apply holding_stage; congruence).
    rewrite Hg in Hi.
    change (holding (mkGo (g_ix g) (g_row g) AtWgDone)) with false in Hi.
    cbv iota in Hi.
    destruct (pc st) as [| | | | [e|]];
      try (destruct Hpc as (Hp & Hnil & Hsem); rewrite Hnil in H; discriminate);
      try (destruct Hpc as (Hnil & Hsem); rewrite Hnil in H; discriminate);
      destruct Hpc as (Hp & Hsem & Hle); repeat split; auto; lia.
  - pose proof (lookup_lt_Some _ _ _ H) as Hlt.
    rewrite length_delete by (rewrite H; eauto).
    split; [lia |].
    pose proof (in_flight_delete _ _ _ H) as Hi.
    assert (Hg : holding g = false) by (unfold holding; rewrite H0; reflexivity).
    rewrite Hg in Hi. cbv iota in Hi.
    destruct (pc st) as [| | | | [e|]];
      try (destruct Hpc as (Hp & Hnil & Hsem); rewrite Hnil in H; discriminate);
      try (destruct Hpc as (Hnil & Hsem); rewrite Hnil in H; discriminate);
      destruct Hpc as (Hp & Hsem & Hle); repeat split; auto; lia.
  - exact (conj Hwg Hpc).
Qed.

Lemma slots_inv_init cancelled : slots_inv (init p cancelled).
Proof. unfold slots_inv, init. simpl. auto. Qed.

Lemma slots_inv_reachable cancelled st : reachable cancelled st -> slots_inv st.
Proof.
  apply reachable_ind; [apply slots_inv_init |].
  intros a st0 st1 Hinv Hs. eapply slots_inv_Step; [exact Hinv |].
  eapply step_Step; exact Hs.
Qed.

(** *** The tokenizer *)

Lemma Read_cases rd ref e rd' :
  Read rd = ((ref, e), rd') ->
  (input rd = [] /\ rd' = rd /\ e = Some EOF /\ ref = Owned []) \/
  (exists r rest,
      input rd = (r, e) :: rest /\ input rd' = rest /\ deref ref rd' = r /\
      ReuseRecord rd' = ReuseRecord rd /\
      ((ref = Shared /\ ReuseRecord rd = true) \/
       (ref = Owned r /\ ReuseRecord rd = false /\ lastRecord rd' = lastRecord rd))).
Proof.
  unfold Read. destruct (input rd) as [|[r e0] rest] eqn:Ein.
  - intros H. injection H as <- <- <-. left. auto.
  - destruct (ReuseRecord rd) eqn:Er; intros H; injection H as <- <- <-;
      right; exists r, rest; simpl; repeat split; auto.
Qed.

(** *** Termination *)

Lemma measure_Step st st' : Step p workers st st' -> measure st' < measure st.
Proof.
  intros Hs. unfold measure, main_weight.
  destruct Hs; simpl; use_pc.
  - lia.
  - lia.
  - lia.
  - lia.
  - lia.
  - apply Read_cases in H0 as [(_ & _ & He & _) | (r & rest & Hin & Hrest & _)].
    + injection He as ->. discriminate.
    + rewrite Hin, Hrest. simpl.
      destruct (loop_head_cases (incr (ixRow st))) as [[-> _] | [-> _]]; lia.
  - apply Read_cases in H0 as [(_ & _ & He & _) | (r & rest & Hin & Hrest & _)];
      [discriminate |].
    rewrite Hin, Hrest, total_app. simpl.
    destruct (loop_head_cases (incr (ixRow st))) as [[-> _] | [-> _]]; lia.
  - lia.
  - pose proof (total_insert (fun x : goroutine T => stage_weight (g_at x)) _ _ _
                             (mkGo (g_ix g) (g_row g) s') H) as Ht.
    simpl in Ht. pose proof (advance_weight _ _ _ _ _ H2 H0 H1). lia.
  - pose proof (total_insert (fun x : goroutine T => stage_weight (g_at x)) _ _ _
                             (mkGo (g_ix g) (g_row g) AtWgDone) H) as Ht.
    simpl in Ht. rewrite H0 in Ht. simpl in Ht. lia.
  - pose proof (total_delete (fun x : goroutine T => stage_weight (g_at x)) _ _ _ H) as Ht.
    simpl in Ht. rewrite H0 in Ht. simpl in Ht. lia.
  - rewrite H. lia.
Qed.


(** *** Progress *)

Lemma in_flight_pos_lookup (l : list (goroutine T)) :
  0 < in_flight l -> exists i g, l !! i = Some g /\ g_at g <> AtWgDone.
Proof.
  intros H. apply total_pos_lookup in H as (i & g & Hi & Hg).
  exists i, g. split; [exact Hi |]. apply holding_stage.
  destruct (holding g); [reflexivity | lia].
Qed.

(** A goroutine that holds a slot can move whenever the channel is not
    empty. *)
Lemma holder_can_move st i g :
  pool st !! i = Some g -> g_at g <> AtWgDone -> 0 < sem st ->
  exists st', Step p workers st st'.
Proof.
  intros Hi Hg Hsem. destruct (g_at g) eqn:Hat; try congruence.
  4: { destruct (sem st) as [|n] eqn:En; [lia |].
       eexists. eapply Step_release; eauto. }
  all: destruct (advance p (g_ix g) (view st g) (g_at g)) as [evs s'] eqn:Hadv;
    eexists; eapply Step_stage; eauto; congruence.
Qed.

Lemma progress st :
  slots_inv st -> has_returned st = false -> exists st', Step p workers st st'.
Proof.
  intros [Hwg Hpc] Hret. unfold has_returned in Hret.
  destruct (pc st) eqn:Epc; try discriminate.
  - destruct (OnData_without_Parse p) eqn:E1.
    + eexists. eapply Step_config_error; eauto.
    + destruct (Z_lt_le_dec workers 1) as [Hw | Hw].
      * eexists. eapply Step_config_error; eauto.
      * eexists. eapply Step_enter; eauto.
  - destruct Hpc as (Hp & Hsem & Hle). apply preconditions_spec in Hp as [_ Hw].
    destruct (Z_lt_le_dec (Z.of_nat (sem st)) workers) as [Hlt | Hge].
    + eexists. eapply Step_acquire; eauto.
    + destruct (in_flight_pos_lookup (pool st)) as (i & g & Hi & Hg); [lia |].
      eapply holder_can_move; eauto. lia.
  - destruct Hpc as (Hp & Hsem & Hle).
    destruct (Read (reader st)) as [[ref [e|]] rd] eqn:ER.
    + destruct (errors_Is_EOF e) eqn:Ee.
      * eexists. eapply Step_read_eof; eauto.
      * eexists. eapply Step_read_error; eauto.
    + eexists. eapply Step_read_row; eauto.
  - destruct Hpc as (Hp & Hsem & Hle).
    destruct (wg st) as [|n] eqn:En.
    + eexists. eapply Step_wait; eauto.
    + destruct (pool st) as [|g l] eqn:Epool; [discriminate |].
      destruct (holding g) eqn:Hg.
      * eapply (holder_can_move st 0 g).
        -- rewrite Epool. reflexivity.
        -- apply holding_stage. exact Hg.
        -- unfold in_flight in Hsem. simpl in Hsem. rewrite Hg in Hsem. lia.
      * eexists. eapply Step_exit with (i := 0) (g := g) (n := n).
        -- rewrite Epool. reflexivity.
        -- unfold holding in Hg. destruct (g_at g); congruence.
        -- exact En.
Qed.

(** From any state satisfying the slot invariant, Run can be brought to
    its return: no deadlock, and nothing runs forever. *)
Lemma completion_from st :
  slots_inv st ->
  exists acts st', exec acts st = Some st' /\ has_returned st' = true.
Proof.
  remember (measure st) as m eqn:Hm. revert st Hm.
  induction m as [m IH] using lt_wf_ind. intros st Hm Hinv.
  destruct (has_returned st) eqn:Hret.
  - exists [], st. split; [reflexivity | exact Hret].
  - destruct (progress st Hinv Hret) as [st1 Hs].
    pose proof (measure_Step _ _ Hs) as Hlt.
    pose proof (slots_inv_Step _ _ Hinv Hs) as Hinv1.
    destruct (Step_step _ _ Hs) as [a Ha].
    destruct (IH (measure st1) ltac:(lia) st1 eq_refl Hinv1) as (acts & st' & He & Hr).
    exists (a :: acts), st'. split; [| exact Hr]. simpl. rewrite Ha. exact He.
Qed.

(** *** What the trace records *)

Lemma report_callbacks e : Forall (fun ev => is_callback ev = true) (report p e).
Proof. unfold report. destruct (OnError p); repeat constructor. Qed.

Lemma advance_callbacks ix seen s evs s' :
  advance p ix seen s = (evs, s') -> Forall (fun ev => is_callback ev = true) evs.
Proof.
  intros H. destruct s; simpl in H;
    repeat (match type of H with
            | context [match ?x with _ => _ end] => destruct x
            end); inversion H; subst;
    repeat (constructor; try reflexivity); apply report_callbacks.
Qed.

Lemma count_callbacks (f : event T -> bool) evs :
  (forall ev, is_callback ev = true -> f ev = false) ->
  Forall (fun ev => is_callback ev = true) evs -> count f evs = 0.
Proof.
  intros Hf H. induction H as [|ev evs Hev _ IH]; simpl; [reflexivity |].
  rewrite (Hf ev Hev), IH. reflexivity.
Qed.

Lemma bookkeeping_Spawn : bookkeeping (@is_Spawn T).
Proof. intros [] H; simpl in *; congruence. Qed.
Lemma bookkeeping_Release : bookkeeping (@is_Release T).
Proof. intros [] H; simpl in *; congruence. Qed.
Lemma bookkeeping_Acquire : bookkeeping (@is_Acquire T).
Proof. intros [] H; simpl in *; congruence. Qed.
Lemma bookkeeping_ReadCall : bookkeeping (@is_ReadCall T).
Proof. intros [] H; simpl in *; congruence. Qed.
Lemma bookkeeping_CloseCall : bookkeeping (@is_CloseCall T).
Proof. intros [] H; simpl in *; congruence. Qed.

Lemma count_report f e : bookkeeping f -> count f (report p e) = 0.
Proof. intros Hf. apply count_callbacks; [exact Hf | apply report_callbacks]. Qed.

Lemma count_advance f ix seen s evs s' :
  bookkeeping f -> advance p ix seen s = (evs, s') -> count f evs = 0.
Proof.
  intros Hf H. apply count_callbacks; [exact Hf | eapply advance_callbacks; eauto].
Qed.

Lemma accounting_inv_Step st st' :
  slots_inv st -> accounting_inv st -> Step p workers st st' -> accounting_inv st'.
Proof.
  intros [_ Hslots] (Hacq & Hspawn & Hrel) Hs. unfold accounting_inv.
  destruct Hs; simpl; use_pc;
    repeat rewrite count_app; simpl;
    repeat rewrite (count_report _ _ bookkeeping_Acquire);
    repeat rewrite (count_report _ _ bookkeeping_ReadCall);
    repeat rewrite (count_report _ _ bookkeeping_Spawn);
    repeat rewrite (count_report _ _ bookkeeping_Release);
    repeat rewrite (count_advance _ _ _ _ _ _ bookkeeping_Acquire H2);
    repeat rewrite (count_advance _ _ _ _ _ _ bookkeeping_ReadCall H2);
    repeat rewrite (count_advance _ _ _ _ _ _ bookkeeping_Spawn H2);
    repeat rewrite (count_advance _ _ _ _ _ _ bookkeeping_Release H2).
  - lia.
  - destruct Hslots as [Hnil _]. rewrite Hnil in Hrel. lia.
  - lia.
  - lia.
  - lia.
  - destruct (loop_head_cases (incr (ixRow st))) as [[-> _] | [-> _]]; lia.
  - rewrite in_flight_app. change (in_flight [mkGo (ixRow st) ref AtOnRow]) with 1.
    destruct (loop_head_cases (incr (ixRow st))) as [[-> _] | [-> _]]; lia.
  - lia.
  - pose proof (in_flight_insert _ _ _ (mkGo (g_ix g) (g_row g) s') H) as Hi.
    assert (Hg : holding g = true) by (apply holding_stage; assumption).
    assert (Hg' : holding (mkGo (g_ix g) (g_row g) s') = true).
    { apply holding_stage. simpl. eapply advance_holding; eauto. }
    rewrite Hg, Hg' in Hi. cbv iota in Hi. lia.
  - pose proof (in_flight_insert _ _ _ (mkGo (g_ix g) (g_row g) AtWgDone) H) as Hi.
    assert (Hg : holding g = true) by (apply holding_stage; congruence).
    rewrite Hg in Hi.
    change (holding (mkGo (g_ix g) (g_row g) AtWgDone)) with false in Hi.
    cbv iota in Hi. lia.
  - pose proof (in_flight_delete _ _ _ H) as Hi.
    assert (Hg : holding g = false) by (unfold holding; rewrite H0; reflexivity).
    rewrite Hg in Hi. cbv iota in Hi. lia.
  - lia.
Qed.

(** *** The configuration error path and the stream *)

Lemma Forall_callbacks_not_close evs :
  Forall (fun ev : event T => is_callback ev = true) evs ->
  Forall (fun ev => is_CloseCall ev = true -> ev = CloseCall (closer p)) evs.
Proof.
  intros H. eapply Forall_impl; [exact H |].
  intros ev Hc Hclose. rewrite (bookkeeping_CloseCall ev Hc) in Hclose. discriminate.
Qed.

Lemma return_inv_Step st st' :
  slots_inv st -> return_inv st -> Step p workers st st' -> return_inv st'.
Proof.
  intros [_ Hslots] (Hcl & Hcnt & Hall & Hpc) Hs. unfold return_inv, has_returned in *.
  destruct Hs; simpl; use_pc;
    repeat rewrite count_app; simpl;
    repeat rewrite (count_report _ _ bookkeeping_CloseCall);
    repeat rewrite (count_advance _ _ _ _ _ _ bookkeeping_CloseCall H2).
  all: try match goal with
           | |- context [loop_head ?ix] =>
               destruct (loop_head_cases ix) as [[-> _] | [-> _]]
           end.
  all: try match type of Hpc with
           | _ /\ _ => destruct Hpc as [Htr Hrd]; rewrite Htr in *
           end.
  all: try match goal with
           | H : pool ?s !! _ = Some _ |- _ =>
               destruct (pc s) as [| | | | [e'|]];
               try (destruct Hslots as (_ & Hnil & _); rewrite Hnil in H; discriminate);
               try (destruct Hslots as (Hnil & _); rewrite Hnil in H; discriminate)
           end.
  all: repeat rewrite Forall_app.
  all: repeat split; auto; try lia; try tauto.
  all: try solve [repeat constructor; simpl; congruence].
  all: try solve [apply Forall_callbacks_not_close;
                  first [apply report_callbacks | eapply advance_callbacks; eassumption]].
Qed.

(** *** Buffer reuse *)

Lemma reuse_inv_Step st st' :
  reuse_inv st -> Step p workers st st' -> reuse_inv st'.
Proof.
  intros [Hflag Hpool] Hs. unfold reuse_inv.
  destruct Hs; simpl; use_pc.
  all: try match goal with
           | |- context [loop_head ?ix] =>
               destruct (loop_head_cases ix) as [[-> _] | [-> _]]
           end.
  all: try match goal with
           | H : Read _ = _ |- _ =>
               apply Read_cases in H
                 as [(_ & -> & _ & ->) | (r & rest & _ & _ & _ & Hre & Href)];
               [| rewrite Hre]
           end.
  all: try (split; [solve [auto] |]).
  all: try assumption.
  all: try solve [constructor].
  all: try (apply Forall_app; split; [assumption |]; constructor; [| constructor];
            simpl; intros Hsh;
            first [ discriminate
                  | destruct Href as [[_ Hr] | [Hr _]]; [| congruence];
                    rewrite Hr in Hflag; symmetry in Hflag; apply Z.eqb_eq in Hflag;
                    exact Hflag ]).
  all: try (apply Forall_insert; [assumption |]; simpl;
            exact (Forall_lookup_1 _ _ _ _ Hpool H)).
  apply Forall_delete. assumption.
Qed.

Lemma in_flight_zero (l : list (goroutine T)) :
  in_flight l = 0 -> Forall (fun g => holding g = false) l.
Proof.
  unfold in_flight. induction l as [|g l IH]; simpl; intros H; constructor.
  - destruct (holding g); [lia | reflexivity].
  - apply IH. lia.
Qed.

(** *** What a worker sees of its row *)

Lemma report_sees e ix seen :
  ~ (In (CallOnRow ix seen) (report p e) \/ In (CallParse ix seen) (report p e)).
Proof.
  unfold report. destruct (OnError p); simpl; intuition discriminate.
Qed.

Lemma classic_calls ix seen (tr evs : list (event T)) :
  In (CallOnRow ix seen) (tr ++ evs) \/ In (CallParse ix seen) (tr ++ evs) ->
  (In (CallOnRow ix seen) tr \/ In (CallParse ix seen) tr) \/
  (In (CallOnRow ix seen) evs \/ In (CallParse ix seen) evs).
Proof. rewrite !in_app_iff. tauto. Qed.

Lemma advance_sees ix seen s evs s' ix' seen' :
  advance p ix seen s = (evs, s') ->
  In (CallOnRow ix' seen') evs \/ In (CallParse ix' seen') evs ->
  ix' = ix /\ seen' = seen.
Proof.
  intros H Hin. destruct s; simpl in H;
    repeat (match type of H with
            | context [match ?x with _ => _ end] => destruct x
            end); inversion H; subst; clear H; simpl in Hin.
  all: repeat match goal with
              | H : _ \/ _ |- _ => destruct H
              | H : False |- _ => contradiction
              | H : CallOnRow _ _ = CallOnRow _ _ |- _ => injection H as -> ->; auto
              | H : CallParse _ _ = CallParse _ _ |- _ => injection H as -> ->; auto
              | H : @eq (event T) _ _ |- _ => discriminate H
              | H : In _ (report p ?e) |- _ =>
                  exfalso; eapply report_sees; eauto
              end.
Qed.

Lemma sees_mono rd (tr evs : list (event T)) (l : list (goroutine T)) :
  Forall (sees rd tr) l -> Forall (sees rd (tr ++ evs)) l.
Proof.
  intros H. eapply Forall_impl; [exact H |].
  intros g Hg Hh. apply in_or_app. left. apply Hg, Hh.
Qed.

Lemma calls_ok_quiet (tr evs : list (event T)) :
  calls_ok tr ->
  (forall ix seen, ~ (In (CallOnRow ix seen) evs \/ In (CallParse ix seen) evs)) ->
  calls_ok (tr ++ evs).
Proof.
  intros Htr Hq ix seen H. apply in_or_app. left. apply Htr.
  destruct H as [H | H]; apply in_app_or in H as [H | H]; auto;
    exfalso; eapply Hq; eauto.
Qed.

Lemma calls_ok_one (tr : list (event T)) ev :
  calls_ok tr -> is_callback ev = false -> calls_ok (tr ++ [ev]).
Proof.
  intros Htr Hev. apply calls_ok_quiet; [exact Htr |].
  intros ix seen [[H | []] | [H | []]]; subst ev; discriminate.
Qed.

(** A read leaves untouched what the goroutines at work see: with a
    shared buffer there is only one slot, and the reader holds it. *)
Lemma read_keeps_views (st : state T) ref e rd' :
  sem st = S (in_flight (pool st)) -> (Z.of_nat (sem st) <= workers)%Z ->
  Forall (fun g => g_row g = Shared -> workers = 1%Z) (pool st) ->
  Read (reader st) = ((ref, e), rd') ->
  Forall (sees (reader st) (trace st)) (pool st) ->
  Forall (sees rd' (trace st)) (pool st).
Proof.
  intros Hsem Hle Hshared HR Hsees.
  assert (Hidle : workers = 1%Z -> Forall (fun g => holding g = false) (pool st)).
  { intros Hw. apply in_flight_zero. lia. }
  rewrite Forall_forall in *. intros g Hg Hh.
  specialize (Hsees g Hg Hh). specialize (Hshared g Hg).
  destruct (g_row g) as [r |] eqn:Hrow; simpl in *; [exact Hsees |].
  specialize (Hidle (Hshared eq_refl)).
  rewrite (Hidle g Hg) in Hh. discriminate.
Qed.

Lemma view_inv_Step st st' :
  slots_inv st -> reuse_inv st -> view_inv st -> Step p workers st st' -> view_inv st'.
Proof.
  intros [_ Hslots] [_ Hshared] [Hpool Htrace] Hs. unfold view_inv.
  destruct Hs; simpl; use_pc.
  - split; [apply sees_mono; assumption | apply calls_ok_one; auto].
  - split; [constructor | assumption].
  - split; assumption.
  - split; [apply sees_mono; assumption | apply calls_ok_one; auto].
  - destruct Hslots as (_ & Hsem & Hle).
    split; [| apply calls_ok_one; auto].
    apply sees_mono. eapply read_keeps_views; eauto.
  - destruct Hslots as (_ & Hsem & Hle). split.
    + apply sees_mono, sees_mono. eapply read_keeps_views; eauto.
    + apply calls_ok_quiet; [apply calls_ok_one; auto |].
      intros ix seen. apply report_sees.
  - destruct Hslots as (_ & Hsem & Hle). split.
    + apply Forall_app. split.
      * apply sees_mono, sees_mono. eapply read_keeps_views; eauto.
      * constructor; [| constructor]. intros _. simpl.
        apply in_or_app. left. apply in_or_app. right. left. reflexivity.
    + apply calls_ok_one; [apply calls_ok_one |]; auto.
  - split; [apply sees_mono; assumption | apply calls_ok_one; auto].
  - assert (Hg : sees (reader st) (trace st) g)
      by exact (Forall_lookup_1 _ _ _ _ Hpool H).
    assert (Hh : holding g = true) by (apply holding_stage; assumption).
    split.
    + apply Forall_insert; [apply sees_mono; assumption |].
      intros _. simpl. apply in_or_app. left. exact (Hg Hh).
    + intros ix seen Hin. apply in_or_app.
      destruct (classic_calls ix seen (trace st) evs Hin) as [Hold | Hnew].
      * left. apply Htrace. exact Hold.
      * left. destruct (advance_sees _ _ _ _ _ _ _ H2 Hnew) as [-> ->].
        exact (Hg Hh).
  - split; [| apply calls_ok_one; auto].
    apply Forall_insert; [apply sees_mono; assumption |].
    intros Hh. discriminate Hh.
  - split; [apply Forall_delete; assumption | assumption].
  - split; assumption.
Qed.

(** *** The order of reads *)

Lemma row_reads_app (l1 l2 : list (event T)) :
  row_reads (l1 ++ l2) = row_reads l1 ++ row_reads l2.
Proof.
  induction l1 as [|ev l1 IH]; simpl; [reflexivity |].
  destruct ev; try exact IH. destruct (at_eof e); [exact IH |].
  simpl. rewrite IH. reflexivity.
Qed.

Lemma row_reads_callbacks evs :
  Forall (fun ev : event T => is_callback ev = true) evs -> row_reads evs = [].
Proof.
  intros H. induction H as [|ev evs Hev _ IH]; simpl; [reflexivity |].
  destruct ev; try exact IH. discriminate.
Qed.

Lemma ordinals_S k : ordinals (S k) = ordinals k ++ [Z.of_nat (S k)].
Proof. unfold ordinals. rewrite seq_S, map_app. reflexivity. Qed.

Lemma incr_cases ix :
  (0 < ix <= max_int)%Z ->
  ((ix < max_int)%Z /\ incr ix = (ix + 1)%Z) \/ (ix = max_int /\ (incr ix < 0)%Z).
Proof.
  unfold incr, wrap_int, max_int, int_bits.
  change (2 ^ (64 - 1))%Z with 9223372036854775808%Z.
  change (2 ^ 64)%Z with 18446744073709551616%Z. intros H.
  destruct (Z.eq_dec ix 9223372036854775807%Z) as [-> | Hne].
  - right. split; reflexivity.
  - left. split; [lia |]. rewrite Z.mod_small; lia.
Qed.

(** One more row read under ordinal [ix]. *)
Lemma order_read_row (reads : list (Z * (row * option error))) ix item rest inp0 :
  map snd reads ++ item :: rest = inp0 ->
  map fst reads = ordinals (length reads) ->
  ix = Z.of_nat (S (length reads)) -> (ix <= max_int)%Z ->
  map snd (reads ++ [(ix, item)]) ++ rest = inp0 /\
  map fst (reads ++ [(ix, item)]) = ordinals (length (reads ++ [(ix, item)])) /\
  ((loop_head (incr ix) = AtSelect /\
    incr ix = Z.of_nat (S (length (reads ++ [(ix, item)]))) /\
    (incr ix <= max_int)%Z) \/
   (loop_head (incr ix) = AtWait /\
    Z.of_nat (length (reads ++ [(ix, item)])) = max_int)).
Proof.
  intros Hin Hord Hix Hle.
  assert (Hlen : length (reads ++ [(ix, item)]) = S (length reads)).
  { rewrite length_app. simpl. lia. }
  rewrite Hlen. repeat split.
  - rewrite map_app. simpl. rewrite <- app_assoc. simpl. exact Hin.
  - rewrite map_app, ordinals_S, Hord. simpl. rewrite Hix. reflexivity.
  - destruct (incr_cases ix) as [[Hlt Hinc] | [Hmax Hinc]]; [lia | |].
    + left. destruct (loop_head_cases (incr ix)) as [[Hl _] | [_ Hneg]]; [| lia].
      repeat split; [exact Hl | lia | lia].
    + right. destruct (loop_head_cases (incr ix)) as [[_ Hpos] | [Hl _]]; [lia |].
      split; [exact Hl | lia].
Qed.

Lemma rows_only_suffix (l1 l2 : list (row * option error)) r e :
  rows_only (l1 ++ (r, e) :: l2) -> at_eof e = false.
Proof.
  unfold rows_only. rewrite Forall_app, Forall_cons. simpl. tauto.
Qed.

Lemma order_inv_Step st st' :
  rows_only (input (Reader p)) ->
  order_inv st -> Step p workers st st' -> order_inv st'.
Proof.
  intros Hrows (Hin & Hord & Hpc) Hs. unfold order_inv.
  destruct Hs; simpl; use_pc;
    repeat rewrite row_reads_app; simpl;
    repeat rewrite (row_reads_callbacks _ (report_callbacks _));
    repeat rewrite (row_reads_callbacks _ (advance_callbacks _ _ _ _ _ H2));
    repeat rewrite app_nil_r.
  - auto.
  - rewrite Hpc in *. simpl. repeat split; auto. unfold max_int, int_bits. simpl. lia.
  - auto.
  - auto.
  - rewrite H1, app_nil_r.
    apply Read_cases in H0 as [(Hnil & -> & _) | (r & rest & Hi & _)].
    + auto.
    + rewrite Hi in Hin. rewrite <- Hin in Hrows.
      apply rows_only_suffix in Hrows. simpl in Hrows. congruence.
  - rewrite H1. destruct Hpc as [Hix Hle].
    apply Read_cases in H0 as [(_ & _ & He & _) | (r & rest & Hi & Hrest & Hd & _)].
    + injection He as ->. discriminate.
    + rewrite Hi in Hin. rewrite Hrest, Hd.
      destruct (order_read_row _ _ _ _ _ Hin Hord Hix Hle)
        as (G1 & G2 & [(-> & G3 & G4) | (-> & G3)]); auto.
  - destruct Hpc as [Hix Hle].
    apply Read_cases in H0 as [(_ & _ & He & _) | (r & rest & Hi & Hrest & Hd & _)];
      [discriminate |].
    rewrite Hi in Hin. rewrite Hrest, Hd.
    destruct (order_read_row _ _ _ _ _ Hin Hord Hix Hle)
      as (G1 & G2 & [(-> & G3 & G4) | (-> & G3)]); auto.
  - auto.
  - auto.
  - auto.
  - auto.
  - repeat split; auto. destruct (pc st) as [| | | | [e|]]; auto.
Qed.

(** *** All invariants hold in every reachable state *)

Lemma all_inv_init cancelled : all_inv (init p cancelled).
Proof.
  unfold all_inv. split; [apply slots_inv_init |].
  unfold accounting_inv, return_inv, reuse_inv, view_inv, calls_ok, init, in_flight.
  simpl. repeat split; auto; try constructor.
  intros ix seen [[] | []].
Qed.

Lemma all_inv_Step st st' : all_inv st -> Step p workers st st' -> all_inv st'.
Proof.
  intros (H1 & H2 & H3 & H4 & H5) Hs. unfold all_inv.
  split; [| split; [| split; [| split]]].
  - eapply slots_inv_Step; eauto.
  - eapply accounting_inv_Step; eauto.
  - eapply return_inv_Step; eauto.
  - eapply reuse_inv_Step; eauto.
  - eapply view_inv_Step; eauto.
Qed.

Lemma all_inv_reachable cancelled st : reachable cancelled st -> all_inv st.
Proof.
  apply reachable_ind; [apply all_inv_init |].
  intros a st0 st1 Hinv Hs. eapply all_inv_Step; [exact Hinv |].
  eapply step_Step; exact Hs.
Qed.

Lemma order_inv_reachable cancelled st :
  rows_only (input (Reader p)) -> reachable cancelled st -> order_inv st.
Proof.
  intros Hrows. apply reachable_ind.
  - unfold order_inv, init. simpl. repeat split; reflexivity.
  - intros a st0 st1 Hinv Hs. eapply order_inv_Step; eauto.
    eapply step_Step; exact Hs.
Qed.

Lemma completion cancelled st :
  reachable cancelled st ->
  exists acts st', exec acts st = Some st' /\ has_returned st' = true.
Proof. intros Hr. apply completion_from. eapply slots_inv_reachable; eauto. Qed.


Lemma close_calls_on_closer (tr : list (event T)) c :
  Forall (fun ev => is_CloseCall ev = true -> ev = CloseCall (closer p)) tr ->
  In (CloseCall c) tr -> c = closer p.
Proof.
  rewrite Forall_forall. intros H Hin. apply list_elem_of_In in Hin.
  specialize (H _ Hin eq_refl). congruence.
Qed.

(** Close is called on [p.closer], once, by the return of Run and not
    before; and Run does return. *)
Lemma close_once cancelled st :
  reachable cancelled st ->
  closes st = (if has_returned st then 1 else 0) /\
  count is_CloseCall (trace st) = closes st /\
  (forall c, In (CloseCall c) (trace st) -> c = closer p) /\
  (exists acts st', exec acts st = Some st' /\ has_returned st' = true).
Proof.
  intros Hr. destruct (all_inv_reachable _ _ Hr) as (_ & _ & (H1 & H2 & H3 & _) & _).
  repeat split; auto.
  - intros c. apply close_calls_on_closer. exact H3.
  - eapply completion; eauto.
Qed.

(** *** The channel, exactly *)

Lemma bookkeeping_eof_read : bookkeeping (@is_eof_read T).
Proof. intros [] H; simpl in *; congruence. Qed.

Lemma tally_inv_Step st st' :
  slots_inv st -> tally_inv st -> Step p workers st st' -> tally_inv st'.
Proof.
  intros [_ Hslots] Htally Hs. unfold tally_inv in *.
  destruct Hs; simpl; use_pc;
    repeat rewrite count_app; simpl;
    repeat rewrite (count_report _ _ bookkeeping_eof_read);
    repeat rewrite (count_advance _ _ _ _ _ _ bookkeeping_eof_read H2).
  - lia.
  - destruct Hslots as [Hnil Hsem]. rewrite Hnil, Hsem in Htally.
    unfold in_flight in *. simpl in *. lia.
  - lia.
  - lia.
  - rewrite H1. lia.
  - rewrite H1. destruct (loop_head_cases (incr (ixRow st))) as [[-> _] | [-> _]]; lia.
  - rewrite in_flight_app. change (in_flight [mkGo (ixRow st) ref AtOnRow]) with 1.
    destruct (loop_head_cases (incr (ixRow st))) as [[-> _] | [-> _]]; lia.
  - lia.
  - pose proof (in_flight_insert _ _ _ (mkGo (g_ix g) (g_row g) s') H) as Hi.
    assert (Hg : holding g = true) by (apply holding_stage; assumption).
    assert (Hg' : holding (mkGo (g_ix g) (g_row g) s') = true).
    { apply holding_stage. simpl. eapply advance_holding; eauto. }
    rewrite Hg, Hg' in Hi. cbv iota in Hi. lia.
  - pose proof (in_flight_insert _ _ _ (mkGo (g_ix g) (g_row g) AtWgDone) H) as Hi.
    assert (Hg : holding g = true) by (apply holding_stage; congruence).
    rewrite Hg in Hi.
    change (holding (mkGo (g_ix g) (g_row g) AtWgDone)) with false in Hi.
    cbv iota in Hi. lia.
  - pose proof (in_flight_delete _ _ _ H) as Hi.
    assert (Hg : holding g = false) by (unfold holding; rewrite H0; reflexivity).
    rewrite Hg in Hi. cbv iota in Hi. lia.
  - lia.
Qed.

Lemma tally_inv_reachable cancelled st : reachable cancelled st -> tally_inv st.
Proof.
  intros Hr. cut (slots_inv st /\ tally_inv st); [tauto |].
  revert st Hr. apply reachable_ind.
  - split; [apply slots_inv_init | reflexivity].
  - intros a st0 st1 [Hslots Htally] Hstep. apply step_Step in Hstep.
    split; [eapply slots_inv_Step; eauto | eapply tally_inv_Step; eauto].
Qed.

(** Whoever holds a slot is covered by an element of the channel. *)
Lemma holder_has_slot st i g :
  slots_inv st -> pool st !! i = Some g -> holding g = true -> 0 < sem st.
Proof.
  intros [_ Hslots] Hi Hg.
  pose proof (in_flight_delete _ _ _ Hi) as Hd. rewrite Hg in Hd.
  destruct (pc st) as [| | | | [e|]];
    try (destruct Hslots as (_ & Hs & _); lia).
  - destruct Hslots as [Hnil _]. rewrite Hnil in Hi. discriminate.
  - destruct Hslots as (_ & Hnil & _). rewrite Hnil in Hi. discriminate.
  - destruct Hslots as (_ & Hnil & _). rewrite Hnil in Hi. discriminate.
Qed.

(** The deferred release is reached on every path through the body,
    whatever the callbacks return, and is never blocked: a goroutine that
    holds a slot, run on its own, gives it back within four steps. *)
Lemma worker_reaches_release : forall k st i g,
  slots_inv st -> pool st !! i = Some g -> holding g = true ->
  stage_weight (g_at g) <= S k ->
  exists n st',
    n <= k /\ exec (repeat (AWorker i) n) st = Some st' /\
    sem st' + 1 = sem st /\ in_flight (pool st') + 1 = in_flight (pool st) /\
    pc st' = pc st /\
    exists tr, trace st' = tr ++ [Release (g_ix g)].
Proof.
  induction k as [|k IH]; intros st i g Hslots Hi Hg Hw.
  - unfold holding in Hg. destruct (g_at g); simpl in Hw; first [lia | discriminate].
  - pose proof (holder_has_slot _ _ _ Hslots Hi Hg) as Hsem.
    destruct (sem st) as [|m] eqn:Esem; [lia |].
    assert (Hlt : i < length (pool st)) by (eapply lookup_lt_Some; eauto).
    assert (Hstay : forall s', holding (mkGo (g_ix g) (g_row g) s') = true ->
              in_flight (<[i := mkGo (g_ix g) (g_row g) s']> (pool st))
              = in_flight (pool st)).
    { intros s' Hs'. pose proof (in_flight_insert _ _ _ (mkGo (g_ix g) (g_row g) s') Hi) as Hins.
      rewrite Hg, Hs' in Hins. lia. }
    assert (Hadv : forall evs s',
              g_at g <> AtDefer ->
              advance p (g_ix g) (view st g) (g_at g) = (evs, s') ->
              exists n st',
                n <= S k /\ exec (repeat (AWorker i) n) st = Some st' /\
                sem st' + 1 = sem st /\ in_flight (pool st') + 1 = in_flight (pool st) /\
                pc st' = pc st /\
                exists tr, trace st' = tr ++ [Release (g_ix g)]).
    { intros evs s' Hnd Had.
      assert (Hnw : g_at g <> AtWgDone) by (apply holding_stage; exact Hg).
      assert (Hs' : holding (mkGo (g_ix g) (g_row g) s') = true).
      { apply holding_stage. simpl. eapply advance_holding; eauto. }
      pose proof (@Step_stage T p workers st i g evs s' Hi Hnd Hnw Had) as HS.
      destruct (IH _ i (mkGo (g_ix g) (g_row g) s') (slots_inv_Step _ _ Hslots HS))
        as (n & st' & Hn & Hex & H1 & H2 & H3 & tr & H4).
      - simpl. apply list_lookup_insert_eq. exact Hlt.
      - exact Hs'.
      - simpl. pose proof (advance_weight _ _ _ _ _ Had Hnd Hnw). lia.
      - exists (S n), st'. split; [lia |]. split.
        + simpl. unfold step_worker. rewrite Hi.
          destruct (g_at g) eqn:Hat; try congruence; rewrite Had; exact Hex.
        + simpl in *. rewrite (Hstay s' Hs') in H2. rewrite Esem in *. eauto 10. }
    destruct (g_at g) eqn:Hat.
    + rewrite <- Esem. eapply Hadv; [discriminate | apply surjective_pairing].
    + rewrite <- Esem. eapply Hadv; [discriminate | apply surjective_pairing].
    + rewrite <- Esem. eapply Hadv; [discriminate | apply surjective_pairing].
    + exists 1. eexists. split; [lia |]. split.
      * simpl. unfold step_worker. rewrite Hi, Hat, Esem. reflexivity.
      * simpl. split; [lia |]. split; [| eauto].
        pose proof (in_flight_insert _ _ _ (mkGo (g_ix g) (g_row g) AtWgDone) Hi) as Hins.
        rewrite Hg in Hins.
        change (holding (mkGo (g_ix g) (g_row g) AtWgDone)) with false in Hins.
        cbv iota in Hins. lia.
    + unfold holding in Hg. rewrite Hat in Hg. discriminate.
Qed.

(** *** Acquisition before dispatch *)

Lemma acquired_before_more (tr evs : list (event T)) ix :
  acquired_before tr ix -> acquired_before (tr ++ evs) ix.
Proof.
  intros (t1 & t2 & -> & Hin). exists t1, (t2 ++ evs). split; [| exact Hin].
  rewrite <- app_assoc. reflexivity.
Qed.

Lemma acquire_quiet (st st' : state T) evs :
  trace st' = trace st ++ evs -> Forall (fun ev => is_Spawn ev = false) evs ->
  (pc st' = AtRead ->
   In (Acquire (ixRow st')) evs \/ (pc st = AtRead /\ ixRow st' = ixRow st)) ->
  acquire_inv st -> acquire_inv st'.
Proof.
  intros Htr Hq Hpc [Hacq Hsp]. split.
  - intros Hr. rewrite Htr. apply in_or_app.
    destruct (Hpc Hr) as [Hin | [Hr0 Hix]]; [auto |]. left. rewrite Hix. auto.
  - intros ix Hin. rewrite Htr in *. apply in_app_or in Hin as [Hin | Hin].
    + apply acquired_before_more. auto.
    + exfalso. rewrite Forall_forall in Hq.
      apply list_elem_of_In in Hin. specialize (Hq _ Hin). discriminate.
Qed.

Lemma callbacks_no_Spawn (evs : list (event T)) :
  Forall (fun ev => is_callback ev = true) evs ->
  Forall (fun ev => is_Spawn ev = false) evs.
Proof.
  intros H. eapply Forall_impl; [exact H |]. intros ev Hc. apply bookkeeping_Spawn, Hc.
Qed.

Lemma acquire_inv_Step st st' :
  acquire_inv st -> Step p workers st st' -> acquire_inv st'.
Proof.
  intros Hinv Hs.
  assert (Hloop : forall ix, loop_head ix <> AtRead).
  { intros ix. destruct (loop_head_cases ix) as [[-> _] | [-> _]]; discriminate. }
  destruct Hs.
  7: { destruct Hinv as [Hacq Hsp]. split; simpl.
       - intros Hr. exfalso. eapply Hloop; eauto.
       - intros ix Hin. apply in_app_or in Hin as [Hin | [Hin | []]].
         + apply acquired_before_more.
           apply in_app_or in Hin as [Hin | [Hin | []]]; [| discriminate].
           apply acquired_before_more. auto.
         + injection Hin as <-.
           exists (trace st ++ [ReadCall (ixRow st) (deref ref rd) None]), [].
           split; [reflexivity |]. apply in_or_app. left. auto. }
  all: match goal with
       | |- acquire_inv (do_return _ _ _) =>
           eapply acquire_quiet with (evs := [CloseCall (closer p)])
       | |- acquire_inv (mkState _ _ _ _ _ _ _ _ (trace _)) =>
           eapply acquire_quiet with (evs := [])
       | |- acquire_inv (mkState _ _ _ _ _ _ _ _ ((trace _ ++ ?e1) ++ ?e2)) =>
           eapply acquire_quiet with (evs := e1 ++ e2)
       | |- acquire_inv (mkState _ _ _ _ _ _ _ _ (trace _ ++ ?e1)) =>
           eapply acquire_quiet with (evs := e1)
       end;
    try exact Hinv;
    try (simpl; rewrite ?app_nil_r, <- ?app_assoc; reflexivity);
    try (simpl; intros Hr;
         first [discriminate Hr | exfalso; eapply Hloop; eassumption
               | left; simpl; left; reflexivity
               | right; split; [exact Hr | reflexivity]]).
  all: try (repeat constructor; fail).
  - constructor; [reflexivity |]. apply callbacks_no_Spawn, report_callbacks.
  - eapply callbacks_no_Spawn, advance_callbacks; eauto.
Qed.

Lemma acquire_inv_reachable cancelled st : reachable cancelled st -> acquire_inv st.
Proof.
  apply reachable_ind.
  - split; [discriminate | intros ix []].
  - intros a st0 st1 Hinv Hstep. apply step_Step in Hstep.
    eapply acquire_inv_Step; eauto.
Qed.

(** ** Theorems on [Run] *)


(** C4. With W >= 1 workers, at most W rows are inside worker
    processing at any time: each of them occupies an element of the
    channel of capacity W.  A slot is acquired before a row is dispatched,
    and every dispatched row has released its slot or still holds it; when
    Run returns all have released.  The channel is accounted for exactly:
    it holds one element per row inside worker processing, one more while
    the reader stands between its acquisition and the outcome of its read,
    and the one a read at the end of the stream leaves behind.  In the
    trace the acquisition for ordinal ix stands before the dispatch of row
    ix.  A goroutine that holds a slot reaches its deferred release on
    every path through its body, whatever the callbacks return: run on its
    own it gets there within four steps, is not blocked, and the release
    takes exactly one element out of the channel. *)
Theorem slot_bound cancelled st :
  (1 <= workers)%Z -> reachable cancelled st ->
  (Z.of_nat (in_flight (pool st)) <= workers)%Z /\
  in_flight (pool st) <= sem st /\ (Z.of_nat (sem st) <= workers)%Z /\
  count is_Spawn (trace st) <= count is_Acquire (trace st) /\
  count is_Spawn (trace st) = count is_Release (trace st) + in_flight (pool st) /\
  (has_returned st = true -> count is_Release (trace st) = count is_Spawn (trace st)) /\
  sem st = in_flight (pool st) + (match pc st with AtRead => 1 | _ => 0 end)
           + count is_eof_read (trace st) /\
  (pc st = AtSelect -> sem st = in_flight (pool st)) /\
  (pc st = AtRead -> sem st = S (in_flight (pool st))) /\
  (has_returned st = true -> pool st = [] /\ sem st = count is_eof_read (trace st)) /\
  (forall ix, In (Spawn ix) (trace st) -> acquired_before (trace st) ix) /\
  (forall i g, pool st !! i = Some g -> holding g = true ->
     exists n st',
       n <= 4 /\ exec (repeat (AWorker i) n) st = Some st' /\
       sem st' + 1 = sem st /\ in_flight (pool st') + 1 = in_flight (pool st) /\
       exists tr, trace st' = tr ++ [Release (g_ix g)]).
Proof.
  intros Hw Hr.
  destruct (all_inv_reachable _ _ Hr) as ((Hwg & Hslots) & (Ha1 & Ha2 & Ha3) & _).
  pose proof (tally_inv_reachable _ _ Hr) as Htally.
  pose proof (acquire_inv_reachable _ _ Hr) as [_ Hacq].
  pose proof (slots_inv_reachable _ _ Hr) as Hsl.
  assert (Hb : in_flight (pool st) <= sem st /\ (Z.of_nat (sem st) <= workers)%Z /\
               (has_returned st = true -> in_flight (pool st) = 0 /\ pool st = [])).
  { unfold has_returned.
    destruct (pc st) as [| | | | [e|]];
      try (destruct Hslots as (_ & Hs & Hle); repeat split; try lia; discriminate).
    - destruct Hslots as [-> ->]. unfold in_flight. simpl. repeat split; try lia.
    - destruct Hslots as (_ & -> & ->). unfold in_flight. simpl. repeat split; lia.
    - destruct Hslots as (_ & -> & Hle). unfold in_flight. simpl. repeat split; lia. }
  destruct Hb as (Hb1 & Hb2 & Hb3).
  split; [lia |]. split; [lia |]. split; [lia |]. split; [lia |]. split; [lia |].
  split; [intros Hret; destruct (Hb3 Hret); lia |].
  split; [exact Htally |].
  split; [intros Hpc; rewrite Hpc in Hslots; tauto |].
  split; [intros Hpc; rewrite Hpc in Hslots; tauto |].
  split.
  { intros Hret. destruct (Hb3 Hret) as [Hz Hnil]. split; [exact Hnil |].
    unfold tally_inv in Htally. unfold has_returned in Hret.
    destruct (pc st); try discriminate. lia. }
  split; [exact Hacq |].
  intros i g Hi Hg.
  destruct (worker_reaches_release 4 st i g Hsl Hi Hg) as (n & st' & Hn & Hex & H1 & H2 & _ & H3).
  { destruct (g_at g); simpl; lia. }
  exists n, st'. auto.
Qed.

(** C7. Once the preconditions have passed, ReuseRecord is true
    exactly when workers is 1; with two workers or more it is false, each
    read returns a slice of its own, and every goroutine owns its row. *)
Theorem ReuseRecord_iff_one_worker cancelled st :
  preconditions p workers = true -> reachable cancelled st -> pc st <> AtEntry ->
  ReuseRecord (reader st) = (workers =? 1)%Z /\
  (ReuseRecord (reader st) = true <-> workers = 1%Z) /\
  ((2 <= workers)%Z ->
     ReuseRecord (reader st) = false /\
     (forall ref e rd, Read (reader st) = ((ref, e), rd) -> exists r, ref = Owned r) /\
     Forall (fun g => exists r, g_row g = Owned r) (pool st)).
Proof.
  intros Hp Hr Hpc.
  destruct (all_inv_reachable _ _ Hr) as ((_ & Hslots) & _ & _ & (Hflag & Hshared) & _).
  assert (Hf : ReuseRecord (reader st) = (workers =? 1)%Z).
  { destruct (pc st) as [| | | | [e|]]; try exact Hflag; try congruence.
    destruct Hslots as (Hp' & _). congruence. }
  split; [exact Hf |]. split; [rewrite Hf; apply Z.eqb_eq |].
  intros Hw. assert (Hne : (workers =? 1)%Z = false) by (apply Z.eqb_neq; lia).
  rewrite Hne in Hf. repeat split; [exact Hf | |].
  - intros ref e rd HR.
    apply Read_cases in HR as [(_ & _ & _ & ->) | (r & rest & _ & _ & _ & _ & Href)];
      [eauto |].
    destruct Href as [[_ Ht] | [-> _]]; [congruence | eauto].
  - eapply Forall_impl; [exact Hshared |]. intros g Hg.
    simpl in Hg. destruct (g_row g) as [r|]; [eauto |]. specialize (Hg eq_refl). lia.
Qed.

(** C3. With one worker (ReuseRecord on), the reader takes the only
    slot before each read, so a read begins only when every earlier worker
    has released its slot; hence each goroutine still at work finds in its
    row the record that was read for its ordinal, and every OnRow and
    Parse call was handed exactly that record. *)
Theorem reuse_race_safety cancelled st :
  workers = 1%Z -> preconditions p workers = true -> reachable cancelled st ->
  (pc st <> AtEntry -> ReuseRecord (reader st) = true) /\
  count is_Acquire (trace st)
  = count is_ReadCall (trace st) + (match pc st with AtRead => 1 | _ => 0 end) /\
  (pc st = AtRead -> in_flight (pool st) = 0) /\
  Forall (sees (reader st) (trace st)) (pool st) /\
  calls_ok (trace st).
Proof.
  intros Hw Hp Hr.
  destruct (all_inv_reachable _ _ Hr)
    as ((_ & Hslots) & (Hacq & _) & _ & (Hflag & _) & (Hsees & Hcalls)).
  repeat split; auto.
  - intros Hpc. destruct (pc st) as [| | | | [e|]]; try congruence;
      try (rewrite Hflag, Hw; reflexivity).
    destruct Hslots as (Hp' & _). congruence.
  - intros Hpc. rewrite Hpc in Hslots. destruct Hslots as (_ & Hsem & Hle). lia.
Qed.


(** ** Theorems on [processRow] *)

(** A goroutine of the engine whose row reads as [r] throughout runs
    exactly the body of [processRow]. *)
Lemma run_stages_processRow ix r : run_stages p 3 ix r AtOnRow = processRow p ix r.
Proof.
  unfold processRow. simpl.
  destruct (OnRow p) as [f|]; simpl; [destruct (f r); simpl |];
    (destruct (Parse p) as [parse|]; simpl;
     [destruct (parse r) as [d [e'|]]; simpl;
      [| destruct (OnData p) as [h|]; simpl; [destruct (h d); simpl |]] |]);
    try reflexivity; try (rewrite app_nil_r; reflexivity).
Qed.

(** C6, amended.  The worker calls OnRow if set; if it fails, or Parse
    is nil, it stops; else it calls Parse; if that fails, or OnData is nil,
    it stops; else it calls OnData.  The first failure, if any, goes to
    OnError once, tagged ErrOnRow, ErrParse or ErrOnData with the ordinal,
    as the last thing the worker does -- provided OnError is set: with a
    nil OnError nothing is reported. *)
Theorem worker_pipeline ix r :
  (In (CallOnRow ix r) (processRow p ix r) <-> OnRow p <> None) /\
  (In (CallParse ix r) (processRow p ix r) <->
     hook_result p r = None /\ Parse p <> None) /\
  (forall d, In (CallOnData ix d) (processRow p ix r) <->
     hook_result p r = None /\ OnData p <> None /\
     exists parse, Parse p = Some parse /\ parse r = (d, None)) /\
  reports (processRow p ix r)
  = match first_failure p r with
    | Some (tag, e) => if OnError p then [ErrLine tag ix e] else []
    | None => []
    end /\
  length (reports (processRow p ix r)) <= 1 /\
  (forall e, In (CallOnError e) (processRow p ix r) ->
             last (processRow p ix r) = Some (CallOnError e)) /\
  run_stages p 3 ix r AtOnRow = processRow p ix r.
Proof.
  split; [| split; [| split; [| split; [| split; [| split]]]]];
    [| | | | | | apply run_stages_processRow].
  all: unfold processRow, first_failure, hook_result, report.
  all: destruct (OnRow p) as [f|]; [destruct (f r) |];
    (destruct (Parse p) as [parse|];
     [destruct (parse r) as [d' [e'|]] eqn:Hparse;
      [| destruct (OnData p) as [h|]; [destruct (h d') |]] |]);
    destruct (OnError p); simpl.
  all: try lia.
  all: try reflexivity.
  all: try solve [intuition congruence].
  all: try solve [intros e0; intuition (try discriminate); congruence].
  all: intros d; split;
    [ intros H; repeat (destruct H as [H | H]; try discriminate H); try contradiction;
      injection H as <-; repeat split; try congruence;
      eexists; split; first [reflexivity | assumption]
    | intros (_ & Ho & parse0 & Hp0 & Hr0); try congruence;
      injection Hp0 as <-; rewrite Hparse in Hr0; try discriminate;
      injection Hr0 as <-; tauto ].
Qed.
End Properties.

(** * The scenarios run *)

Example scenario_A_runs :
  exec (number_parser three_rows) 1 scenario_A (init (number_parser three_rows) false)
  = Some scenario_A_final.
Proof. vm_compute. reflexivity. Qed.

Lemma scenario_A_reachable :
  reachable (number_parser three_rows) 1 false scenario_A_final.
Proof. exists scenario_A. vm_compute. reflexivity. Defined.

Lemma scenario_A_middle_reachable :
  reachable (number_parser three_rows) 1 false scenario_A_middle.
Proof. exists scenario_A_midway. vm_compute. reflexivity. Defined.

(** * Cancellation, construction and the source adapters *)

(** C2. The claim fails on the code.  With the context done before
    Run is called (valid configuration, one worker, a one-row input) the
    select has two ready cases, the receive from [ctx.Done()] and the send
    on [sem], and may take the send: the row is read, dispatched, parsed
    and handled before the loop stops, and Run returns nil. *)
Theorem cancelled_before_Run_still_reads :
  let p := number_parser [(["a"; "b"]%string, None)] in
  exists st,
    ctx_done (init p true) = true /\
    exec p 1 scenario_E (init p true) = Some st /\
    pc st = Returned None /\
    row_reads (trace st) = [(1%Z, (["a"; "b"]%string, None))] /\
    In (CallOnData 1 ("a", "b")%string) (trace st).
Proof.
  eexists. split; [reflexivity |]. split; [vm_compute; reflexivity |].
  simpl. split; [reflexivity |]. split; [reflexivity |]. simpl. tauto.
Qed.

(** C6 as stated fails: a worker whose step fails reports nothing when
    OnError is nil. *)
Lemma failure_without_OnError_not_reported :
  ~ (forall (T : Type) (p : Parser T) (ix : Z) (r : row),
        first_failure p r <> None -> length (reports (processRow p ix r)) = 1).
Proof.
  intros H. specialize (H unit silent_parser 7%Z ["x"%string]).
  vm_compute in H. assert (E : 0 = 1) by (apply H; discriminate). discriminate E.
Qed.

(** C8. The stream that [New] obtained from [Open] is the parser's
    [closer]; whatever the caller then configures, Run calls Close on it
    exactly once, as it returns, on every path, and not before; and Run
    does return. *)
Theorem stream_closed_once_by_Run
        {T S : Type} `{Stream S} (tokenize : io_ReadCloser -> list (row * option error))
        (stream : S) (w w' : world) (p0 : Parser T) :
  New tokenize stream w = ((Some p0, None), w') ->
  Open stream w = ((closer p0, None), w') /\
  forall (p : Parser T) (workers : Z) (cancelled : bool) (st : state T),
    closer p = closer p0 -> reachable p workers cancelled st ->
    closes st = (if has_returned st then 1 else 0) /\
    count is_CloseCall (trace st) = closes st /\
    (forall c, In (CloseCall c) (trace st) -> c = closer p0) /\
    (exists acts st', exec p workers acts st = Some st' /\ has_returned st' = true).
Proof.
  unfold New. intros HN.
  destruct (Open stream w) as [[r [e|]] w1] eqn:HO; [discriminate |].
  injection HN as <- <-. simpl. split; [reflexivity |].
  intros p workers cancelled st Hc Hr. rewrite <- Hc. apply (close_once _ _ _ _ Hr).
Qed.

(** C9. Opening a ReadStream never fails: the result is the reader
    itself when it has a Close method, else the reader under a no-op
    Close; never nil, never an error; so [New] succeeds on it. *)
Theorem ReadStream_Open_succeeds (r : io_Reader) (w : world) :
  Open (ReadStream r) w
  = ((if supports_Close r then Same r else NopCloser r, None), w) /\
  fst (fst (Open (ReadStream r) w)) <> nilReadCloser /\
  snd (fst (Open (ReadStream r) w)) = None /\
  forall (T : Type) (tokenize : io_ReadCloser -> list (row * option error)),
  exists p : Parser T,
    New tokenize (ReadStream r) w = ((Some p, None), w) /\
    closer p = (if supports_Close r then Same r else NopCloser r).
Proof.
  unfold New, Open, readerAdapter_Stream, ReadStream, readerAdapter_Open.
  destruct r as [| id [|]]; simpl; repeat split; try discriminate;
    intros T tokenize; eexists; split; reflexivity.
Qed.

(** ** File extensions *)

Lemma list_ascii_of_string_app (s1 s2 : string) :
  list_ascii_of_string (s1 ++ s2) = list_ascii_of_string s1 ++ list_ascii_of_string s2.
Proof. induction s1 as [|c s1 IH]; simpl; [reflexivity | rewrite IH; reflexivity]. Qed.

Lemma Ext_of_gz (path : string) :
  ends_in_gz path -> ToLower (filepath_Ext path) = ".gz"%string.
Proof.
  intros (pre & g & z & -> & Hg & Hz). unfold filepath_Ext.
  rewrite list_ascii_of_string_app. simpl. rewrite rev_app_distr. simpl.
  destruct Hg as [-> | ->], Hz as [-> | ->]; reflexivity.
Qed.

Lemma remove_fd_gone (fd : nat) (l : list nat) : ~ In fd (remove_fd fd l).
Proof.
  induction l as [|x l IH]; simpl; [tauto |].
  destruct (Nat.eqb x fd) eqn:E; [exact IH |].
  apply Nat.eqb_neq in E. simpl. tauto.
Qed.

Lemma remove_fd_subset (fd x : nat) (l : list nat) : In x (remove_fd fd l) -> In x l.
Proof.
  induction l as [|y l IH]; simpl; [tauto |].
  destruct (Nat.eqb y fd); simpl; tauto.
Qed.

(** C10. For a path ending in ".gz" in any case, when the file opens
    and the gzip decoder rejects it, Open returns the gzip error with a nil
    stream, having closed the file it had opened: that descriptor is not
    open afterwards, and no descriptor is open that was not open before. *)
Theorem FileStream_gz_failure_closes_file
        (gzip_header_ok : string -> bool) (path bytes : string) (w : world) :
  ends_in_gz path -> files w path = Some bytes -> gzip_header_ok bytes = false ->
  exists e w',
    FileStream_Open gzip_header_ok (mkFileStream path) w
    = ((nilReadCloser, Some (ErrGzipFailed path e)), w') /\
    fst (fst (os_Open path w)) = File (next_fd w) path /\
    w' = Close (File (next_fd w) path) (snd (os_Open path w)) /\
    ~ In (next_fd w) (open_fds w') /\
    (forall fd, In fd (open_fds w') -> In fd (open_fds w)).
Proof.
  intros Hgz Hfile Hbad. unfold FileStream_Open, os_Open.
  rewrite (Ext_of_gz _ Hgz), Hfile. simpl. rewrite Hfile, Hbad. simpl.
  eexists. eexists. split; [reflexivity |]. split; [reflexivity |].
  split; [reflexivity |]. simpl. rewrite Nat.eqb_refl. split.
  - apply remove_fd_gone.
  - intros fd. apply remove_fd_subset.
Qed.

(** * The theorems at work on the scenarios *)


Lemma reuse_race_safety_witness :
  1%Z = 1%Z /\ preconditions (number_parser three_rows) 1 = true /\
  reachable (number_parser three_rows) 1 false scenario_A_middle /\
  in_flight (pool scenario_A_middle) = 1 /\
  calls_ok (trace scenario_A_middle).
Proof.
  split; [reflexivity |]. split; [reflexivity |].
  split; [exact scenario_A_middle_reachable |]. split; [reflexivity |].
  apply (reuse_race_safety (number_parser three_rows) 1 false scenario_A_middle);
    [reflexivity | reflexivity | exact scenario_A_middle_reachable].
Defined.

Lemma slot_bound_witness :
  (1 <= 1)%Z /\ reachable (number_parser three_rows) 1 false scenario_A_middle /\
  (Z.of_nat (in_flight (pool scenario_A_middle)) <= 1)%Z /\
  sem scenario_A_middle = in_flight (pool scenario_A_middle) /\
  exists n st',
    n <= 4 /\
    exec (number_parser three_rows) 1 (repeat (AWorker 0) n) scenario_A_middle = Some st' /\
    sem st' + 1 = sem scenario_A_middle /\
    in_flight (pool st') + 1 = in_flight (pool scenario_A_middle).
Proof.
  split; [lia |]. split; [exact scenario_A_middle_reachable |].
  destruct (slot_bound (number_parser three_rows) 1 false scenario_A_middle)
    as (Hbound & _ & _ & _ & _ & _ & _ & Hsel & _ & _ & _ & Hrel);
    [lia | exact scenario_A_middle_reachable |].
  split; [exact Hbound |]. split; [apply Hsel; reflexivity |].
  edestruct (Hrel 0) as (n & st' & Hn & Hex & Hsem & Hfl & _);
    [reflexivity | reflexivity |].
  exists n, st'. auto.
Defined.



Lemma ReuseRecord_iff_one_worker_witness :
  preconditions (number_parser three_rows) 1 = true /\
  reachable (number_parser three_rows) 1 false scenario_A_middle /\
  pc scenario_A_middle <> AtEntry /\
  ReuseRecord (reader scenario_A_middle) = true.
Proof.
  split; [reflexivity |]. split; [exact scenario_A_middle_reachable |].
  split; [discriminate |].
  assert (Hpc : pc scenario_A_middle <> AtEntry) by discriminate.
  exact (proj1 (ReuseRecord_iff_one_worker (number_parser three_rows) 1 false
                  scenario_A_middle eq_refl scenario_A_middle_reachable Hpc)).
Defined.

Lemma stream_closed_once_by_Run_witness :
  New (T := string * string) (fun _ => three_rows) (ReadStream (UserReader 0 false))
      one_file_world
  = ((Some (mkParser (NopCloser (UserReader 0 false)) (mkReader three_rows false [])
                     None None None false), None), one_file_world) /\
  closes scenario_A_final = 1 /\ closes scenario_A_middle = 0.
Proof.
  split; [reflexivity |].
  pose proof (stream_closed_once_by_Run (T := string * string) (fun _ => three_rows)
                (ReadStream (UserReader 0 false)) one_file_world one_file_world
                (mkParser (NopCloser (UserReader 0 false)) (mkReader three_rows false [])
                          None None None false) eq_refl) as [_ Hrun].
  split.
  - apply (Hrun (number_parser three_rows) 1%Z false scenario_A_final eq_refl
                scenario_A_reachable).
  - apply (Hrun (number_parser three_rows) 1%Z false scenario_A_middle eq_refl
                scenario_A_middle_reachable).
Defined.

Lemma rows_csv_GZ_ends_in_gz : ends_in_gz "rows.csv.GZ".
Proof.
  exists "rows.csv"%string, "G"%char, "Z"%char.
  split; [reflexivity |]. split; right; reflexivity.
Defined.

Lemma FileStream_gz_failure_closes_file_witness :
  ends_in_gz "rows.csv.GZ" /\
  files one_file_world "rows.csv.GZ" = Some "1,one"%string /\
  gzip_magic "1,one" = false /\
  exists e w',
    FileStream_Open gzip_magic (mkFileStream "rows.csv.GZ") one_file_world
    = ((nilReadCloser, Some (ErrGzipFailed "rows.csv.GZ" e)), w') /\
    fst (fst (os_Open "rows.csv.GZ" one_file_world)) = File 3 "rows.csv.GZ" /\
    w' = Close (File 3 "rows.csv.GZ") (snd (os_Open "rows.csv.GZ" one_file_world)) /\
    ~ In 3 (open_fds w') /\
    (forall fd, In fd (open_fds w') -> In fd (open_fds one_file_world)).
Proof.
  split; [exact rows_csv_GZ_ends_in_gz |]. split; [reflexivity |].
  split; [reflexivity |].
  exact (FileStream_gz_failure_closes_file gzip_magic "rows.csv.GZ" "1,one" one_file_world
           rows_csv_GZ_ends_in_gz eq_refl eq_refl).
Defined.

(** * Rows through the engine *)

Section MoreProperties.
Context {T : Type}.
Variable p : Parser T.
Variable workers : Z.

Local Abbreviation step := (step p workers).
Local Abbreviation exec := (exec p workers).
Local Abbreviation reachable := (reachable p workers).
Local Abbreviation slots_inv := (slots_inv p workers).
Local Abbreviation reuse_inv := (reuse_inv workers).
Local Abbreviation all_inv := (all_inv p workers).
Local Abbreviation work_inv := (work_inv p).
Local Abbreviation on_track := (on_track p).
Local Abbreviation dispatch_inv := (dispatch_inv p).
Local Abbreviation reports_inv := (reports_inv p).

(** *** Projections of the trace *)

Lemma events_about_app ix (l1 l2 : list (event T)) :
  events_about ix (l1 ++ l2) = events_about ix l1 ++ events_about ix l2.
Proof.
  induction l1 as [|e l1 IH]; simpl; [reflexivity |].
  destruct (about ix e); simpl; rewrite IH; reflexivity.
Qed.

Lemma read_ixs_app (l1 l2 : list (event T)) :
  read_ixs (l1 ++ l2) = read_ixs l1 ++ read_ixs l2.
Proof.
  induction l1 as [|e l1 IH]; simpl; [reflexivity |].
  destruct e; simpl; rewrite IH; reflexivity.
Qed.

Lemma ok_reads_app (l1 l2 : list (event T)) :
  ok_reads (l1 ++ l2) = ok_reads l1 ++ ok_reads l2.
Proof.
  induction l1 as [|e l1 IH]; simpl; [reflexivity |].
  destruct e as [| ? ? [?|] | | | | | | |]; simpl; rewrite IH; reflexivity.
Qed.

Lemma failed_reads_app (l1 l2 : list (event T)) :
  failed_reads (l1 ++ l2) = failed_reads l1 ++ failed_reads l2.
Proof.
  induction l1 as [|e l1 IH]; simpl; [reflexivity |].
  destruct e as [| ? ? [e0|] | | | | | | |]; simpl; try (rewrite IH; reflexivity).
  destruct (errors_Is_EOF e0); simpl; rewrite IH; reflexivity.
Qed.

Lemma spawned_app (l1 l2 : list (event T)) :
  spawned (l1 ++ l2) = spawned l1 ++ spawned l2.
Proof.
  induction l1 as [|e l1 IH]; simpl; [reflexivity |].
  destruct e; simpl; rewrite IH; reflexivity.
Qed.

Lemma read_reports_app (l1 l2 : list (event T)) :
  read_reports (l1 ++ l2) = read_reports l1 ++ read_reports l2.
Proof.
  induction l1 as [|e l1 IH]; simpl; [reflexivity |].
  destruct e as [| | | | | | e0 | |]; simpl; try exact IH.
  destruct e0; simpl; rewrite IH; reflexivity.
Qed.

(** The callbacks leave no mark on the reader's bookkeeping. *)
Lemma callbacks_no_reads (evs : list (event T)) :
  Forall (fun ev => is_callback ev = true) evs ->
  read_ixs evs = [] /\ ok_reads evs = [] /\ failed_reads evs = [] /\ spawned evs = [] /\
  (forall ix r e, ~ In (ReadCall ix r e) evs).
Proof.
  intros H. induction H as [|ev evs Hev _ (I1 & I2 & I3 & I4 & I5)]; simpl.
  - repeat split; auto.
  - destruct ev; try discriminate; repeat split; auto;
      intros ix' r' e' [Hd | Hin]; try discriminate; eapply I5; eauto.
Qed.

Lemma In_read_ixs (tr : list (event T)) ix r e :
  In (ReadCall ix r e) tr -> In ix (read_ixs tr).
Proof.
  induction tr as [|ev tr IH]; simpl; [tauto |].
  intros [-> | Hin]; [simpl; auto |]. destruct ev; simpl; auto.
Qed.

Lemma read_ixs_unique (tr : list (event T)) ix r e r' e' :
  NoDup (read_ixs tr) ->
  In (ReadCall ix r e) tr -> In (ReadCall ix r' e') tr -> r = r' /\ e = e'.
Proof.
  induction tr as [|ev tr IH]; simpl; [tauto |].
  intros Hnd [-> | H1] [H2 | H2].
  - injection H2 as -> ->. auto.
  - simpl in Hnd. apply NoDup_cons in Hnd as [Hnot _].
    exfalso. apply Hnot. apply list_elem_of_In. eapply In_read_ixs; eauto.
  - subst ev. simpl in Hnd. apply NoDup_cons in Hnd as [Hnot _].
    exfalso. apply Hnot. apply list_elem_of_In. eapply In_read_ixs; eauto.
  - apply IH; auto. destruct ev; simpl in Hnd; auto.
    apply NoDup_cons in Hnd as [_ Hnd]. exact Hnd.
Qed.

Lemma In_ordinals k ix : In ix (ordinals k) -> (0 < ix <= Z.of_nat k)%Z.
Proof.
  unfold ordinals. rewrite in_map_iff. intros (n & <- & Hn).
  apply in_seq in Hn. lia.
Qed.

Lemma NoDup_ordinals k : NoDup (ordinals k).
Proof.
  induction k as [|k IH]; [constructor |].
  rewrite ordinals_S. apply NoDup_app. split; [exact IH |]. split.
  - intros x Hx Hx'. apply list_elem_of_In, In_ordinals in Hx.
    apply list_elem_of_singleton in Hx'. lia.
  - apply NoDup_singleton.
Qed.

(** *** The stages against the body *)

Lemma run_stages_S n ix r (s : stage T) :
  run_stages p (S n) ix r s
  = match s with
    | AtDefer | AtWgDone => []
    | _ => let '(evs, s') := advance p ix r s in evs ++ run_stages p n ix r s'
    end.
Proof. reflexivity. Qed.

Lemma run_stages_fuel ix r : forall n (s : stage T),
  stage_weight s <= n + 2 -> run_stages p n ix r s = run_stages p (S n) ix r s.
Proof.
  induction n as [|n IH]; intros s Hs.
  - destruct s; simpl in Hs; try lia; reflexivity.
  - rewrite (run_stages_S (S n)), (run_stages_S n).
    destruct s; try reflexivity.
    all: match goal with
         | |- context [advance ?p0 ?i0 ?r0 ?s0] =>
             destruct (advance p0 i0 r0 s0) as [evs s'] eqn:Hadv
         end.
    all: f_equal; apply IH;
      pose proof (advance_weight p _ _ _ _ _ Hadv) as Hw;
      simpl in Hs, Hw;
      assert (stage_weight s' < n + 3)
        by (eapply Nat.lt_le_trans; [apply Hw; discriminate | lia]); lia.
Qed.

(** One stage of a goroutine at work is the head of what remains of
    the body. *)
Lemma run_stages_advance ix r (s s' : stage T) evs :
  s <> AtDefer -> s <> AtWgDone -> advance p ix r s = (evs, s') ->
  run_stages p 3 ix r s = evs ++ run_stages p 3 ix r s'.
Proof.
  intros H1 H2 Hadv. rewrite (run_stages_S 2).
  pose proof (advance_weight p _ _ _ _ _ Hadv H1 H2) as Hw.
  rewrite Hadv.
  assert (E : run_stages p 2 ix r s' = run_stages p 3 ix r s').
  { apply run_stages_fuel. destruct s; simpl in Hw; try congruence; lia. }
  destruct s; try congruence; rewrite E; reflexivity.
Qed.

Lemma run_stages_done ix r (s : stage T) :
  s = AtDefer \/ s = AtWgDone -> run_stages p 3 ix r s = [].
Proof. intros [-> | ->]; reflexivity. Qed.

Lemma about_report_read ix ix' e :
  events_about ix (report p (ErrReadLine ix' e)) = [].
Proof. unfold report. destruct (OnError p); reflexivity. Qed.

Lemma about_report_line ix ix' tag e :
  events_about ix' (report p (ErrLine tag ix e))
  = if (ix =? ix')%Z then report p (ErrLine tag ix e) else [].
Proof.
  unfold report. destruct (OnError p); simpl; destruct (ix =? ix')%Z; reflexivity.
Qed.

(** The events of a stage are all about the goroutine's own row. *)
Lemma advance_about ix seen (s s' : stage T) evs ix' :
  advance p ix seen s = (evs, s') ->
  events_about ix' evs = if (ix =? ix')%Z then evs else [].
Proof.
  intros H. destruct s; simpl in H;
    repeat (match type of H with
            | context [match ?x with _ => _ end] => destruct x
            end); inversion H; subst; clear H; simpl;
    try rewrite about_report_line; destruct (ix =? ix')%Z; reflexivity.
Qed.

Lemma advance_reports ix seen (s s' : stage T) evs e :
  advance p ix seen s = (evs, s') -> In (CallOnError e) evs ->
  OnError p = true /\ exists tag cause, e = ErrLine tag ix cause.
Proof.
  intros H Hin. destruct s; simpl in H;
    repeat (match type of H with
            | context [match ?x with _ => _ end] => destruct x
            end); inversion H; subst; clear H; unfold report in Hin;
    destruct (OnError p); simpl in Hin;
    repeat match goal with
           | H : _ \/ _ |- _ => destruct H
           | H : False |- _ => contradiction
           | H : CallOnError _ = CallOnError _ |- _ => injection H as <-; eauto
           | H : @eq (event T) _ _ |- _ => discriminate H
           end.
Qed.

Lemma advance_read_reports ix seen (s s' : stage T) evs :
  advance p ix seen s = (evs, s') -> read_reports evs = [].
Proof.
  intros H. destruct s; simpl in H;
    repeat (match type of H with
            | context [match ?x with _ => _ end] => destruct x
            end); inversion H; subst; clear H; unfold report;
    destruct (OnError p); reflexivity.
Qed.

(** A list around its [i]-th element. *)
Lemma pool_split {A : Type} (l : list A) i x :
  l !! i = Some x ->
  exists l1 l2, l = l1 ++ x :: l2 /\
                (forall y, <[i := y]> l = l1 ++ y :: l2) /\
                delete i l = l1 ++ l2.
Proof.
  intros H. exists (take i l), (drop (S i) l). split; [| split].
  - symmetry. apply take_drop_middle. exact H.
  - intros y. apply insert_take_drop. eapply lookup_lt_Some; eauto.
  - apply delete_take_drop.
Qed.

(** *** The numbering of reads *)

Lemma quiet_events (evs : list (event T)) :
  Forall (fun ev => is_ReadCall ev = false) evs ->
  read_ixs evs = [] /\ forall ix r e, ~ In (ReadCall ix r e) evs.
Proof.
  intros H. induction H as [|ev evs Hev _ [I1 I2]]; simpl; [auto |].
  destruct ev; try discriminate; split; auto;
    intros ix' r' e' [Hd | Hin]; try discriminate; eapply I2; eauto.
Qed.

Lemma callbacks_quiet (evs : list (event T)) :
  Forall (fun ev => is_callback ev = true) evs ->
  Forall (fun ev => is_ReadCall ev = false) evs.
Proof.
  intros H. eapply Forall_impl; [exact H |]. intros ev Hev.
  apply bookkeeping_ReadCall. exact Hev.
Qed.

Lemma numbered_quiet (tr evs : list (event T)) :
  Forall (fun ev => is_ReadCall ev = false) evs ->
  read_ixs tr = ordinals (length (read_ixs tr)) /\
  (forall ix r e, In (ReadCall ix r e) tr -> at_eof e = true ->
                  ix = Z.of_nat (length (read_ixs tr))) ->
  read_ixs (tr ++ evs) = ordinals (length (read_ixs (tr ++ evs))) /\
  (forall ix r e, In (ReadCall ix r e) (tr ++ evs) -> at_eof e = true ->
                  ix = Z.of_nat (length (read_ixs (tr ++ evs)))).
Proof.
  intros Hq [Hord Heof]. destruct (quiet_events _ Hq) as [Hnil Hno].
  rewrite read_ixs_app, Hnil, app_nil_r. split; [exact Hord |].
  intros ix r e Hin. apply in_app_or in Hin as [Hin | Hin]; [eauto |].
  exfalso. eapply Hno; eauto.
Qed.

Lemma no_eof_quiet (tr evs : list (event T)) :
  Forall (fun ev => is_ReadCall ev = false) evs ->
  (forall ix r e, In (ReadCall ix r e) tr -> at_eof e = false) ->
  forall ix r e, In (ReadCall ix r e) (tr ++ evs) -> at_eof e = false.
Proof.
  intros Hq Hno ix r e Hin. destruct (quiet_events _ Hq) as [_ Hnone].
  apply in_app_or in Hin as [Hin | Hin]; [eauto |]. exfalso. eapply Hnone; eauto.
Qed.

Lemma numbered_read (tr : list (event T)) ix r e :
  read_ixs tr = ordinals (length (read_ixs tr)) ->
  (forall ix r e, In (ReadCall ix r e) tr -> at_eof e = false) ->
  ix = Z.of_nat (S (length (read_ixs tr))) ->
  read_ixs (tr ++ [ReadCall ix r e])
  = ordinals (length (read_ixs (tr ++ [ReadCall ix r e]))) /\
  (forall ix' r' e', In (ReadCall ix' r' e') (tr ++ [ReadCall ix r e]) ->
                     at_eof e' = true ->
                     ix' = Z.of_nat (length (read_ixs (tr ++ [ReadCall ix r e])))) /\
  length (read_ixs (tr ++ [ReadCall ix r e])) = S (length (read_ixs tr)).
Proof.
  intros Hord Hno Hix. rewrite read_ixs_app. simpl.
  assert (Hlen : length (read_ixs tr ++ [ix]) = S (length (read_ixs tr))).
  { rewrite length_app. simpl. lia. }
  rewrite Hlen, ordinals_S, <- Hord, <- Hix. repeat split.
  intros ix' r' e' Hin He. apply in_app_or in Hin as [Hin | [Hin | []]].
  - rewrite (Hno _ _ _ Hin) in He. discriminate.
  - injection Hin as <- <- <-. reflexivity.
Qed.

Lemma no_eof_read (tr : list (event T)) ix r e :
  (forall ix r e, In (ReadCall ix r e) tr -> at_eof e = false) ->
  at_eof e = false ->
  forall ix' r' e', In (ReadCall ix' r' e') (tr ++ [ReadCall ix r e]) -> at_eof e' = false.
Proof.
  intros Hno He ix' r' e' Hin. apply in_app_or in Hin as [Hin | [Hin | []]]; [eauto |].
  injection Hin as <- <- <-. exact He.
Qed.

Ltac quiet :=
  first [ apply callbacks_quiet;
          first [ apply report_callbacks | eapply advance_callbacks; eassumption ]
        | repeat constructor ].

Ltac regroup :=
  match goal with
  | |- ?A /\ ?B /\ ?C =>
      cut ((A /\ B) /\ C); [intros [[? ?] ?]; split; [| split]; assumption | split]
  end.

Lemma fresh_inv_Step st st' :
  fresh_inv st -> Step p workers st st' -> fresh_inv st'.
Proof.
  intros (Hord & Heof & Hpc) Hs. unfold fresh_inv.
  destruct Hs; simpl; use_pc.
  - regroup; [| exact I]. apply numbered_quiet; [quiet | auto].
  - split; [exact Hord |]. split; [exact Heof |]. rewrite Hpc. simpl.
    repeat split; [unfold max_int, int_bits; simpl; lia |].
    intros ix r e Hin. apply In_read_ixs in Hin. rewrite Hpc in Hin. destruct Hin.
  - auto.
  - destruct Hpc as (Hix & Hle & Hno). regroup.
    + apply numbered_quiet; [quiet | auto].
    + rewrite read_ixs_app. simpl. rewrite app_nil_r.
      repeat split; auto. apply no_eof_quiet; [quiet | exact Hno].
  - destruct Hpc as (Hix & Hle & Hno).
    destruct (numbered_read (trace st) (ixRow st) (deref ref rd) (Some e) Hord Hno Hix)
      as (G1 & G2 & _). auto.
  - destruct Hpc as (Hix & Hle & Hno).
    destruct (numbered_read (trace st) (ixRow st) (deref ref rd) (Some e) Hord Hno Hix)
      as (G1 & G2 & G3).
    regroup; [apply numbered_quiet; [quiet | auto] |].
    rewrite read_ixs_app.
    destruct (quiet_events (report p (ErrReadLine (ixRow st) e))) as [-> _]; [quiet |].
    rewrite app_nil_r, G3.
    destruct (loop_head_cases (incr (ixRow st))) as [[-> Hpos] | [-> _]]; [| exact I].
    destruct (incr_cases (ixRow st)) as [[Hlt ->] | [_ Hneg]]; [lia | | lia].
    repeat split; [lia | lia |].
    apply no_eof_quiet; [quiet |]. apply no_eof_read; auto.
  - destruct Hpc as (Hix & Hle & Hno).
    destruct (numbered_read (trace st) (ixRow st) (deref ref rd) None Hord Hno Hix)
      as (G1 & G2 & G3).
    regroup; [apply numbered_quiet; [quiet | auto] |].
    rewrite read_ixs_app. simpl. rewrite app_nil_r, G3.
    destruct (loop_head_cases (incr (ixRow st))) as [[-> Hpos] | [-> _]]; [| exact I].
    destruct (incr_cases (ixRow st)) as [[Hlt ->] | [_ Hneg]]; [lia | | lia].
    repeat split; [lia | lia |].
    apply no_eof_quiet; [quiet |]. apply no_eof_read; auto.
  - regroup; [| exact I]. apply numbered_quiet; [quiet | auto].
  - regroup; [apply numbered_quiet; [quiet | auto] |].
    rewrite read_ixs_app.
    destruct (quiet_events evs) as [-> _]; [quiet |]. rewrite app_nil_r.
    destruct (pc st) as [| | | | [e0|]]; auto;
      destruct Hpc as (Hix & Hle & Hno); repeat split; auto;
      (apply no_eof_quiet; [quiet | exact Hno]).
  - regroup; [apply numbered_quiet; [quiet | auto] |].
    rewrite read_ixs_app. simpl. rewrite app_nil_r.
    destruct (pc st) as [| | | | [e0|]]; auto;
      destruct Hpc as (Hix & Hle & Hno); repeat split; auto;
      (apply no_eof_quiet; [quiet | exact Hno]).
  - auto.
  - auto.
Qed.

(** *** Dispatch and the reader's reports *)

Lemma read_reports_report ix e :
  read_reports (report p (ErrReadLine ix e))
  = if OnError p then [ErrReadLine ix e] else [].
Proof. unfold report. destruct (OnError p); reflexivity. Qed.

Lemma dispatch_inv_Step st st' :
  dispatch_inv st -> Step p workers st st' -> dispatch_inv st'.
Proof.
  intros (Hsp & Hrep) Hs. unfold dispatch_inv.
  destruct Hs; simpl;
    repeat rewrite spawned_app; repeat rewrite ok_reads_app;
    repeat rewrite failed_reads_app; repeat rewrite read_reports_app; simpl;
    try (destruct (callbacks_no_reads _ (report_callbacks p (ErrReadLine (ixRow st) e)))
           as (_ & -> & -> & -> & _));
    try (destruct (callbacks_no_reads _ (advance_callbacks p _ _ _ _ _ H2))
           as (_ & -> & -> & -> & _);
         rewrite (advance_read_reports _ _ _ _ _ H2));
    try rewrite read_reports_report;
    try rewrite H1;
    repeat rewrite app_nil_r; repeat rewrite map_app; simpl;
    try (split; assumption).
  - split; [exact Hsp |]. rewrite Hrep. destruct (OnError p); reflexivity.
  - split; [rewrite Hsp; reflexivity | exact Hrep].
Qed.

Lemma reports_inv_Step st st' :
  reports_inv st -> Step p workers st st' -> reports_inv st'.
Proof.
  intros Hinv Hs. unfold reports_inv in *.
  assert (Hmono : forall (evs : list (event T)) e0,
             In (CallOnError e0) (trace st) ->
             OnError p = true /\
             ((exists ix cause r, e0 = ErrReadLine ix cause /\
                                  In (ReadCall ix r (Some cause)) (trace st ++ evs) /\
                                  errors_Is_EOF cause = false) \/
              (exists tag ix cause, e0 = ErrLine tag ix cause))).
  { intros evs e0 Hin. destruct (Hinv e0 Hin) as [Ho [(ix & c & r & -> & Hr & Hc) | Hw]].
    - split; [exact Ho |]. left. exists ix, c, r. repeat split; auto.
      apply in_or_app. left. exact Hr.
    - split; [exact Ho |]. right. exact Hw. }
  destruct Hs; simpl; try exact Hinv; intros e0 Hin.
  all: repeat match goal with
              | H : In _ (_ ++ _) |- _ => apply in_app_or in H as [H | H]
              end.
  all: try (rewrite <- app_assoc; apply Hmono; assumption).
  all: try (rewrite <- (app_nil_r (trace st)); apply (Hmono []); assumption).
  all: try (apply Hmono; assumption).
  all: try (simpl in Hin; destruct Hin as [Hin | []]; discriminate Hin).
  - unfold report in Hin. destruct (OnError p) eqn:Ho; simpl in Hin;
      [| contradiction].
    destruct Hin as [Hin | []]. injection Hin as <-. split; [reflexivity |].
    left. exists (ixRow st), e, (deref ref rd). repeat split; auto.
    apply in_or_app. left. apply in_or_app. right. left. reflexivity.
  - destruct (advance_reports _ _ _ _ _ _ H2 Hin) as (Ho & tag & c & ->).
    split; [exact Ho |]. right. eauto.
Qed.

(** *** Every row runs the body of processRow, once *)

Lemma on_track_keep (st st' : state T) (g : goroutine T) :
  on_track st g ->
  (forall ix r, In (ReadCall ix r None) (trace st) -> In (ReadCall ix r None) (trace st')) ->
  events_about (g_ix g) (trace st') = events_about (g_ix g) (trace st) ->
  (holding g = true -> view st' g = view st g) ->
  on_track st' g.
Proof.
  intros (r & Hin & Hv & He) Hmono Hev Hview. exists r. split; [auto |]. split.
  - intros Hh. rewrite (Hview Hh). auto.
  - rewrite Hev. exact He.
Qed.

Lemma rowless_one (ev : event T) :
  is_callback ev = false -> is_ReadCall ev = false -> rowless [ev].
Proof.
  intros H1 H2. split.
  - intros ix. destruct ev; simpl in *; try discriminate; reflexivity.
  - intros ix r [Hd | []]. subst ev. discriminate.
Qed.

Lemma rowless_failed_read ix r e : rowless [ReadCall ix r (Some e) : event T].
Proof. split; [reflexivity |]. intros ix' r' [Hd | []]. discriminate. Qed.

Lemma rowless_report ix e : rowless (report p (ErrReadLine ix e)).
Proof.
  split; [intros ix'; apply about_report_read |].
  intros ix' r Hin. destruct (callbacks_no_reads _ (report_callbacks p (ErrReadLine ix e)))
    as (_ & _ & _ & _ & Hno). eapply Hno; eauto.
Qed.

Lemma rowless_app (l1 l2 : list (event T)) : rowless l1 -> rowless l2 -> rowless (l1 ++ l2).
Proof.
  intros [A1 B1] [A2 B2]. split.
  - intros ix. rewrite events_about_app, A1, A2. reflexivity.
  - intros ix r Hin. apply in_app_or in Hin as [Hin | Hin]; [eapply B1 | eapply B2]; eauto.
Qed.

Lemma rowless_nil : rowless ([] : list (event T)).
Proof. split; [reflexivity | intros ix r []]. Qed.

(** The goroutines at work read the same fields before and after a call
    of [Read]. *)
Lemma read_same_view (st : state T) ref e rd' :
  sem st = S (in_flight (pool st)) -> (Z.of_nat (sem st) <= workers)%Z ->
  Forall (fun g => g_row g = Shared -> workers = 1%Z) (pool st) ->
  Read (reader st) = ((ref, e), rd') ->
  Forall (fun g => holding g = true ->
                   deref (g_row g) rd' = deref (g_row g) (reader st)) (pool st).
Proof.
  intros Hsem Hle Hshared HR.
  assert (Hidle : workers = 1%Z -> Forall (fun g => holding g = false) (pool st)).
  { intros Hw. apply in_flight_zero. lia. }
  rewrite Forall_forall in *. intros g Hg Hh. specialize (Hshared g Hg).
  destruct (g_row g) as [r |] eqn:Hrow; simpl in *; [reflexivity |].
  specialize (Hidle (Hshared eq_refl)). rewrite (Hidle g Hg) in Hh. discriminate.
Qed.

Lemma NoDup_middle {A : Type} (l1 l2 : list A) (x : A) :
  NoDup (l1 ++ x :: l2) <-> ~ In x (l1 ++ l2) /\ NoDup (l1 ++ l2).
Proof.
  rewrite <- list_elem_of_In. induction l1 as [|a l1 IH]; simpl.
  - rewrite NoDup_cons. tauto.
  - rewrite !NoDup_cons, IH, !elem_of_app, !elem_of_cons, !elem_of_app.
    intuition congruence.
Qed.

(** Steps that touch no row and leave the pool alone. *)
Lemma work_quiet (st st' : state T) evs :
  trace st' = trace st ++ evs -> rowless evs -> pool st' = pool st ->
  Forall (fun g => holding g = true -> view st' g = view st g) (pool st) ->
  work_inv st -> work_inv st'.
Proof.
  intros Htr [Hab Hno] Hpool Hview (ND & Htrack & Hfin & Hany).
  assert (Hmono : forall ix r, In (ReadCall ix r None) (trace st) ->
                               In (ReadCall ix r None) (trace st')).
  { intros ix r Hin. rewrite Htr. apply in_or_app. auto. }
  assert (Hback : forall ix r, In (ReadCall ix r None) (trace st') ->
                               In (ReadCall ix r None) (trace st)).
  { intros ix r Hin. rewrite Htr in Hin. apply in_app_or in Hin as [Hin | Hin]; auto.
    exfalso. eapply Hno; eauto. }
  assert (Hev : forall ix, events_about ix (trace st') = events_about ix (trace st)).
  { intros ix. rewrite Htr, events_about_app, Hab, app_nil_r. reflexivity. }
  unfold work_inv. rewrite Hpool. split; [exact ND |]. split; [| split].
  - pose proof (conj Htrack Hview) as Hboth. rewrite <- Forall_and in Hboth.
    eapply Forall_impl; [exact Hboth |]. intros g [Hg Hv]. simpl in Hv.
    eapply on_track_keep; eauto.
  - intros ix r Hin. rewrite Hev. apply Hfin. auto.
  - intros ix. rewrite Hev. destruct (Hany ix) as [[r Hr] | Hnil]; eauto.
Qed.

Lemma work_inv_Step st st' :
  slots_inv st -> reuse_inv st -> fresh_inv st -> work_inv st ->
  Step p workers st st' -> work_inv st'.
Proof.
  intros [_ Hslots] [_ Hshared] (Hord & _ & Hfresh) Hwork Hs.
  destruct Hs.
  - eapply work_quiet with (evs := [CloseCall (closer p)]); eauto;
      [apply rowless_one; reflexivity | apply Forall_forall; auto].
  - rewrite H in Hslots. destruct Hslots as [Hnil _].
    eapply work_quiet with (evs := []);
      [simpl; rewrite app_nil_r; reflexivity | apply rowless_nil | simpl; auto
      | rewrite Hnil; constructor | exact Hwork].
  - eapply work_quiet with (evs := []);
      [simpl; rewrite app_nil_r; reflexivity | apply rowless_nil | reflexivity
      | apply Forall_forall; auto | exact Hwork].
  - eapply work_quiet with (evs := [Acquire (ixRow st)]);
      [reflexivity | apply rowless_one; reflexivity | reflexivity
      | apply Forall_forall; auto | exact Hwork].
  - rewrite H in Hslots. destruct Hslots as (_ & Hsem & Hle).
    eapply work_quiet with (evs := [ReadCall (ixRow st) (deref ref rd) (Some e)]);
      [reflexivity | apply rowless_failed_read | reflexivity
      | eapply read_same_view; eauto | exact Hwork].
  - rewrite H in Hslots. destruct Hslots as (_ & Hsem & Hle).
    eapply work_quiet with (evs := [ReadCall (ixRow st) (deref ref rd) (Some e)]
                                   ++ report p (ErrReadLine (ixRow st) e));
      [simpl; rewrite <- app_assoc; reflexivity
      | apply rowless_app; [apply rowless_failed_read | apply rowless_report]
      | reflexivity | eapply read_same_view; eauto | exact Hwork].
  - rewrite H in Hslots, Hfresh. destruct Hslots as (_ & Hsem & Hle).
    destruct Hfresh as (Hix & _ & _).
    destruct Hwork as (ND & Htrack & Hfin & Hany).
    pose proof (read_same_view st ref None rd Hsem Hle Hshared H0) as Hview.
    assert (F0 : forall r0 e0, ~ In (ReadCall (ixRow st) r0 e0) (trace st)).
    { intros r0 e0 Hin. apply In_read_ixs in Hin. rewrite Hord in Hin.
      apply In_ordinals in Hin. lia. }
    assert (F1 : forall j,
               events_about j ((trace st ++ [ReadCall (ixRow st) (deref ref rd) None])
                               ++ [Spawn (ixRow st)])
               = events_about j (trace st)).
    { intros j. rewrite !events_about_app. simpl. rewrite !app_nil_r. reflexivity. }
    assert (Hmono : forall j r',
               In (ReadCall j r' None) (trace st) ->
               In (ReadCall j r' None)
                  ((trace st ++ [ReadCall (ixRow st) (deref ref rd) None])
                   ++ [Spawn (ixRow st)])).
    { intros j r' Hin. apply in_or_app. left. apply in_or_app. left. exact Hin. }
    assert (Hnew : In (ReadCall (ixRow st) (deref ref rd) None)
                      ((trace st ++ [ReadCall (ixRow st) (deref ref rd) None])
                       ++ [Spawn (ixRow st)])).
    { apply in_or_app. left. apply in_or_app. right. left. reflexivity. }
    unfold work_inv. simpl. split; [| split; [| split]].
    + rewrite map_app. simpl. apply NoDup_app. split; [exact ND |]. split.
      * intros x Hx Hx'. apply list_elem_of_singleton in Hx'. subst x.
        apply list_elem_of_In, in_map_iff in Hx as (g & Hgix & Hg).
        rewrite Forall_forall in Htrack. apply list_elem_of_In in Hg.
        destruct (Htrack g Hg) as (r0 & Hr0 & _). rewrite Hgix in Hr0.
        eapply F0; eauto.
      * apply NoDup_singleton.
    + apply Forall_app. split.
      * pose proof (conj Htrack Hview) as Hboth. rewrite <- Forall_and in Hboth.
        eapply Forall_impl; [exact Hboth |]. intros g [Hg Hv]. simpl in Hv.
        eapply on_track_keep; [exact Hg | exact Hmono | apply F1 | exact Hv].
      * constructor; [| constructor]. exists (deref ref rd). simpl.
        split; [exact Hnew |]. split; [reflexivity |]. rewrite F1.
        destruct (Hany (ixRow st)) as [[r0 Hr0] | ->]; [exfalso; eapply F0; eauto |].
        simpl. apply run_stages_processRow.
    + intros j r' Hin. rewrite F1, map_app, in_app_iff.
      apply in_app_or in Hin as [Hin | [Hin | []]]; [| discriminate].
      apply in_app_or in Hin as [Hin | [Hin | []]].
      * destruct (Hfin j r' Hin); auto.
      * injection Hin as <- <-. left. right. simpl. auto.
    + intros j. rewrite F1. destruct (Hany j) as [[r0 Hr0] | Hnil]; eauto.
  - eapply work_quiet with (evs := [CloseCall (closer p)]); eauto;
      [apply rowless_one; reflexivity | apply Forall_forall; auto].
  - destruct Hwork as (ND & Htrack & Hfin & Hany).
    destruct (pool_split _ _ _ H) as (l1 & l2 & Hp & Hins & _).
    unfold work_inv. simpl. rewrite (Hins (mkGo (g_ix g) (g_row g) s')).
    rewrite Hp in ND, Htrack, Hfin. rewrite map_app in ND. simpl in ND.
    apply NoDup_middle in ND as [Hnotin ND']. rewrite <- map_app in Hnotin.
    apply Forall_app in Htrack as [T1 Tg]. apply Forall_cons in Tg as [Tg T2].
    assert (Hh : holding g = true) by (apply holding_stage; assumption).
    assert (Hkeep : forall g0, In g0 (l1 ++ l2) -> on_track st g0 ->
               on_track (mkState (pc st) (ixRow st) (reader st) (sem st) (wg st)
                                 (l1 ++ mkGo (g_ix g) (g_row g) s' :: l2)
                                 (ctx_done st) (closes st) (trace st ++ evs)) g0).
    { intros g0 Hg0 Ht. eapply on_track_keep; [exact Ht | | | reflexivity]; simpl.
      - intros ix r Hin. apply in_or_app. auto.
      - rewrite events_about_app, (advance_about _ _ _ _ _ (g_ix g0) H2).
        destruct (g_ix g =? g_ix g0)%Z eqn:E; [| apply app_nil_r].
        apply Z.eqb_eq in E. exfalso. apply Hnotin. rewrite E.
        apply in_map. exact Hg0. }
    split; [| split; [| split]].
    + rewrite map_app. simpl. apply NoDup_middle. split; [| exact ND'].
      rewrite <- map_app. exact Hnotin.
    + apply Forall_app. split; [| apply Forall_cons; split].
      * rewrite Forall_forall in *. intros g0 Hg0. apply Hkeep; auto.
        apply in_or_app. left. apply list_elem_of_In. exact Hg0.
      * destruct Tg as (r & Hr & Hv & He). exists r. cbn [g_ix g_at g_row trace].
        split; [apply in_or_app; auto |]. split; [intros _; exact (Hv Hh) |].
        rewrite events_about_app, (advance_about _ _ _ _ _ (g_ix g) H2), Z.eqb_refl.
        rewrite <- app_assoc. rewrite (Hv Hh) in H2.
        rewrite <- (run_stages_advance _ _ _ _ _ H0 H1 H2). exact He.
      * rewrite Forall_forall in *. intros g0 Hg0. apply Hkeep; auto.
        apply in_or_app. right. apply list_elem_of_In. exact Hg0.
    + intros ix r Hin. rewrite map_app. simpl.
      destruct (Z.eq_dec ix (g_ix g)) as [-> | Hne].
      * left. apply in_or_app. right. left. reflexivity.
      * rewrite events_about_app, (advance_about _ _ _ _ _ ix H2).
        apply Z.eqb_neq in Hne. rewrite Z.eqb_sym, Hne, app_nil_r.
        apply in_app_or in Hin as [Hin | Hin].
        -- destruct (Hfin ix r Hin) as [Hl | Hr]; [left | right; exact Hr].
           rewrite map_app in Hl. exact Hl.
        -- exfalso.
           destruct (callbacks_no_reads _ (advance_callbacks p _ _ _ _ _ H2))
             as (_ & _ & _ & _ & Hno). eapply Hno; eauto.
    + intros ix. destruct (Hany ix) as [[r Hr] | Hnil].
      * left. exists r. apply in_or_app. auto.
      * destruct (Z.eq_dec ix (g_ix g)) as [-> | Hne].
        -- left. destruct Tg as (r & Hr & _). exists r. apply in_or_app. auto.
        -- right. rewrite events_about_app, Hnil, (advance_about _ _ _ _ _ ix H2).
           apply Z.eqb_neq in Hne. rewrite Z.eqb_sym, Hne. reflexivity.
  - destruct Hwork as (ND & Htrack & Hfin & Hany).
    destruct (pool_split _ _ _ H) as (l1 & l2 & Hp & Hins & _).
    unfold work_inv. simpl. rewrite (Hins (mkGo (g_ix g) (g_row g) AtWgDone)).
    rewrite Hp in ND, Htrack, Hfin.
    apply Forall_app in Htrack as [T1 Tg]. apply Forall_cons in Tg as [Tg T2].
    assert (F : forall j, events_about j (trace st ++ [Release (g_ix g)])
                          = events_about j (trace st)).
    { intros j. rewrite events_about_app. simpl. apply app_nil_r. }
    assert (Hkeep : forall g0, on_track st g0 ->
               on_track (mkState (pc st) (ixRow st) (reader st) n (wg st)
                                 (l1 ++ mkGo (g_ix g) (g_row g) AtWgDone :: l2)
                                 (ctx_done st) (closes st)
                                 (trace st ++ [Release (g_ix g)])) g0).
    { intros g0 Ht. eapply on_track_keep; [exact Ht | | apply F | reflexivity]; simpl.
      intros ix r Hin. apply in_or_app. auto. }
    split; [| split; [| split]].
    + rewrite map_app in *. exact ND.
    + apply Forall_app. split; [| apply Forall_cons; split].
      * eapply Forall_impl; [exact T1 | exact Hkeep].
      * destruct Tg as (r & Hr & Hv & He). exists r. cbn [g_ix g_at g_row trace].
        split; [apply in_or_app; auto |]. split; [intros Hh; discriminate Hh |].
        rewrite F. rewrite H0 in He. exact He.
      * eapply Forall_impl; [exact T2 | exact Hkeep].
    + intros ix r Hin. rewrite F. rewrite map_app in *. simpl in *.
      apply in_app_or in Hin as [Hin | [Hin | []]]; [| discriminate]. auto.
    + intros ix. rewrite F. destruct (Hany ix) as [[r Hr] | Hnil]; [| auto].
      left. exists r. apply in_or_app. auto.
  - destruct Hwork as (ND & Htrack & Hfin & Hany).
    destruct (pool_split _ _ _ H) as (l1 & l2 & Hp & _ & Hdel).
    unfold work_inv. simpl. rewrite Hdel.
    rewrite Hp in ND, Htrack, Hfin. rewrite map_app in ND. simpl in ND.
    apply NoDup_middle in ND as [_ ND'].
    apply Forall_app in Htrack as [T1 Tg]. apply Forall_cons in Tg as [Tg T2].
    assert (Hkeep : forall g0, on_track st g0 ->
               on_track (mkState (pc st) (ixRow st) (reader st) (sem st) n
                                 (l1 ++ l2) (ctx_done st) (closes st) (trace st)) g0).
    { intros g0 Ht. eapply on_track_keep; [exact Ht | | |]; auto. }
    split; [| split; [| split]].
    + rewrite map_app. exact ND'.
    + apply Forall_app. split; eapply Forall_impl; eauto.
    + intros ix r Hin. destruct (Hfin ix r Hin) as [Hl | Hr]; [| auto].
      rewrite map_app in *. simpl in Hl. apply in_app_or in Hl as [Hl | [Hl | Hl]].
      * left. apply in_or_app. auto.
      * right. subst ix. destruct Tg as (r0 & Hr0 & _ & He).
        rewrite H0 in He. simpl in He. rewrite app_nil_r in He.
        assert (NDr : NoDup (read_ixs (trace st)))
          by (rewrite Hord; apply NoDup_ordinals).
        destruct (read_ixs_unique _ _ _ _ _ _ NDr Hin Hr0) as [-> _]. exact He.
      * left. apply in_or_app. auto.
    + exact Hany.
  - eapply work_quiet with (evs := []);
      [simpl; rewrite app_nil_r; reflexivity | apply rowless_nil | reflexivity
      | apply Forall_forall; auto | exact Hwork].
Qed.

Lemma rows_inv_reachable cancelled st :
  reachable cancelled st ->
  fresh_inv st /\ dispatch_inv st /\ reports_inv st /\ work_inv st.
Proof.
  intros Hr.
  cut (all_inv st /\ fresh_inv st /\ dispatch_inv st /\ reports_inv st /\ work_inv st);
    [tauto |].
  revert st Hr. apply reachable_ind.
  - split; [apply all_inv_init |].
    unfold fresh_inv, dispatch_inv, reports_inv, work_inv, init. simpl.
    repeat split; auto; try (destruct (OnError p); reflexivity);
      try constructor; try (intros; contradiction).
  - intros a st0 st1 (Hall & Hf & Hd & Hrp & Hw) Hstep.
    apply step_Step in Hstep.
    pose proof Hall as (Hslots & _ & _ & Hreuse & _).
    split; [eapply all_inv_Step; eauto |].
    split; [eapply fresh_inv_Step; eauto |].
    split; [eapply dispatch_inv_Step; eauto |].
    split; [eapply reports_inv_Step; eauto |].
    eapply work_inv_Step; eauto.
Qed.
(** *** After the loop *)

Lemma In_events_about ix (tr : list (event T)) ev :
  In ev tr -> about ix ev = true -> In ev (events_about ix tr).
Proof.
  induction tr as [|e tr IH]; simpl; [tauto |].
  intros [-> | Hin] Hab.
  - rewrite Hab. simpl. auto.
  - destruct (about ix e); simpl; auto.
Qed.

Lemma In_ok_reads (tr : list (event T)) ix r :
  In (ReadCall ix r None) tr <-> In (ix, r) (ok_reads tr).
Proof.
  induction tr as [|e tr IH]; simpl; [tauto |].
  destruct e as [| ix' r' [e'|] | | | | | | |]; simpl; rewrite <- IH;
    try (split; [intros [H | H]; [discriminate | exact H] | auto]).
  split; (intros [H | H]; [left; congruence | right; exact H]).
Qed.

(** The reports in the body of [processRow]: the first failure, under
    its tag and the ordinal, and only when OnError is set. *)
Lemma processRow_reports ix r e :
  In (CallOnError e) (processRow p ix r) ->
  OnError p = true /\
  exists tag cause, first_failure p r = Some (tag, cause) /\ e = ErrLine tag ix cause.
Proof.
  unfold processRow, first_failure, hook_result, report.
  destruct (OnRow p) as [f|]; [destruct (f r) |];
    (destruct (Parse p) as [parse|];
     [destruct (parse r) as [d' [e'|]];
      [| destruct (OnData p) as [h|]; [destruct (h d') |]] |]);
    destruct (OnError p); simpl; intros H;
    repeat (destruct H as [H | H]; try discriminate H); try contradiction;
    injection H as <-; split; eauto.
Qed.

(** Once Run has left the loop it reads and dispatches no more,
    whatever the goroutines still do. *)
Lemma after_loop_Step st st' :
  Step p workers st st' -> pc st = AtWait \/ has_returned st = true ->
  (pc st' = AtWait \/ has_returned st' = true) /\
  reader st' = reader st /\ ixRow st' = ixRow st /\
  read_ixs (trace st') = read_ixs (trace st) /\
  ok_reads (trace st') = ok_reads (trace st) /\
  spawned (trace st') = spawned (trace st).
Proof.
  unfold has_returned. intros Hs Hpc.
  destruct Hs; simpl;
    try (exfalso; destruct Hpc as [Hpc | Hpc]; rewrite H in Hpc; discriminate);
    rewrite ?read_ixs_app, ?ok_reads_app, ?spawned_app; simpl;
    rewrite ?app_nil_r; auto 10.
  apply advance_callbacks in H2. apply callbacks_no_reads in H2 as (-> & -> & _ & -> & _).
  rewrite !app_nil_r. auto 10.
Qed.

Lemma after_loop_exec acts : forall st st',
  exec acts st = Some st' -> pc st = AtWait \/ has_returned st = true ->
  (pc st' = AtWait \/ has_returned st' = true) /\
  reader st' = reader st /\ ixRow st' = ixRow st /\
  read_ixs (trace st') = read_ixs (trace st) /\
  ok_reads (trace st') = ok_reads (trace st) /\
  spawned (trace st') = spawned (trace st).
Proof.
  induction acts as [|a acts IH]; intros st st' He Hpc; simpl in He.
  - injection He as <-. auto 10.
  - destruct (step a st) as [st1|] eqn:Hs; [| discriminate].
    apply step_Step in Hs.
    destruct (after_loop_Step _ _ Hs Hpc) as (Hpc1 & E1 & E2 & E3 & E4 & E5).
    destruct (IH _ _ He Hpc1) as (Hpc2 & F1 & F2 & F3 & F4 & F5).
    rewrite F1, F2, F3, F4, F5. auto 10.
Qed.

Lemma reachable_exec cancelled acts st st' :
  reachable cancelled st -> exec acts st = Some st' -> reachable cancelled st'.
Proof.
  intros [acts0 H0] He. exists (acts0 ++ acts).
  rewrite (exec_app p workers), H0. exact He.
Qed.

(** What is known of a row whose read succeeded. *)
Lemma read_row_events cancelled st ix r :
  reachable cancelled st -> In (ReadCall ix r None) (trace st) ->
  (exists rest, events_about ix (trace st) ++ rest = processRow p ix r) /\
  (has_returned st = true -> events_about ix (trace st) = processRow p ix r).
Proof.
  intros Hr Hin.
  destruct (rows_inv_reachable _ _ Hr) as ((Hord & _) & _ & _ & (_ & Htrack & Hfin & _)).
  pose proof (slots_inv_reachable p workers _ _ Hr) as (_ & Hslots).
  assert (NDr : NoDup (read_ixs (trace st))) by (rewrite Hord; apply NoDup_ordinals).
  destruct (Hfin ix r Hin) as [Hpool | Hdone].
  - split.
    + apply in_map_iff in Hpool as (g & <- & Hg).
      rewrite Forall_forall in Htrack.
      destruct (Htrack g (proj2 (list_elem_of_In _ _) Hg)) as (r0 & Hr0 & _ & He).
      destruct (read_ixs_unique _ _ _ _ _ _ NDr Hin Hr0) as [-> _]. eauto.
    + unfold has_returned. intros Hret.
      destruct (pc st) as [| | | | [e|]]; try discriminate;
        destruct Hslots as (_ & Hnil & _); rewrite Hnil in Hpool; destruct Hpool.
  - split; [exists []; rewrite app_nil_r; exact Hdone | auto].
Qed.
Lemma events_about_In ix (tr : list (event T)) ev :
  In ev (events_about ix tr) -> In ev tr.
Proof.
  induction tr as [|e tr IH]; simpl; [tauto |].
  destruct (about ix e); simpl; tauto.
Qed.

Lemma processRow_reports_failure ix r tag cause :
  OnError p = true -> first_failure p r = Some (tag, cause) ->
  In (CallOnError (ErrLine tag ix cause)) (processRow p ix r).
Proof.
  unfold processRow, first_failure, hook_result, report. intros ->.
  destruct (OnRow p) as [f|]; [destruct (f r) |];
    (destruct (Parse p) as [parse|];
     [destruct (parse r) as [d' [e'|]];
      [| destruct (OnData p) as [h|]; [destruct (h d') |]] |]);
    simpl; intros H; try discriminate; injection H as <- <-; auto 6.
Qed.

Lemma In_failed_reads (tr : list (event T)) ix r e :
  In (ReadCall ix r (Some e)) tr -> errors_Is_EOF e = false -> In (ix, e) (failed_reads tr).
Proof.
  induction tr as [|ev tr IH]; simpl; [tauto |].
  intros [-> | Hin] He.
  - rewrite He. simpl. auto.
  - destruct ev as [| ix' r' [e'|] | | | | | | |]; simpl; auto.
    destruct (errors_Is_EOF e'); simpl; auto.
Qed.

Lemma In_read_reports (tr : list (event T)) e :
  In e (read_reports tr) -> In (CallOnError e) tr.
Proof.
  induction tr as [|ev tr IH]; simpl; [tauto |].
  destruct ev as [| | | | | | e0 | |]; auto.
  destruct e0; simpl; auto. intros [<- | H]; auto.
Qed.

(** ** Theorems on the rows of a run *)

(** X1. Each row whose read succeeded runs the body of processRow
    once, on the record read for its ordinal: at any moment the callback
    calls made for the row are the first calls of that body, in its order,
    and when Run has returned they are the whole body.  No callback is
    ever called for an ordinal whose read did not succeed. *)
Theorem rows_run_processRow cancelled st :
  reachable cancelled st ->
  (forall ix r, In (ReadCall ix r None) (trace st) ->
     (exists rest, events_about ix (trace st) ++ rest = processRow p ix r) /\
     (has_returned st = true -> events_about ix (trace st) = processRow p ix r)) /\
  (forall ix, (forall r, ~ In (ReadCall ix r None) (trace st)) ->
              events_about ix (trace st) = []).
Proof.
  intros Hr. split.
  - intros ix r Hin. eapply read_row_events; eauto.
  - intros ix Hno.
    destruct (rows_inv_reachable _ _ Hr) as (_ & _ & _ & (_ & _ & _ & Hany)).
    destruct (Hany ix) as [(r & Hin) | He]; [| exact He].
    exfalso. eapply Hno; eauto.
Qed.

(** X2. The ordinals count the calls of Read: the k-th call runs under
    ordinal k, whether it returns a record, an error or the end of the
    stream.  The rows dispatched to a goroutine are the reads that returned
    no error, in read order; the reader's own reports to OnError are the
    reads that failed short of the end of the stream, in read order, each
    with its ordinal, and there are none when OnError is nil. *)
Theorem dispatch_follows_reads cancelled st :
  reachable cancelled st ->
  read_ixs (trace st) = ordinals (length (read_ixs (trace st))) /\
  spawned (trace st) = map fst (ok_reads (trace st)) /\
  read_reports (trace st)
  = (if OnError p
     then map (fun f => ErrReadLine (fst f) (snd f)) (failed_reads (trace st))
     else []).
Proof.
  intros Hr.
  destruct (rows_inv_reachable _ _ Hr) as ((Hord & _) & (Hsp & Hrep) & _).
  auto.
Qed.

(** X3. Whatever reaches OnError is genuine.  OnError is called only
    if it is set, and its argument is either "could not read line #ix"
    around the error that the read numbered ix returned (an error that is
    not the end of the stream), or the first failure of a row that was
    read, under the tag of the step that failed and the row's ordinal. *)
Theorem reports_are_genuine cancelled st e :
  reachable cancelled st -> In (CallOnError e) (trace st) ->
  OnError p = true /\
  ((exists ix cause r,
       e = ErrReadLine ix cause /\ In (ReadCall ix r (Some cause)) (trace st) /\
       errors_Is_EOF cause = false) \/
   (exists tag ix cause r,
       e = ErrLine tag ix cause /\ In (ReadCall ix r None) (trace st) /\
       first_failure p r = Some (tag, cause))).
Proof.
  intros Hr Hin.
  destruct (rows_inv_reachable _ _ Hr) as (_ & _ & Hrep & (_ & _ & _ & Hany)).
  destruct (Hrep e Hin) as (Ho & [Hread | (tag & ix & cause & ->)]);
    (split; [exact Ho |]); [left; exact Hread | right].
  assert (Hab : In (CallOnError (ErrLine tag ix cause)) (events_about ix (trace st))).
  { apply In_events_about; [exact Hin |]. simpl. apply Z.eqb_refl. }
  destruct (Hany ix) as [(r & Hr0) | He]; [| rewrite He in Hab; destruct Hab].
  destruct (read_row_events _ _ _ _ Hr Hr0) as ((rest & Hpre) & _).
  assert (Hbody : In (CallOnError (ErrLine tag ix cause)) (processRow p ix r)).
  { rewrite <- Hpre. apply in_or_app. auto. }
  apply processRow_reports in Hbody as (_ & tag' & cause' & Hff & Heq).
  injection Heq as -> ->. exists tag', ix, cause', r. auto.
Qed.

(** X4. With OnError set no failure is lost.  A read that fails short
    of the end of the stream is reported in the same step, before the next
    read; when Run has returned, every row that was read and failed in
    OnRow, Parse or OnData has been reported under its tag and ordinal. *)
Theorem failures_are_reported cancelled st :
  OnError p = true -> reachable cancelled st ->
  (forall ix r cause,
      In (ReadCall ix r (Some cause)) (trace st) -> errors_Is_EOF cause = false ->
      In (CallOnError (ErrReadLine ix cause)) (trace st)) /\
  (has_returned st = true ->
   forall ix r tag cause,
      In (ReadCall ix r None) (trace st) -> first_failure p r = Some (tag, cause) ->
      In (CallOnError (ErrLine tag ix cause)) (trace st)).
Proof.
  intros Ho Hr. split.
  - intros ix r cause Hin He.
    destruct (rows_inv_reachable _ _ Hr) as (_ & (_ & Hrep) & _).
    rewrite Ho in Hrep. apply In_read_reports. rewrite Hrep.
    apply in_map_iff. exists (ix, cause). split; [reflexivity |].
    eapply In_failed_reads; eauto.
  - intros Hret ix r tag cause Hin Hff.
    destruct (read_row_events _ _ _ _ Hr Hin) as (_ & Hall).
    apply (events_about_In ix). rewrite (Hall Hret).
    apply processRow_reports_failure; assumption.
Qed.

(** X5. A read whose error is or wraps io.EOF ends the loop: it is the
    last call of Read, Run is at wg.Wait() or has returned, whatever is
    left of the input is never read, and the error is not handed to
    OnError. *)
Theorem eof_read_ends_the_loop cancelled st ix r e :
  reachable cancelled st ->
  In (ReadCall ix r (Some e)) (trace st) -> errors_Is_EOF e = true ->
  (pc st = AtWait \/ has_returned st = true) /\
  ix = Z.of_nat (length (read_ixs (trace st))) /\
  ~ In (CallOnError (ErrReadLine ix e)) (trace st) /\
  forall acts st', exec acts st = Some st' ->
     reader st' = reader st /\ read_ixs (trace st') = read_ixs (trace st).
Proof.
  intros Hr Hin He.
  destruct (rows_inv_reachable _ _ Hr) as ((Hord & Hlast & Hpc) & _ & Hrep & _).
  assert (Hout : pc st = AtWait \/ has_returned st = true).
  { unfold has_returned. destruct (pc st) as [| | | | e0]; auto.
    - apply In_read_ixs in Hin. rewrite Hpc in Hin. destruct Hin.
    - destruct Hpc as (_ & _ & Hno). specialize (Hno _ _ _ Hin). simpl in Hno. congruence.
    - destruct Hpc as (_ & _ & Hno). specialize (Hno _ _ _ Hin). simpl in Hno. congruence. }
  split; [exact Hout |]. split; [apply (Hlast ix r (Some e) Hin He) |]. split.
  - intros Hc. destruct (Hrep _ Hc) as (_ & [(ix' & c' & r' & Heq & _ & Hne) | (t & i' & c' & Heq)]);
      [injection Heq as -> ->; congruence | discriminate].
  - intros acts st' Hex.
    destruct (after_loop_exec _ _ _ Hex Hout) as (_ & E1 & _ & E2 & _). auto.
Qed.

(** X6. Once the select has taken the cancellation case, nothing more
    is read or dispatched; the rows already read are not abandoned: when
    Run returns, each of them has run the whole body of processRow. *)
Theorem cancellation_stops_reading cancelled st acts st' :
  reachable cancelled st -> pc st = AtSelect ->
  exec (AMain true :: acts) st = Some st' ->
  ctx_done st = true /\ reader st' = reader st /\
  read_ixs (trace st') = read_ixs (trace st) /\
  spawned (trace st') = spawned (trace st) /\
  (has_returned st' = true ->
   forall ix r, In (ReadCall ix r None) (trace st) ->
                events_about ix (trace st') = processRow p ix r).
Proof.
  intros Hr Hpc Hex.
  pose proof (reachable_exec _ _ _ _ Hr Hex) as Hr'.
  simpl in Hex. unfold step_main in Hex. rewrite Hpc in Hex.
  destruct (ctx_done st) eqn:Hctx; [| discriminate].
  split; [reflexivity |].
  apply after_loop_exec in Hex; [| left; reflexivity].
  simpl in Hex. destruct Hex as (_ & E1 & _ & E2 & E3 & E4).
  repeat split; auto.
  intros Hret ix r Hin.
  apply In_ok_reads in Hin. rewrite <- E3 in Hin. apply In_ok_reads in Hin.
  destruct (read_row_events _ _ _ _ Hr' Hin) as (_ & Hall). auto.
Qed.
(** *** One worker *)

Lemma row_events_app (l1 l2 : list (event T)) :
  row_events (l1 ++ l2) = row_events l1 ++ row_events l2.
Proof.
  induction l1 as [|e l1 IH]; simpl; [reflexivity |].
  destruct (row_event e); simpl; rewrite IH; reflexivity.
Qed.

Lemma row_events_report_read ix e : row_events (report p (ErrReadLine ix e)) = [].
Proof. unfold report. destruct (OnError p); reflexivity. Qed.

Lemma row_events_report_line tag ix e :
  row_events (report p (ErrLine tag ix e)) = report p (ErrLine tag ix e).
Proof. unfold report. destruct (OnError p); reflexivity. Qed.

Lemma advance_row_events ix seen (s s' : stage T) evs :
  advance p ix seen s = (evs, s') -> row_events evs = evs.
Proof.
  intros H. destruct s; simpl in H;
    repeat (match type of H with
            | context [match ?x with _ => _ end] => destruct x
            end); inversion H; subst; clear H; simpl;
    try rewrite row_events_report_line; reflexivity.
Qed.

Lemma ok_reads_report e : ok_reads (report p e) = [].
Proof. unfold report. destruct (OnError p); reflexivity. Qed.

Lemma bodies_app (l1 l2 : list (event T)) : bodies p (l1 ++ l2) = bodies p l1 ++ bodies p l2.
Proof. unfold bodies. rewrite ok_reads_app. apply flat_map_app. Qed.

Lemma idle_pending (f : goroutine T -> list (event T)) (l : list (goroutine T)) :
  (forall g, holding g = false -> f g = []) -> in_flight l = 0 -> flat_map f l = [].
Proof.
  intros Hf H. apply in_flight_zero in H.
  induction H as [|g l Hg _ IH]; simpl; [reflexivity |].
  rewrite (Hf g Hg), IH. reflexivity.
Qed.

Lemma idle_stage (rd : csv_Reader) (g : goroutine T) :
  holding g = false -> run_stages p 3 (g_ix g) (deref (g_row g) rd) (g_at g) = [].
Proof.
  unfold holding. destruct (g_at g); try discriminate. reflexivity.
Qed.
Lemma few_in_flight (st : state T) :
  workers = 1%Z -> slots_inv st -> in_flight (pool st) <= 1.
Proof.
  intros Hw (_ & Hslots).
  destruct (pc st) as [| | | | [e|]];
    try (destruct Hslots as (_ & Hs & Hle); lia).
  - destruct Hslots as [-> _]. unfold in_flight. simpl. lia.
  - destruct Hslots as (_ & -> & _). unfold in_flight. simpl. lia.
  - destruct Hslots as (_ & -> & _). unfold in_flight. simpl. lia.
Qed.

Local Abbreviation todo rd :=
  (fun g : goroutine T => run_stages p 3 (g_ix g) (deref (g_row g) rd) (g_at g)).

Lemma serial_change (st st' : state T) evs :
  trace st' = trace st ++ evs ->
  row_events evs ++ flat_map (todo (reader st')) (pool st')
  = flat_map (todo (reader st)) (pool st) ++ bodies p evs ->
  serial_inv p st -> serial_inv p st'.
Proof.
  unfold serial_inv, pending, view. intros -> Hside Hinv.
  rewrite row_events_app, bodies_app, <- Hinv, <- !app_assoc. f_equal. exact Hside.
Qed.

Lemma idle_todo rd (l : list (goroutine T)) :
  in_flight l = 0 -> flat_map (todo rd) l = [].
Proof. apply idle_pending. intros g. apply idle_stage. Qed.

Lemma serial_inv_Step st st' :
  workers = 1%Z -> slots_inv st -> serial_inv p st -> Step p workers st st' ->
  serial_inv p st'.
Proof.
  intros Hw Hslots Hinv Hs.
  pose proof (few_in_flight _ Hw Hslots) as Hfew.
  destruct Hslots as (_ & Hslots).
  destruct Hs.
  - eapply serial_change with (evs := [CloseCall (closer p)]);
      [reflexivity | | exact Hinv]. cbn. rewrite app_nil_r. reflexivity.
  - eapply serial_change with (evs := []);
      [cbn; rewrite app_nil_r; reflexivity | | exact Hinv].
    rewrite H in Hslots. destruct Hslots as [-> _]. reflexivity.
  - eapply serial_change with (evs := []);
      [cbn; rewrite app_nil_r; reflexivity | | exact Hinv].
    cbn. rewrite app_nil_r. reflexivity.
  - eapply serial_change with (evs := [Acquire (ixRow st)]);
      [reflexivity | | exact Hinv]. cbn. rewrite app_nil_r. reflexivity.
  - rewrite H in Hslots. destruct Hslots as (_ & Hs & Hle).
    eapply serial_change; [reflexivity | | exact Hinv].
    cbn [reader pool]. rewrite !idle_todo by lia. reflexivity.
  - rewrite H in Hslots. destruct Hslots as (_ & Hs & Hle).
    eapply serial_change; [cbn [trace]; rewrite <- app_assoc; reflexivity | | exact Hinv].
    cbn [reader pool]. rewrite !idle_todo by lia.
    rewrite row_events_app, row_events_report_read, bodies_app.
    unfold bodies. rewrite ok_reads_report. reflexivity.
  - rewrite H in Hslots. destruct Hslots as (_ & Hs & Hle).
    eapply serial_change; [cbn [trace]; rewrite <- app_assoc; reflexivity | | exact Hinv].
    cbn [reader pool]. rewrite flat_map_app. cbn [flat_map g_ix g_row g_at].
    rewrite !idle_todo by lia. rewrite run_stages_processRow.
    unfold bodies. simpl. reflexivity.
  - eapply serial_change with (evs := [CloseCall (closer p)]);
      [reflexivity | | exact Hinv]. cbn. rewrite app_nil_r. reflexivity.
  - eapply serial_change; [reflexivity | | exact Hinv]. cbn [reader pool].
    destruct (pool_split _ _ _ H) as (l1 & l2 & Hl & Hins & _).
    rewrite Hins, Hl. rewrite Hl in Hfew.
    rewrite in_flight_app in Hfew. unfold in_flight at 2 in Hfew.
    simpl in Hfew. fold (in_flight l2) in Hfew.
    assert (Hh : holding g = true) by (apply holding_stage; assumption).
    rewrite Hh in Hfew.
    rewrite !flat_map_app. cbn [flat_map g_ix g_row g_at].
    rewrite !idle_todo by lia. unfold view in H2.
    rewrite (run_stages_advance _ _ _ _ _ H0 H1 H2).
    rewrite (advance_row_events _ _ _ _ _ H2).
    destruct (callbacks_no_reads _ (advance_callbacks p _ _ _ _ _ H2)) as (_ & Hok & _).
    unfold bodies. rewrite Hok. simpl. rewrite !app_nil_r. reflexivity.
  - eapply serial_change with (evs := [Release (g_ix g)]);
      [reflexivity | | exact Hinv]. cbn [reader pool].
    destruct (pool_split _ _ _ H) as (l1 & l2 & Hl & Hins & _).
    rewrite Hins, Hl, !flat_map_app. cbn [flat_map g_ix g_row g_at].
    rewrite H0. cbn. rewrite app_nil_r. reflexivity.
  - eapply serial_change with (evs := []);
      [cbn; rewrite app_nil_r; reflexivity | | exact Hinv]. cbn [reader pool].
    destruct (pool_split _ _ _ H) as (l1 & l2 & Hl & _ & Hdel).
    rewrite Hdel, Hl, !flat_map_app. cbn [flat_map].
    rewrite H0. cbn. rewrite app_nil_r. reflexivity.
  - eapply serial_change with (evs := []);
      [cbn; rewrite app_nil_r; reflexivity | | exact Hinv].
    cbn. rewrite app_nil_r. reflexivity.
Qed.

Lemma serial_inv_reachable cancelled st :
  workers = 1%Z -> reachable cancelled st -> serial_inv p st.
Proof.
  intros Hw Hr.
  cut (slots_inv st /\ serial_inv p st); [tauto |].
  revert st Hr. apply reachable_ind.
  - split; [apply slots_inv_init | reflexivity].
  - intros a st0 st1 (Hslots & Hser) Hstep. apply step_Step in Hstep.
    split; [eapply slots_inv_Step; eauto | eapply serial_inv_Step; eauto].
Qed.

(** X7. With one worker the rows are processed one at a time, in the
    order they were read: the calls of OnRow, Parse and OnData and the
    workers' reports to OnError, as they occur in the run, are the bodies
    of processRow on the records read, one whole body after the other; at
    any moment they are a prefix of that sequence, and at the return all
    of it. *)
Theorem one_worker_is_serial cancelled st :
  workers = 1%Z -> reachable cancelled st ->
  (exists rest, row_events (trace st) ++ rest = bodies p (trace st)) /\
  (has_returned st = true -> row_events (trace st) = bodies p (trace st)).
Proof.
  intros Hw Hr. pose proof (serial_inv_reachable _ _ Hw Hr) as Hser.
  split; [exists (pending p st); exact Hser |].
  intros Hret. pose proof (slots_inv_reachable p workers _ _ Hr) as (_ & Hslots).
  unfold serial_inv, pending in Hser. unfold has_returned in Hret.
  destruct (pc st) as [| | | | [e|]]; try discriminate;
    destruct Hslots as (_ & Hnil & _); rewrite Hnil in Hser; simpl in Hser;
    rewrite app_nil_r in Hser; exact Hser.
Qed.
(** *** Filling the pool *)

Lemma fill_runs cancelled : forall n,
  preconditions p workers = true ->
  (Z.of_nat n <= workers)%Z -> (Z.of_nat n < max_int)%Z ->
  n <= length (input (Reader p)) -> good_rows (firstn n (input (Reader p))) ->
  exists st,
    exec (AMain false :: fill n) (init p cancelled) = Some st /\
    pc st = AtSelect /\ ixRow st = Z.of_nat (S n) /\ sem st = n /\
    input (reader st) = skipn n (input (Reader p)) /\
    map (@g_ix T) (pool st) = ordinals n /\
    Forall (fun g => holding g = true) (pool st).
Proof.
  intros n Hp. apply preconditions_spec in Hp as [Hcfg Hw1].
  induction n as [|n IH]; intros Hw Hmax Hlen Hgood.
  - eexists. split.
    + simpl. unfold step_main. simpl. rewrite Hcfg.
      apply Z.ltb_ge in Hw1. rewrite Hw1. reflexivity.
    + simpl. repeat split; auto.
  - unfold good_rows in Hgood, IH.
    destruct (lookup_lt_is_Some_2 (input (Reader p)) n) as [[r e] Hnth]; [lia |].
    rewrite (take_S_r _ _ _ Hnth) in Hgood.
    apply Forall_app in Hgood as [Hgood Hlast].
    rewrite Forall_singleton in Hlast. simpl in Hlast. subst e.
    destruct IH as (st & Hex & Hpc & Hix & Hsem & Hin & Hpool & Hhold);
      [lia | lia | lia | exact Hgood |].
    pose proof (drop_S _ _ _ Hnth) as Hdrop. rewrite <- Hin in Hdrop.
    change (AMain false :: fill (S n))
      with ((AMain false :: fill n) ++ [AMain false; AMain false]).
    rewrite (exec_app p workers), Hex.
    cbn [exec step]. unfold step_main at 1. rewrite Hpc.
    assert (Hlt : (Z.of_nat (sem st) <? workers)%Z = true) by (apply Z.ltb_lt; lia).
    rewrite Hlt. unfold step_main. cbn [pc reader ixRow sem wg pool ctx_done closes trace].
    unfold Read. rewrite Hdrop.
    destruct (incr_cases (ixRow st)) as [[_ Hinc] | [Hbad _]]; [lia | | lia].
    assert (Hhead : loop_head (incr (ixRow st)) = AtSelect).
    { unfold loop_head. rewrite Hinc.
      assert (E : (0 <? ixRow st + 1)%Z = true) by (apply Z.ltb_lt; lia).
      rewrite E. reflexivity. }
    destruct (ReuseRecord (reader st)); eexists; (split; [reflexivity |]);
      cbn [pc reader ixRow sem wg pool ctx_done closes trace input];
      rewrite Hhead, Hinc, map_app, Hpool, ordinals_S, Hix;
      repeat split; try lia;
      (apply Forall_app; split; [exact Hhold | repeat constructor]).
Qed.

Lemma all_holding (l : list (goroutine T)) :
  Forall (fun g => holding g = true) l -> in_flight l = length l.
Proof.
  unfold in_flight. intros H. induction H as [|g l Hg _ IH]; simpl; [reflexivity |].
  rewrite Hg, IH. reflexivity.
Qed.

(** X8. The bound of W rows in worker processing is attained: when
    the first n reads succeed and n <= W, the schedule that lets Run
    acquire and read n times before any worker moves reaches a state in
    which the rows 1..n are all inside worker processing at once, each
    holding a slot.  This holds even when the context was cancelled before
    Run was called. *)
Theorem workers_can_all_be_busy cancelled n :
  preconditions p workers = true ->
  (Z.of_nat n <= workers)%Z -> (Z.of_nat n < max_int)%Z ->
  n <= length (input (Reader p)) -> good_rows (firstn n (input (Reader p))) ->
  exists st,
    exec (AMain false :: fill n) (init p cancelled) = Some st /\
    reachable cancelled st /\
    in_flight (pool st) = n /\ sem st = n /\
    map (@g_ix T) (pool st) = ordinals n /\
    input (reader st) = skipn n (input (Reader p)).
Proof.
  intros Hp Hw Hmax Hlen Hgood.
  destruct (fill_runs cancelled n Hp Hw Hmax Hlen Hgood)
    as (st & Hex & Hpc & Hix & Hsem & Hin & Hpool & Hhold).
  exists st. split; [exact Hex |]. split; [eexists; exact Hex |].
  split; [| auto]. rewrite (all_holding _ Hhold).
  rewrite <- (length_map (@g_ix T)), Hpool. unfold ordinals.
  rewrite length_map, length_seq. reflexivity.
Qed.
(** *** From the input to the callbacks *)

Lemma In_row_reads (tr : list (event T)) ix r e :
  In (ix, (r, e)) (row_reads tr) -> In (ReadCall ix r e) tr.
Proof.
  induction tr as [|ev tr IH]; simpl; [tauto |].
  destruct ev as [| ix' r' e' | | | | | | |]; auto.
  destruct (at_eof e'); simpl; [auto |].
  intros [H | H]; [left; congruence | auto].
Qed.

Lemma numbered_lookup {A : Type} (l : list (Z * A)) (k : nat) (x : A) :
  map fst l = ordinals (length l) -> map snd l !! k = Some x ->
  l !! k = Some (Z.of_nat (S k), x).
Proof.
  intros Hfst Hsnd.
  assert (Hk : k < length l).
  { apply lookup_lt_Some in Hsnd. rewrite length_map in Hsnd. exact Hsnd. }
  destruct (lookup_lt_is_Some_2 l k Hk) as [[ix y] Hl].
  assert (H1 : map fst l !! k = Some ix).
  { change (map fst l) with (fst <$> l). rewrite list_lookup_fmap, Hl. reflexivity. }
  assert (H2 : map snd l !! k = Some y).
  { change (map snd l) with (snd <$> l). rewrite list_lookup_fmap, Hl. reflexivity. }
  rewrite Hsnd in H2. injection H2 as <-.
  rewrite Hfst in H1. unfold ordinals in H1.
  change (map Z.of_nat (seq 1 (length l))) with (Z.of_nat <$> seq 1 (length l)) in H1.
  rewrite list_lookup_fmap, lookup_seq_lt in H1 by exact Hk.
  simpl in H1. injection H1 as <-. exact Hl.
Qed.

(** X13. From the file to the callbacks.  When Run has returned and
    the context was never cancelled, every row of the input has been read
    under its position in the input, counted from 1.  A row that read well
    has run the whole body of processRow under that ordinal, once; a row
    whose read failed has had no callback called for it, and has been
    reported to OnError, when that is set, as "could not read line" with
    its ordinal. *)
Theorem Run_processes_every_row cancelled st :
  rows_only (input (Reader p)) -> preconditions p workers = true ->
  (Z.of_nat (length (input (Reader p))) <= max_int)%Z ->
  reachable cancelled st -> has_returned st = true -> ctx_done st = false ->
  forall k r e, input (Reader p) !! k = Some (r, e) ->
    In (ReadCall (Z.of_nat (S k)) r e) (trace st) /\
    match e with
    | None =>
        events_about (Z.of_nat (S k)) (trace st) = processRow p (Z.of_nat (S k)) r
    | Some err =>
        events_about (Z.of_nat (S k)) (trace st) = [] /\
        (OnError p = true ->
         In (CallOnError (ErrReadLine (Z.of_nat (S k)) err)) (trace st))
    end.
Proof.
  intros Hrows Hp Hmax Hr Hret Hctx k r e Hk.
  destruct (order_inv_reachable p workers _ _ Hrows Hr) as (Hin & Hord & Hpc).
  pose proof (slots_inv_reachable p workers _ _ Hr) as (_ & Hslots).
  destruct (rows_inv_reachable _ _ Hr)
    as ((Hnum & _) & (_ & Hrep) & _ & (_ & _ & _ & Hany)).
  assert (NDr : NoDup (read_ixs (trace st))) by (rewrite Hnum; apply NoDup_ordinals).
  assert (Hall : map snd (row_reads (trace st)) = input (Reader p)).
  { unfold has_returned in Hret.
    destruct (pc st) as [| | | | [e0|]]; try discriminate.
    { destruct Hslots as (Hp' & _). congruence. }
    assert (Hnil : input (reader st) = []).
    { destruct Hpc as [Hc | [Hnil | Hfull]]; [congruence | exact Hnil |].
      pose proof (f_equal (@length _) Hin) as Hlen.
      rewrite length_app, length_map in Hlen.
      destruct (input (reader st)); [reflexivity | simpl in Hlen; lia]. }
    rewrite Hnil, app_nil_r in Hin. exact Hin. }
  assert (Hrow : at_eof e = false)
    by (apply (Forall_lookup_1 _ _ _ _ Hrows Hk)).
  rewrite <- Hall in Hk. apply (numbered_lookup _ _ _ Hord) in Hk.
  apply list_elem_of_lookup_2, list_elem_of_In, In_row_reads in Hk.
  split; [exact Hk |]. destruct e as [err|].
  - split.
    + destruct (Hany (Z.of_nat (S k))) as [(r' & Hr') | He]; [| exact He].
      destruct (read_ixs_unique _ _ _ _ _ _ NDr Hk Hr') as [_ Hd]. discriminate Hd.
    + intros Ho. rewrite Ho in Hrep. apply In_read_reports. rewrite Hrep.
      apply in_map_iff. exists (Z.of_nat (S k), err). split; [reflexivity |].
      eapply In_failed_reads; [exact Hk | exact Hrow].
  - destruct (read_row_events _ _ _ _ Hr Hk) as (_ & Hbody). auto.
Qed.
End MoreProperties.

(** * More on the source adapters *)

(** ** The extension test *)

Lemma ext_scan_suffix : forall (rpath acc l : list ascii),
  ext_scan rpath acc = l -> l <> [] -> exists pre, rev rpath ++ acc = pre ++ l.
Proof.
  induction rpath as [|c rest IH]; intros acc l H Hne; simpl in H; [congruence |].
  destruct (IsPathSeparator c); [congruence |].
  destruct (Ascii.eqb c ".").
  - exists (rev rest). simpl. rewrite <- app_assoc, <- H. reflexivity.
  - destruct (IH _ _ H Hne) as [pre Hpre]. exists pre.
    simpl. rewrite <- app_assoc. exact Hpre.
Qed.

Lemma lower_byte_dot c : lower_byte c = "."%char -> c = "."%char.
Proof.
  destruct c as [[] [] [] [] [] [] [] []]; vm_compute; intros H;
    first [discriminate H | reflexivity].
Qed.

Lemma lower_byte_g c : lower_byte c = "g"%char -> c = "g"%char \/ c = "G"%char.
Proof.
  destruct c as [[] [] [] [] [] [] [] []]; vm_compute; intros H;
    first [discriminate H | left; reflexivity | right; reflexivity].
Qed.

Lemma lower_byte_z c : lower_byte c = "z"%char -> c = "z"%char \/ c = "Z"%char.
Proof.
  destruct c as [[] [] [] [] [] [] [] []]; vm_compute; intros H;
    first [discriminate H | left; reflexivity | right; reflexivity].
Qed.

Lemma gz_of_Ext (path : string) :
  ToLower (filepath_Ext path) = ".gz"%string -> ends_in_gz path.
Proof.
  unfold filepath_Ext. intros H.
  remember (ext_scan (rev (list_ascii_of_string path)) []) as l eqn:Hl.
  symmetry in Hl.
  destruct l as [|d [|g [|z [|x l]]]]; try discriminate H.
  simpl in H. injection H as Hd Hg Hz.
  apply lower_byte_dot in Hd. apply lower_byte_g in Hg. apply lower_byte_z in Hz.
  subst d. apply ext_scan_suffix in Hl as [pre Hpre]; [| discriminate].
  rewrite rev_involutive, app_nil_r in Hpre.
  exists (string_of_list_ascii pre), g, z. split; [| auto].
  rewrite <- (string_of_list_ascii_of_string path), Hpre.
  rewrite <- (list_ascii_of_string_of_list_ascii pre) at 1.
  change ["."%char; g; z]
    with (list_ascii_of_string (String "." (String g (String z EmptyString)))).
  rewrite <- list_ascii_of_string_app. apply string_of_list_ascii_of_string.
Qed.

(** X9. FileStream decompresses by file name alone: the test
    [strings.ToLower(filepath.Ext(path)) == ".gz"] holds exactly for the
    paths that end in ".gz" in any mix of cases.  For a file that opens,
    Open returns a gzip reader exactly when the path ends so and the
    decoder accepts the header; for any other path it returns the file
    itself and the decoder is not consulted. *)
Theorem FileStream_gzip_by_extension
        (gzip_header_ok : string -> bool) (path bytes : string) (w : world) :
  files w path = Some bytes ->
  (ends_in_gz path <-> ToLower (filepath_Ext path) = ".gz"%string) /\
  ((exists under,
       fst (fst (FileStream_Open gzip_header_ok (mkFileStream path) w)) = Gzip under)
   <-> ends_in_gz path /\ gzip_header_ok bytes = true) /\
  (~ ends_in_gz path ->
   FileStream_Open gzip_header_ok (mkFileStream path) w
   = ((File (next_fd w) path, None), snd (os_Open path w))).
Proof.
  intros Hfile.
  assert (Hiff : ends_in_gz path <-> ToLower (filepath_Ext path) = ".gz"%string)
    by (split; [apply Ext_of_gz | apply gz_of_Ext]).
  split; [exact Hiff |].
  unfold FileStream_Open, os_Open. rewrite Hfile. simpl. rewrite Hfile.
  destruct (String.eqb (ToLower (filepath_Ext path)) ".gz") eqn:E.
  - apply String.eqb_eq in E. apply Hiff in E.
    destruct (gzip_header_ok bytes); simpl; split.
    + split; [auto | eauto].
    + tauto.
    + split; [intros [u Hu]; discriminate | intros [_ H]; discriminate].
    + tauto.
  - apply String.eqb_neq in E. simpl. split.
    + split; [intros [u Hu]; discriminate | intros [H _]; apply Hiff in H; contradiction].
    + reflexivity.
Qed.

(** X10. The descriptors of FileStream.Open on every path.  On
    success it returns the opened file, or a gzip reader over it, and
    exactly one new descriptor is open; on failure it returns a nil stream
    with "could open file" (the file did not open) or "gzip failed" (the
    path ends in ".gz"), and no descriptor is open that was not open
    before.  The files themselves are untouched. *)
Theorem FileStream_Open_descriptors
        (gzip_header_ok : string -> bool) (path : string) (w : world) :
  let '((r, e), w') := FileStream_Open gzip_header_ok (mkFileStream path) w in
  files w' = files w /\
  match e with
  | None =>
      files w path <> None /\ open_fds w' = next_fd w :: open_fds w /\
      (r = File (next_fd w) path \/ r = Gzip (File (next_fd w) path))
  | Some err =>
      r = nilReadCloser /\
      (forall fd, In fd (open_fds w') -> In fd (open_fds w)) /\
      exists cause,
        (err = ErrCouldOpenFile path cause /\ files w path = None /\ w' = w) \/
        (err = ErrGzipFailed path cause /\ ends_in_gz path /\ files w path <> None)
  end.
Proof.
  unfold FileStream_Open, os_Open.
  destruct (files w path) as [bytes|] eqn:Hfile; simpl.
  - rewrite Hfile.
    destruct (String.eqb (ToLower (filepath_Ext path)) ".gz") eqn:E.
    + apply String.eqb_eq, gz_of_Ext in E.
      destruct (gzip_header_ok bytes); simpl.
      * split; [reflexivity |]. split; [discriminate | auto].
      * split; [reflexivity |]. split; [reflexivity |]. rewrite Nat.eqb_refl. split.
        -- intros fd. apply remove_fd_subset.
        -- eexists. right. split; [reflexivity |]. split; [exact E | discriminate].
    + simpl. split; [reflexivity |]. split; [discriminate | auto].
  - split; [reflexivity |]. split; [reflexivity |]. split; [auto |].
    eexists. left. auto.
Qed.

Lemma remove_fd_absent (fd : nat) (l : list nat) : ~ In fd l -> remove_fd fd l = l.
Proof.
  induction l as [|x l IH]; simpl; [reflexivity |]. intros H.
  destruct (Nat.eqb x fd) eqn:E.
  - apply Nat.eqb_eq in E. tauto.
  - rewrite IH; tauto.
Qed.

Lemma closed_at_return {T : Type} (p : Parser T) workers cancelled (st : state T) :
  reachable p workers cancelled st -> has_returned st = true ->
  In (CloseCall (closer p)) (trace st).
Proof.
  intros Hr Hret.
  destruct (close_once _ _ _ _ Hr) as (Hc & Hn & Hon & _).
  rewrite Hret in Hc. rewrite Hc in Hn.
  assert (Hex : exists c, In (CloseCall c) (trace st)).
  { clear Hon. induction (trace st) as [|ev tr IH]; simpl in Hn; [discriminate |].
    destruct (is_CloseCall ev) eqn:E.
    - destruct ev; try discriminate. eexists. left. reflexivity.
    - destruct (IH Hn) as [c Hc']. exists c. right. exact Hc'. }
  destruct Hex as [c Hin]. rewrite <- (Hon c Hin). exact Hin.
Qed.

(** X11. A plain file is given back.  For a path that does not end in
    ".gz" and opens, New returns a parser whose closer is the file; the
    file's descriptor is open while the parser is in use, Run closes it as
    it returns, and afterwards exactly the descriptors from before New are
    open. *)
Theorem plain_file_closed_after_Run
        {T : Type} (gzip_header_ok : string -> bool)
        (tokenize : io_ReadCloser -> list (row * option error))
        (path bytes : string) (w : world) :
  ~ ends_in_gz path -> files w path = Some bytes -> ~ In (next_fd w) (open_fds w) ->
  exists (p0 : Parser T) (w' : world),
    @New T tokenize FileStream (FileStream_Stream gzip_header_ok) (mkFileStream path) w
    = ((Some p0, None), w') /\
    closer p0 = File (next_fd w) path /\
    In (next_fd w) (open_fds w') /\
    forall (p : Parser T) (workers : Z) (cancelled : bool) (st : state T),
      closer p = closer p0 -> reachable p workers cancelled st ->
      (has_returned st = true -> In (CloseCall (closer p0)) (trace st)) /\
      (forall c, In (CloseCall c) (trace st) -> open_fds (Close c w') = open_fds w).
Proof.
  intros Hgz Hfile Hfresh.
  assert (Hext : String.eqb (ToLower (filepath_Ext path)) ".gz" = false).
  { apply String.eqb_neq. intros H. apply Hgz, gz_of_Ext, H. }
  unfold New, Open, FileStream_Stream, FileStream_Open, os_Open.
  rewrite Hfile, Hext. eexists. eexists. split; [reflexivity |].
  simpl. split; [reflexivity |]. split; [auto |].
  intros p workers cancelled st Hc Hr. split.
  - intros Hret. rewrite <- Hc. eapply closed_at_return; eauto.
  - intros c Hin. destruct (close_once _ _ _ _ Hr) as (_ & _ & Hon & _).
    rewrite (Hon c Hin), Hc. simpl. rewrite Nat.eqb_refl.
    apply remove_fd_absent. exact Hfresh.
Qed.

(** X12. A gzip file is not given back.  For a path that ends in
    ".gz", opens and is accepted by the decoder, New returns a parser
    whose closer is the gzip reader, not the file; Run closes the gzip
    reader as it returns, which leaves the file underneath open: the
    descriptor that New opened is still open after Run. *)
Theorem gz_file_left_open_after_Run
        {T : Type} (gzip_header_ok : string -> bool)
        (tokenize : io_ReadCloser -> list (row * option error))
        (path bytes : string) (w : world) :
  ends_in_gz path -> files w path = Some bytes -> gzip_header_ok bytes = true ->
  exists (p0 : Parser T) (w' : world),
    @New T tokenize FileStream (FileStream_Stream gzip_header_ok) (mkFileStream path) w
    = ((Some p0, None), w') /\
    closer p0 = Gzip (File (next_fd w) path) /\
    In (next_fd w) (open_fds w') /\
    forall (p : Parser T) (workers : Z) (cancelled : bool) (st : state T),
      closer p = closer p0 -> reachable p workers cancelled st ->
      (has_returned st = true -> In (CloseCall (closer p0)) (trace st)) /\
      (forall c, In (CloseCall c) (trace st) -> In (next_fd w) (open_fds (Close c w'))).
Proof.
  intros Hgz Hfile Hok.
  unfold New, Open, FileStream_Stream, FileStream_Open, os_Open.
  rewrite (Ext_of_gz _ Hgz), Hfile. simpl. rewrite Hfile, Hok.
  eexists. eexists. split; [reflexivity |].
  simpl. split; [reflexivity |]. split; [auto |].
  intros p workers cancelled st Hc Hr. split.
  - intros Hret. rewrite <- Hc. eapply closed_at_return; eauto.
  - intros c Hin. destruct (close_once _ _ _ _ Hr) as (_ & _ & Hon & _).
    rewrite (Hon c Hin), Hc. simpl. auto.
Qed.

(** * The theorems at work on more scenarios *)

Lemma scenario_malformed_reachable :
  reachable (number_parser malformed_rows) 2 false scenario_malformed_final.
Proof. exists scenario_malformed. vm_compute. reflexivity. Defined.

Lemma scenario_truncated_reachable :
  reachable (number_parser truncated_rows) 1 false scenario_truncated_final.
Proof. exists scenario_truncated. vm_compute. reflexivity. Defined.

Lemma scenario_A_cancelled_reachable :
  reachable (number_parser three_rows) 2 false scenario_A_cancelled.
Proof.
  exists [AMain false; AMain false; AMain false; ACancel]. vm_compute. reflexivity.
Defined.

Lemma scenario_A_cancelled_runs :
  exec (number_parser three_rows) 2 scenario_A_after_cancel scenario_A_cancelled
  = Some scenario_A_cancelled_final.
Proof. vm_compute. reflexivity. Defined.

Lemma rows_run_processRow_witness :
  reachable (number_parser malformed_rows) 2 false scenario_malformed_final /\
  events_about 3 (trace scenario_malformed_final)
  = processRow (number_parser malformed_rows) 3 ["3"%string] /\
  events_about 2 (trace scenario_malformed_final) = [].
Proof.
  split; [exact scenario_malformed_reachable |].
  destruct (rows_run_processRow (number_parser malformed_rows) 2 false
              scenario_malformed_final scenario_malformed_reachable) as [Hread Hnone].
  split.
  - apply (Hread 3%Z ["3"%string]); [simpl; tauto | reflexivity].
  - apply Hnone. intros r Hin. simpl in Hin.
    repeat (destruct Hin as [Hin | Hin]; [discriminate Hin |]). exact Hin.
Defined.

Lemma dispatch_follows_reads_witness :
  reachable (number_parser malformed_rows) 2 false scenario_malformed_final /\
  read_ixs (trace scenario_malformed_final) = ordinals 4 /\
  spawned (trace scenario_malformed_final) = [1%Z; 3%Z] /\
  read_reports (trace scenario_malformed_final)
  = [ErrReadLine 2 (ErrOther "wrong number of fields")].
Proof.
  split; [exact scenario_malformed_reachable |].
  exact (dispatch_follows_reads (number_parser malformed_rows) 2 false
           scenario_malformed_final scenario_malformed_reachable).
Defined.

Lemma reports_are_genuine_witness :
  reachable (number_parser malformed_rows) 2 false scenario_malformed_final /\
  In (CallOnError (ErrLine ErrParse 3 (ErrOther "need 2 columns at least")))
     (trace scenario_malformed_final) /\
  OnError (number_parser malformed_rows) = true.
Proof.
  split; [exact scenario_malformed_reachable |].
  assert (Hin : In (CallOnError (ErrLine ErrParse 3 (ErrOther "need 2 columns at least")))
                   (trace scenario_malformed_final)) by (simpl; tauto).
  split; [exact Hin |].
  exact (proj1 (reports_are_genuine (number_parser malformed_rows) 2 false
                  scenario_malformed_final _ scenario_malformed_reachable Hin)).
Defined.

Lemma failures_are_reported_witness :
  OnError (number_parser malformed_rows) = true /\
  reachable (number_parser malformed_rows) 2 false scenario_malformed_final /\
  In (CallOnError (ErrReadLine 2 (ErrOther "wrong number of fields")))
     (trace scenario_malformed_final) /\
  In (CallOnError (ErrLine ErrParse 3 (ErrOther "need 2 columns at least")))
     (trace scenario_malformed_final).
Proof.
  split; [reflexivity |]. split; [exact scenario_malformed_reachable |].
  destruct (failures_are_reported (number_parser malformed_rows) 2 false
              scenario_malformed_final eq_refl scenario_malformed_reachable)
    as [Hread Hrow].
  split.
  - apply (Hread 2%Z ["2"%string]); [simpl; tauto | reflexivity].
  - apply (Hrow eq_refl 3%Z ["3"%string]); [simpl; tauto | reflexivity].
Defined.

Lemma eof_read_ends_the_loop_witness :
  reachable (number_parser truncated_rows) 1 false scenario_truncated_final /\
  In (ReadCall 2 [] (Some (ErrWrap "read" EOF))) (trace scenario_truncated_final) /\
  errors_Is_EOF (ErrWrap "read" EOF) = true /\
  input (reader scenario_truncated_final) = [(["3"; "three"]%string, None)] /\
  ~ In (CallOnError (ErrReadLine 2 (ErrWrap "read" EOF))) (trace scenario_truncated_final).
Proof.
  split; [exact scenario_truncated_reachable |].
  assert (Hin : In (ReadCall 2 [] (Some (ErrWrap "read" EOF)))
                   (trace scenario_truncated_final)) by (simpl; tauto).
  split; [exact Hin |]. split; [reflexivity |]. split; [reflexivity |].
  apply (eof_read_ends_the_loop (number_parser truncated_rows) 1 false
           scenario_truncated_final 2%Z [] (ErrWrap "read" EOF)
           scenario_truncated_reachable Hin eq_refl).
Defined.

Lemma cancellation_stops_reading_witness :
  reachable (number_parser three_rows) 2 false scenario_A_cancelled /\
  pc scenario_A_cancelled = AtSelect /\
  exec (number_parser three_rows) 2 scenario_A_after_cancel scenario_A_cancelled
  = Some scenario_A_cancelled_final /\
  read_ixs (trace scenario_A_cancelled_final) = [1%Z] /\
  events_about 1 (trace scenario_A_cancelled_final)
  = processRow (number_parser three_rows) 1 ["1"; "one"]%string.
Proof.
  split; [exact scenario_A_cancelled_reachable |]. split; [reflexivity |].
  split; [exact scenario_A_cancelled_runs |].
  destruct (cancellation_stops_reading (number_parser three_rows) 2 false
              scenario_A_cancelled (whole_worker 0 ++ [AMain false])
              scenario_A_cancelled_final scenario_A_cancelled_reachable eq_refl
              scenario_A_cancelled_runs) as (_ & _ & Hixs & _ & Hrows).
  split; [exact Hixs |].
  apply (Hrows eq_refl 1%Z ["1"; "one"]%string). simpl. tauto.
Defined.

Lemma one_worker_is_serial_witness :
  1%Z = 1%Z /\ reachable (number_parser three_rows) 1 false scenario_A_final /\
  row_events (trace scenario_A_final)
  = bodies (number_parser three_rows) (trace scenario_A_final).
Proof.
  split; [reflexivity |]. split; [exact scenario_A_reachable |].
  apply (one_worker_is_serial (number_parser three_rows) 1 false scenario_A_final
           eq_refl scenario_A_reachable). reflexivity.
Defined.

Lemma two_good_rows : good_rows (firstn 2 (input (Reader (number_parser three_rows)))).
Proof. repeat constructor. Defined.

Lemma workers_can_all_be_busy_witness :
  preconditions (number_parser three_rows) 2 = true /\
  (Z.of_nat 2 <= 2)%Z /\ (Z.of_nat 2 < max_int)%Z /\
  2 <= length (input (Reader (number_parser three_rows))) /\
  exists st,
    exec (number_parser three_rows) 2 (AMain false :: fill 2)
         (init (number_parser three_rows) false) = Some st /\
    in_flight (pool st) = 2.
Proof.
  split; [reflexivity |]. split; [lia |]. split; [reflexivity |]. split; [simpl; lia |].
  destruct (workers_can_all_be_busy (number_parser three_rows) 2 false 2)
    as (st & Hex & _ & Hfl & _);
    [reflexivity | lia | reflexivity | simpl; lia | exact two_good_rows |].
  exists st. split; [exact Hex | exact Hfl].
Defined.

Lemma rows_csv_gz_ends_in_gz : ends_in_gz "rows.csv.gz".
Proof.
  exists "rows.csv"%string, "g"%char, "z"%char.
  split; [reflexivity |]. split; left; reflexivity.
Defined.

Lemma rows_csv_not_gz : ~ ends_in_gz "rows.csv".
Proof. intros H. apply Ext_of_gz in H. vm_compute in H. discriminate H. Defined.

Lemma FileStream_gzip_by_extension_witness :
  files two_file_world "rows.csv" = Some "1,one"%string /\
  FileStream_Open gzip_magic (mkFileStream "rows.csv") two_file_world
  = ((File 3 "rows.csv", None), snd (os_Open "rows.csv" two_file_world)).
Proof.
  split; [reflexivity |].
  apply (FileStream_gzip_by_extension gzip_magic "rows.csv" "1,one" two_file_world
           eq_refl).
  exact rows_csv_not_gz.
Defined.

Lemma plain_file_closed_after_Run_witness :
  ~ ends_in_gz "rows.csv" /\
  files two_file_world "rows.csv" = Some "1,one"%string /\
  ~ In (next_fd two_file_world) (open_fds two_file_world) /\
  exists (p0 : Parser (string * string)) (w' : world),
    @New (string * string) (fun _ => three_rows) FileStream (FileStream_Stream gzip_magic)
         (mkFileStream "rows.csv") two_file_world
    = ((Some p0, None), w') /\
    closer p0 = File 3 "rows.csv" /\ In 3 (open_fds w').
Proof.
  assert (Hfresh : ~ In (next_fd two_file_world) (open_fds two_file_world))
    by (simpl; lia).
  split; [exact rows_csv_not_gz |]. split; [reflexivity |]. split; [exact Hfresh |].
  destruct (plain_file_closed_after_Run (T := string * string) gzip_magic
              (fun _ => three_rows) "rows.csv" "1,one" two_file_world
              rows_csv_not_gz eq_refl Hfresh) as (p0 & w' & HN & Hc & Hopen & _).
  exists p0, w'. auto.
Defined.

Lemma gz_file_left_open_after_Run_witness :
  ends_in_gz "rows.csv.gz" /\
  files two_file_world "rows.csv.gz" = Some (String "031" (String "139" "...")) /\
  gzip_magic (String "031" (String "139" "...")) = true /\
  exists (p0 : Parser (string * string)) (w' : world),
    @New (string * string) (fun _ => three_rows) FileStream (FileStream_Stream gzip_magic)
         (mkFileStream "rows.csv.gz") two_file_world
    = ((Some p0, None), w') /\
    closer p0 = Gzip (File 3 "rows.csv.gz") /\ In 3 (open_fds w').
Proof.
  split; [exact rows_csv_gz_ends_in_gz |]. split; [reflexivity |].
  split; [reflexivity |].
  destruct (gz_file_left_open_after_Run (T := string * string) gzip_magic
              (fun _ => three_rows) "rows.csv.gz" (String "031" (String "139" "..."))
              two_file_world rows_csv_gz_ends_in_gz eq_refl eq_refl)
    as (p0 & w' & HN & Hc & Hopen & _).
  exists p0, w'. auto.
Defined.

Lemma malformed_rows_only : rows_only (input (Reader (number_parser malformed_rows))).
Proof. repeat constructor. Defined.

Lemma Run_processes_every_row_witness :
  rows_only (input (Reader (number_parser malformed_rows))) /\
  preconditions (number_parser malformed_rows) 2 = true /\
  reachable (number_parser malformed_rows) 2 false scenario_malformed_final /\
  has_returned scenario_malformed_final = true /\
  ctx_done scenario_malformed_final = false /\
  events_about 3 (trace scenario_malformed_final)
  = processRow (number_parser malformed_rows) 3 ["3"%string] /\
  events_about 2 (trace scenario_malformed_final) = [].
Proof.
  split; [exact malformed_rows_only |]. split; [reflexivity |].
  split; [exact scenario_malformed_reachable |]. split; [reflexivity |].
  split; [reflexivity |].
  assert (Hmax : (Z.of_nat (length (input (Reader (number_parser malformed_rows))))
                  <= max_int)%Z) by (vm_compute; discriminate).
  pose proof (Run_processes_every_row (number_parser malformed_rows) 2 false
                scenario_malformed_final malformed_rows_only eq_refl Hmax
                scenario_malformed_reachable eq_refl eq_refl) as Hrows.
  split.
  - exact (proj2 (Hrows 2 ["3"%string] None eq_refl)).
  - exact (proj1 (proj2 (Hrows 1 ["2"%string]
                           (Some (ErrOther "wrong number of fields")) eq_refl))).
Defined.
